(** * Obstruction: board states and minimax search with alpha-beta pruning

    A shallow embedding of [Board.py], [Solver.py] and the driver
    [Tester.py].

    - Python integers are [Z]; the utility of a state is a Python number that
      is either an integer or one of the two floats [inf] and [-inf]
      ([number] below).
    - A board is the record of the fields [ObstructionBoard.__init__] sets.
      [_utility] and [chosen_child] are the two fields the search writes.
    - A game-tree node is the Python list [[state, child_1, ..., child_n]],
      embedded as [mkNode state [child_1; ...; child_n]].
    - [_base_minimax] mutates the state it is given and the [node_data]
      object; the embedding threads both through the loops explicitly.
    - Python text is [string]; the driver reads and writes a console, which
      the embedding threads through its functions ([IO] below). *)

From stdpp Require Import base option list gmap strings pretty.
From Stdlib Require Import ZArith Lia Ascii.

Local Open Scope Z_scope.

(** ** Board.py *)

(** Square value constants: [MAX = "O"], [MIN = "X"], [OPEN = "-"],
    [BLOCKED = "/"]. *)
Inductive Square := MAX | MIN | OPEN | BLOCKED.

Global Instance Square_eq_dec : EqDecision Square.
Proof. solve_decision. Defined.

(** An integer, [inf] or [-inf]. *)
Inductive number := NegInf | Int (z : Z) | Inf.

Global Instance number_eq_dec : EqDecision number.
Proof. solve_decision. Defined.

(** [a < b] on Python numbers. *)
Definition number_ltb (a b : number) : bool :=
  match a, b with
  | NegInf, NegInf => false
  | NegInf, _ => true
  | Int _, NegInf => false
  | Int x, Int y => x <? y
  | Int _, Inf => true
  | Inf, _ => false
  end.

(** [a >= b]. *)
Definition number_geb (a b : number) : bool := negb (number_ltb a b).

(** Python's [max(a, b)] keeps [a] unless [b > a]; [min(a, b)] keeps [a]
    unless [b < a]. *)
Definition number_max (a b : number) : number := if number_ltb a b then b else a.
Definition number_min (a b : number) : number := if number_ltb b a then b else a.

(** [x in (inf, -inf)]. *)
Definition is_infinite (x : number) : bool :=
  match x with Int _ => false | _ => true end.

(** Python text: [str(n)] of an integer is [pretty n], its decimal digits
    after a minus sign if it is negative; [sep.join(l)] and [s.split(sep)]
    for a separator of one character. *)
Definition newline : string := String "010"%char EmptyString.

Fixpoint join (sep : string) (l : list string) : string :=
  match l with
  | [] => EmptyString
  | x :: l' =>
      match l' with
      | [] => x
      | _ :: _ => x +:+ sep +:+ join sep l'
      end
  end.

Fixpoint split (sep : ascii) (s : string) : list string :=
  match s with
  | EmptyString => [EmptyString]
  | String a s' =>
      if decide (a = sep) then EmptyString :: split sep s'
      else match split sep s' with
           | [] => [String a EmptyString]
           | x :: l => String a x :: l
           end
  end.

(** [range(a, b)]. *)
Definition range (a b : Z) : list Z :=
  map (fun k => a + Z.of_nat k) (seq 0 (Z.to_nat (b - a))).

(** The fields of an [ObstructionBoard].  [chosen_child] is the "unmanaged
    read/write variable" that is expected to hold a game-tree node, so the
    record is parameterised by the type [N] of nodes. *)
Record ObstructionBoard (N : Type) := mkBoard {
  _tiles : list (list Square);
  _open_cnt : Z;
  _MAX_turn : bool;
  _action : option (Z * Z);
  _utility : option number;
  chosen_child : option N
}.

Arguments mkBoard {N}.
Arguments _tiles {N}.
Arguments _open_cnt {N}.
Arguments _MAX_turn {N}.
Arguments _action {N}.
Arguments _utility {N}.
Arguments chosen_child {N}.

Section Board.
Context {N : Type}.
Local Abbreviation Board := (ObstructionBoard N).

(** [ObstructionBoard(tiles, open_cnt, MAX_turn, action)]: the constructor
    leaves [_utility] and [chosen_child] at [None]. *)
Definition __init__ (tiles : list (list Square)) (open_cnt : Z)
    (MAX_turn : bool) (action : option (Z * Z)) : Board :=
  mkBoard tiles open_cnt MAX_turn action None None.

(** [create(width, height)]. *)
Definition create (width height : Z) : option Board :=
  if (width <? 1) || (height <? 1) then None
  else Some (__init__
               (map (fun _ => replicate (Z.to_nat width) OPEN) (range 0 height))
               (width * height) true None).

(** [width] is [len(self._tiles[0])] and [height] is [len(self._tiles)].
    Python raises IndexError for [width] on a grid without rows; [create] and
    [place] never build one, and the embedding gives 0 there. *)
Definition width (self : Board) : Z :=
  Z.of_nat (length (default [] (_tiles self !! 0%nat))).

Definition height (self : Board) : Z := Z.of_nat (length (_tiles self)).

Definition MAX_turn (self : Board) : bool := _MAX_turn self.
Definition action (self : Board) : option (Z * Z) := _action self.

(** [done]: [self._open_cnt == 0]. *)
Definition done (self : Board) : bool := _open_cnt self =? 0.

(** [winner]: [None] unless done, else [MIN if self._MAX_turn else MAX]. *)
Definition winner (self : Board) : option Square :=
  if negb (done self) then None
  else Some (if _MAX_turn self then MIN else MAX).

(** [tiles[i][j]] for indices already known to be non-negative; [None]
    stands for Python's IndexError.  [place] indexes only after its range
    tests, so on a rectangular grid, the only kind [create] and [place]
    build, the index is always in range. *)
Definition get_square (tiles : list (list Square)) (i j : Z) : option Square :=
  tiles !! Z.to_nat i ≫= (.!! Z.to_nat j).

(** [tiles[i][j] = v]. *)
Definition set_square (tiles : list (list Square)) (i j : Z) (v : Square)
    : list (list Square) :=
  alter (fun r => <[Z.to_nat j := v]> r) (Z.to_nat i) tiles.

(** [0 <= i < n]. *)
Definition in_range (i n : Z) : bool := (0 <=? i) && (i <? n).

(** The body of the two loops of [place] that block the open squares around
    [(row, col)]; the accumulator is [(new_squares, new_open_cnt)]. *)
Definition block_square (self : Board) (i j : Z)
    (acc : list (list Square) * Z) : list (list Square) * Z :=
  if in_range j (width self)
     && bool_decide (get_square acc.1 i j = Some OPEN)
  then (set_square acc.1 i j BLOCKED, acc.2 - 1)
  else acc.

Definition block_row (self : Board) (col i : Z)
    (acc : list (list Square) * Z) : list (list Square) * Z :=
  if in_range i (height self)
  then foldl (fun a j => block_square self i j a) acc (range (col - 1) (col + 2))
  else acc.

Definition block_around (self : Board) (row col : Z)
    (acc : list (list Square) * Z) : list (list Square) * Z :=
  foldl (fun a i => block_row self col i a) acc (range (row - 1) (row + 2)).

(** [place(row, col)].  [None] is the failure value.  The test on the target
    square reads [self._tiles[row][col]] only once both range tests passed
    (Python's [or] short-circuits).  On a grid whose rows differ in length
    an index that passed the range tests can still be out of range: Python
    raises IndexError there, and the embedding answers as for a square that
    is not [OPEN].  [heap_place] below keeps the two apart and agrees with
    [place] on every rectangular board. *)
Definition place (self : Board) (row col : Z) : option Board :=
  if negb (in_range row (height self))
     || negb (in_range col (width self))
     || negb (bool_decide (get_square (_tiles self) row col = Some OPEN))
  then None
  else
    let new_squares := map (fun old_row => old_row) (_tiles self) in
    let new_open_cnt := _open_cnt self in
    let new_squares :=
      set_square new_squares row col (if _MAX_turn self then MAX else MIN) in
    let new_open_cnt := new_open_cnt - 1 in
    let '(new_squares, new_open_cnt) :=
      block_around self row col (new_squares, new_open_cnt) in
    Some (__init__ new_squares new_open_cnt (negb (_MAX_turn self))
            (Some (row, col))).

(** [_evaluate_node(board)]. *)
Definition _evaluate_node (board : Board) : number :=
  let util := _open_cnt board in
  let util := if util =? 1 then width board * height board + 1 else util in
  Int (if _MAX_turn board then util else - util).

(** The [utility] property: the getter computes and caches the value when
    [_utility] is [None]; it returns the value read and the state after the
    read.  The setter overwrites [_utility]. *)
Definition utility (self : Board) : number * Board :=
  match _utility self with
  | Some u => (u, self)
  | None =>
      let u := match winner self with
               | None => _evaluate_node self
               | Some w => if bool_decide (w = MAX) then Inf else NegInf
               end in
      (u, mkBoard (_tiles self) (_open_cnt self) (_MAX_turn self)
            (_action self) (Some u) (chosen_child self))
  end.

Definition set_utility (self : Board) (value : number) : Board :=
  mkBoard (_tiles self) (_open_cnt self) (_MAX_turn self) (_action self)
    (Some value) (chosen_child self).

Definition set_chosen_child (self : Board) (c : option N) : Board :=
  mkBoard (_tiles self) (_open_cnt self) (_MAX_turn self) (_action self)
    (_utility self) c.

(** The text of a square and [__str__]: a line of column numbers, then one
    line for every row, its number before its squares. *)
Definition Square_str (v : Square) : string :=
  match v with MAX => "O" | MIN => "X" | OPEN => "-" | BLOCKED => "/" end.

Definition __str__ (self : Board) : string :=
  "  " +:+ join " " (pretty <$> range 0 (width self)) +:+ newline
  +:+ join newline
        (imap (fun i row => pretty i +:+ " " +:+ join " " (Square_str <$> row))
           (_tiles self)).

(** [__eq__]: [self._tiles == other._tiles], the equality of two lists of
    lists of squares; no other field is compared. *)
Definition __eq__ (self other : Board) : bool :=
  bool_decide (_tiles self = _tiles other).

End Board.

(** ** Solver.py *)

(** A game-tree node: the Python list [[state, child_1, ..., child_n]]. *)
#[warnings="-register-all"]
Inductive Node := mkNode {
  node_state : ObstructionBoard Node;
  node_children : list Node
}.

Abbreviation Board := (ObstructionBoard Node).

(** The two classes of search data, [MMData(depth)] and
    [ABData(depth, alpha, beta)], with their four methods. *)
Inductive NodeData :=
  | MMData (depth : Z)
  | ABData (depth : Z) (alpha beta : number).

Definition depth (d : NodeData) : Z :=
  match d with MMData n => n | ABData n _ _ => n end.

Definition child (d : NodeData) : NodeData :=
  match d with
  | MMData n => MMData (n - 1)
  | ABData n a b => ABData (n - 1) a b
  end.

Definition update_alpha (d : NodeData) (new_utility : number) : NodeData :=
  match d with
  | MMData n => MMData n
  | ABData n a b => if number_ltb a new_utility then ABData n new_utility b else d
  end.

Definition update_beta (d : NodeData) (new_utility : number) : NodeData :=
  match d with
  | MMData n => MMData n
  | ABData n a b => if number_ltb new_utility b then ABData n a new_utility else d
  end.

Definition prune (d : NodeData) : bool :=
  match d with
  | MMData _ => false
  | ABData _ a b => number_geb a b
  end.

(** A [for] loop with [break]: the body returns the new state and whether it
    executed [break]; [None] is propagated (the recursion ran out of fuel). *)
Fixpoint for_each {A S : Type} (body : A -> S -> option (S * bool))
    (l : list A) (s : S) : option (S * bool) :=
  match l with
  | [] => Some (s, false)
  | x :: l' =>
      match body x s with
      | None => None
      | Some (s', true) => Some (s', true)
      | Some (s', false) => for_each body l' s'
      end
  end.

(** What the loops of [_base_minimax] read and write: the [state] object
    (its [utility] and [chosen_child]), the list [node] without its head,
    [total_expanded] and the [node_data] object. *)
Record LoopState := mkLoop {
  ls_state : Board;
  ls_node : list Node;
  ls_total : Z;
  ls_data : NodeData
}.

(** The triple [(initial utility, max_or_min, update_ab)] selected on
    [state.MAX_turn]. *)
Definition max_or_min (MAX_turn : bool) : number -> number -> number :=
  if MAX_turn then number_max else number_min.

Definition update_ab (MAX_turn : bool) : NodeData -> number -> NodeData :=
  if MAX_turn then update_alpha else update_beta.

Section Search.
(** The recursive call. *)
Variable rec : Board -> NodeData -> option (Node * Z).

(** What the inner loop does once [state.place(i, j)] returned [new_state].
    [new_state] and [child[0]] are one object, so the utility read from
    [new_state] is read from (and, for a leaf, cached in) the head of
    [child]; the node appended to [node] is that same object. *)
Definition expand_child (new_state : Board) (st : LoopState)
    : option (LoopState * bool) :=
  match rec new_state (child (ls_data st)) with
  | None => None
  | Some (child_node, expanded) =>
      let total_expanded := ls_total st + expanded in
      let '(u_state, state) := utility (ls_state st) in
      let '(u_child, new_state) := utility (node_state child_node) in
      let child_node := mkNode new_state (node_children child_node) in
      let node := ls_node st ++ [child_node] in
      let temp := max_or_min (MAX_turn state) u_state u_child in
      if negb (bool_decide (temp = u_state))
         || bool_decide (chosen_child state = None)
      then
        let state := set_chosen_child state (Some child_node) in
        let state := set_utility state temp in
        let node_data := update_ab (MAX_turn state) (ls_data st) temp in
        if prune node_data then
          let state :=
            if negb (is_infinite (utility state).1)
            then set_chosen_child state None else state in
          Some (mkLoop state node total_expanded node_data, true)
        else Some (mkLoop state node total_expanded node_data, false)
      else Some (mkLoop state node total_expanded (ls_data st), false)
  end.

(** The body of the inner loop at [(i, j)]: squares where [place] fails are
    skipped. *)
Definition visit (i j : Z) (st : LoopState) : option (LoopState * bool) :=
  match place (ls_state st) i j with
  | None => Some (st, false)
  | Some new_state => expand_child new_state st
  end.

(** [for i in range(state.height): for j in range(state.width): ...] where
    a [break] of the inner loop also leaves the outer one. *)
Definition loops (st : LoopState) : option (LoopState * bool) :=
  for_each
    (fun i st => for_each (visit i) (range 0 (width (ls_state st))) st)
    (range 0 (height (ls_state st))) st.

Definition _base_minimax_body (state : Board) (node_data : NodeData)
    : option (Node * Z) :=
  if negb (depth node_data =? 0) && negb (done state) then
    let state :=
      set_utility state (if MAX_turn state then NegInf else Inf) in
    match loops (mkLoop state [] 1 node_data) with
    | None => None
    | Some (st, _) => Some (mkNode (ls_state st) (ls_node st), ls_total st)
    end
  else Some (mkNode state [], 1).

End Search.

(** [_base_minimax(state, node_data)], with a bound on the recursion depth;
    [None] means the bound was reached. *)
Fixpoint _base_minimax (fuel : nat) (state : Board) (node_data : NodeData)
    : option (Node * Z) :=
  match fuel with
  | O => None
  | S fuel' => _base_minimax_body (_base_minimax fuel') state node_data
  end.

(** The number of [OPEN] squares of a grid bounds the height of the tree
    below a state, since every successful [place] removes at least one. *)
Definition count_square (v : Square) (tiles : list (list Square)) : nat :=
  length (filter (fun x => x = v) (concat tiles)).

Definition enough_fuel (state : Board) : nat := S (count_square OPEN (_tiles state)).

(** [minimax(state, depth)] and [minimax_ab(state, depth)]. *)
Definition minimax (state : Board) (depth : Z) : option (Node * Z) :=
  _base_minimax (enough_fuel state) state (MMData depth).

Definition minimax_ab (state : Board) (depth : Z) : option (Node * Z) :=
  _base_minimax (enough_fuel state) state (ABData depth NegInf Inf).

(** [tree[0].utility] read from a returned tree. *)
Definition root_utility (tree : Node) : number := (utility (node_state tree)).1.

(** ** Tester.py *)

Definition _LOOKAHEAD_DEPTH : Z := 4.

(** [_ALGORITHMS] is a dict from the name of a search to the search at the
    lookahead depth, [_SIZES] the list of board sizes and [_SIZE_STRINGS]
    their texts [f'{size[0]}*{size[1]}']. *)
Definition _ALGORITHMS : list (string * (Board -> option (Node * Z))) :=
  [("MM", fun state => minimax state _LOOKAHEAD_DEPTH);
   ("AB", fun state => minimax_ab state _LOOKAHEAD_DEPTH)].

Definition _SIZES : list (Z * Z) := [(6, 6); (6, 7); (7, 8); (8, 8)].

Definition _SIZE_STRINGS : list string :=
  (fun size => pretty size.1 +:+ "*" +:+ pretty size.2) <$> _SIZES.

(** [d[key]] for a dict kept as the list of its items, and [l.index(x)];
    [None] stands for KeyError and for ValueError. *)
Definition dict_get {V} (key : string) (d : list (string * V)) : option V :=
  snd <$> List.find (fun kv => bool_decide (kv.1 = key)) d.

Fixpoint index (x : string) (l : list string) : option nat :=
  match l with
  | [] => None
  | y :: l' => if decide (y = x) then Some 0%nat else S <$> index x l'
  end.

(** The exceptions the program raises or meets. *)
Inductive exception :=
  | RuntimeError (msg : string)
  | ValueError (msg : string)
  | IndexError (msg : string)
  | TypeError (msg : string)
  | EOFError (msg : string).

Definition quoted (s : string) : string :=
  String "034"%char EmptyString +:+ s +:+ String "034"%char EmptyString.

(** [_parse_args()], as a function of [sys.argv]: the exception raised, or
    the tuple returned. *)
Definition _parse_args (argv : list string)
    : exception
      + (bool * (Board -> option (Node * Z)) * string * (Z * Z) * string) :=
  if negb (length argv =? 4)%nat then
    inl (RuntimeError
           "Exactly three arguments are required: player searchmethod size")
  else
    match argv !! 1%nat, argv !! 2%nat, argv !! 3%nat with
    | Some player, Some algorithm_name, Some size_str =>
        if negb (bool_decide (player ∈ ["1"; "2"])) then
          inl (ValueError
                 ("The AI player must be specified as " +:+ quoted "1"
                  +:+ " (AI goes first) or " +:+ quoted "2"
                  +:+ " (AI goes second; human goes first)."))
        else
          let ai_first := bool_decide (player = "1") in
          match dict_get algorithm_name _ALGORITHMS with
          | None =>
              inl (ValueError
                     (quoted algorithm_name
                      +:+ " is not a supported algorithm. Choose one of "
                      +:+ "the following: " +:+ join " " _ALGORITHMS.*1))
          | Some algorithm =>
              match index size_str _SIZE_STRINGS with
              | None =>
                  inl (ValueError
                         ("The size must be one of the following: "
                          +:+ join " " _SIZE_STRINGS))
              | Some size_ind =>
                  match _SIZES !! size_ind with
                  | None => inl (IndexError "list index out of range")
                  | Some size =>
                      inr (ai_first, algorithm, algorithm_name, size, size_str)
                  end
              end
          end
    | _, _, _ => inl (IndexError "list index out of range")
    end.

(** The console: the lines still to be read from the standard input, and
    what was written to the standard output, call by call. *)
Record Console := mkConsole {
  stdin : list string;
  stdout : list string
}.

(** What running a piece of the program on a console comes to: it returns a
    value, it raises an exception, it never ends, or the bound on the
    recursion of the embedding was reached. *)
Inductive outcome (A : Type) :=
  | Returns (a : A) (c : Console)
  | Raises (e : exception) (c : Console)
  | Endless
  | OutOfFuel.

Arguments Returns {A}.
Arguments Raises {A}.
Arguments Endless {A}.
Arguments OutOfFuel {A}.

Definition IO (A : Type) : Type := Console -> outcome A.

Global Instance IO_ret : MRet IO := fun A a c => Returns a c.

Global Instance IO_bind : MBind IO := fun A B f m c =>
  match m c with
  | Returns a c' => f a c'
  | Raises e c' => Raises e c'
  | Endless => Endless
  | OutOfFuel => OutOfFuel
  end.

Definition raise {A} (e : exception) : IO A := fun c => Raises e c.

(** [print] writes its arguments separated by spaces and a newline;
    [input(prompt)] writes the prompt and reads a line, or raises EOFError
    at the end of the input. *)
Definition print (args : list string) : IO unit := fun c =>
  Returns () (mkConsole (stdin c) (stdout c ++ [join " " args +:+ newline])).

Definition input (prompt : string) : IO string := fun c =>
  match stdin c with
  | [] => Raises (EOFError "EOF when reading a line")
            (mkConsole [] (stdout c ++ [prompt]))
  | line :: rest => Returns line (mkConsole rest (stdout c ++ [prompt]))
  end.

(** [_play_ai_turn(tree, search)]; [search] returns [None] when the bound on
    its recursion was reached. *)
Definition _play_ai_turn (tree : Node) (search : Board -> option Node)
    : IO (option Node) :=
  let temp_tree := chosen_child (node_state tree) in
  match temp_tree with
  | None =>
      match search (node_state tree) with
      | None => fun _ => OutOfFuel
      | Some found => mret (chosen_child (node_state found))
      end
  | Some _ => mret temp_tree
  end.

(** [_find_child(tree, state)]: the first child whose state equals
    [state]. *)
Definition _find_child (tree : Node) (state : Board) : option Node :=
  List.find (fun c => __eq__ state (node_state c)) (node_children tree).

(** [_format_action(action_tuple)]; subscripting [None] raises TypeError. *)
Definition _format_action (action_tuple : option (Z * Z)) : IO string :=
  match action_tuple with
  | None => raise (TypeError "'NoneType' object is not subscriptable")
  | Some (r, c) => mret (pretty r +:+ "/" +:+ pretty c)
  end.

(** [_show_move(tree, ai_turn)]; [tree] is [None] when [_play_ai_turn]
    returned [None]. *)
Definition _show_move (tree : option Node) (ai_turn : bool) : IO unit :=
  match tree with
  | None => raise (TypeError "'NoneType' object is not subscriptable")
  | Some tree =>
      print [__str__ (node_state tree)];;
      a ← _format_action (action (node_state tree));
      print [(if ai_turn then "AI" else "Human") +:+ " move:"; a];;
      print []
  end.

Section Interaction.
(** [int(text)] of Python: the integer a text denotes, or [None] for
    ValueError. *)
Variable int : string -> option Z.

(** [_get_human_move(tree)]. *)
Definition _get_human_move (tree : Node) : IO (option Board) := fun c =>
  match input "Enter your move in the format row/column: " c with
  | Raises (EOFError _) c => Returns None c
  | Raises e c => Raises e c
  | Endless => Endless
  | OutOfFuel => OutOfFuel
  | Returns move_str c =>
      let row_and_col := split "/" move_str in
      if negb (length row_and_col =? 2)%nat then Returns None c
      else
        match row_and_col !! 0%nat ≫= int, row_and_col !! 1%nat ≫= int with
        | Some row, Some col =>
            let state := node_state tree in
            if negb (in_range row (height state)) then
              (print ["Rows must be in [0, " +:+ pretty (height state - 1)
                      +:+ "]"];; mret None) c
            else if negb (in_range col (width state)) then
              (print ["Columns must be in [0, " +:+ pretty (width state - 1)
                      +:+ "]"];; mret None) c
            else
              match place state row col with
              | None =>
                  (print ["Only open squares can be played."];; mret None) c
              | Some move => Returns (Some move) c
              end
        | _, _ =>
            (print ["Row and column values must be integers."];; mret None) c
        end
  end.

(** The loop of [_play_human_turn]: one call of [_get_human_move] for
    every line of the input, until one gives a move; once the input is
    exhausted every call ends in EOFError and the loop never ends. *)
Fixpoint ask (tree : Node) (lines : list string) (out : list string)
    : outcome Board :=
  match _get_human_move tree (mkConsole lines out) with
  | Returns (Some move_state) c => Returns move_state c
  | Returns None c =>
      match lines with
      | [] => Endless
      | _ :: lines' => ask tree lines' (stdout c)
      end
  | Raises e c => Raises e c
  | Endless => Endless
  | OutOfFuel => OutOfFuel
  end.

(** [_play_human_turn(tree)]. *)
Definition _play_human_turn (tree : Node) : IO Node := fun c =>
  match ask tree (stdin c) (stdout c) with
  | Returns move_state c =>
      let temp_tree := _find_child tree move_state in
      match temp_tree with
      | None => Returns (mkNode move_state []) c
      | Some t => Returns t c
      end
  | Raises e c => Raises e c
  | Endless => Endless
  | OutOfFuel => OutOfFuel
  end.

(** The [while not tree[0].done] loop of [play], at most [fuel] turns. *)
Fixpoint turns (fuel : nat) (search : Board -> option Node)
    (ai_msg human_msg : string) (tree : Node) (ai_turn : bool)
    : IO (Node * bool) :=
  match fuel with
  | O => fun _ => OutOfFuel
  | S fuel' =>
      if negb (done (node_state tree)) then
        next ← (if ai_turn
                then print [ai_msg];; _play_ai_turn tree search
                else print [human_msg];;
                     t ← _play_human_turn tree; mret (Some t));
        _show_move next ai_turn;;
        match next with
        | None => raise (TypeError "'NoneType' object is not subscriptable")
        | Some tree => turns fuel' search ai_msg human_msg tree (negb ai_turn)
        end
      else mret (tree, ai_turn)
  end.

(** [play(ai_first, search, first_tree)]. *)
Definition play (fuel : nat) (ai_first : bool)
    (search : Board -> option Node) (first_tree : Node) : IO unit :=
  let tree := first_tree in
  let ai_turn := ai_first in
  let '(ai_msg, human_msg) :=
    if ai_first then ("Player 1: AI", "Player 2: Human")
    else ("Player 2: AI", "Player 1: Human") in
  print ["Board:"];;
  print [__str__ (node_state tree)];;
  print [];;
  '(tree, ai_turn) ← turns fuel search ai_msg human_msg tree ai_turn;
  print ["Game complete."];;
  print ["Winner:"; if ai_turn : bool then "Human" else "AI";
         "(" +:+ match winner (node_state tree) with
                 | Some v => Square_str v
                 | None => "None"
                 end +:+ ")"].

End Interaction.

(** * [place] on the object store

    [place] reads its receiver through references: [self._tiles] is a list
    of row lists, each a separate mutable object.  To state that the
    receiver is left as it was, [place] is embedded a second time over an
    explicit store, where copying and assignment are what they are in
    Python. *)

(** References to objects. *)
Definition loc := positive.

(** The fields of a board object; [_tiles] and [chosen_child] hold
    references. *)
Record BoardObj := mkBoardObj {
  o_tiles : loc;
  o_open_cnt : Z;
  o_MAX_turn : bool;
  o_action : option (Z * Z);
  o_utility : option number;
  o_chosen_child : option loc
}.

(** The objects [place] deals with: a row (a list of squares), a grid (a
    list of references to rows) and a board. *)
Inductive object :=
  | ORow (cells : list Square)
  | OGrid (rows : list loc)
  | OBoard (fields : BoardObj).

Abbreviation heap := (gmap loc object).

(** Computations on the store: [None] is a Python exception (a wrong type
    of object, an index out of range). *)
Definition read_row (h : heap) (l : loc) : option (list Square) :=
  match h !! l with Some (ORow cells) => Some cells | _ => None end.

Definition read_rows (h : heap) (l : loc) : option (list loc) :=
  match h !! l with Some (OGrid rows) => Some rows | _ => None end.

Definition read_fields (h : heap) (l : loc) : option BoardObj :=
  match h !! l with Some (OBoard o) => Some o | _ => None end.

(** A new object. *)
Definition heap_alloc (h : heap) (o : object) : loc * heap :=
  let l := fresh (dom h) in (l, <[l := o]> h).

(** [grid[i][j]] and [grid[i][j] = v], for non-negative [i] and [j]. *)
Definition heap_get (h : heap) (grid : loc) (i j : Z) : option Square :=
  rows ← read_rows h grid;
  r ← rows !! Z.to_nat i;
  cells ← read_row h r;
  cells !! Z.to_nat j.

Definition heap_set (h : heap) (grid : loc) (i j : Z) (v : Square)
    : option heap :=
  rows ← read_rows h grid;
  r ← rows !! Z.to_nat i;
  cells ← read_row h r;
  if decide (Z.to_nat j < length cells)%nat
  then Some (<[r := ORow (<[Z.to_nat j := v]> cells)]> h)
  else None.

(** [self.height] and [self.width], read from the store when used. *)
Definition heap_height (h : heap) (self : loc) : option Z :=
  o ← read_fields h self;
  rows ← read_rows h (o_tiles o);
  Some (Z.of_nat (length rows)).

Definition heap_width (h : heap) (self : loc) : option Z :=
  o ← read_fields h self;
  rows ← read_rows h (o_tiles o);
  r ← rows !! 0%nat;
  cells ← read_row h r;
  Some (Z.of_nat (length cells)).

(** The chained comparison [0 <= i < n], where [n] is read from the store
    only if [0 <= i]. *)
Definition heap_in_range (i : Z) (n : option Z) : option bool :=
  if 0 <=? i then n ← n; Some (i <? n) else Some false.

(** [[list(old_row) for old_row in rows]]: one new row object per row. *)
Fixpoint copy_rows (h : heap) (rows : list loc) : option (list loc * heap) :=
  match rows with
  | [] => Some ([], h)
  | r :: rows' =>
      cells ← read_row h r;
      let '(l, h1) := heap_alloc h (ORow cells) in
      '(ls, h2) ← copy_rows h1 rows';
      Some (l :: ls, h2)
  end.

(** A [for] loop without [break] whose body may raise. *)
Fixpoint for_m {A S : Type} (body : A -> S -> option S) (l : list A) (s : S)
    : option S :=
  match l with
  | [] => Some s
  | x :: l' => s' ← body x s; for_m body l' s'
  end.

(** The blocking loops; the loop state is the store and [new_open_cnt]. *)
Definition heap_block_square (self new_squares : loc) (i j : Z)
    (st : heap * Z) : option (heap * Z) :=
  ok ← heap_in_range j (heap_width st.1 self);
  if ok : bool then
    sq ← heap_get st.1 new_squares i j;
    if bool_decide (sq = OPEN) then
      h' ← heap_set st.1 new_squares i j BLOCKED;
      Some (h', st.2 - 1)
    else Some st
  else Some st.

Definition heap_block_row (self new_squares : loc) (col i : Z)
    (st : heap * Z) : option (heap * Z) :=
  ok ← heap_in_range i (heap_height st.1 self);
  if ok : bool
  then for_m (heap_block_square self new_squares i)
         (range (col - 1) (col + 2)) st
  else Some st.

(** [self.place(row, col)] on the store [h]: the value returned ([None] or a
    reference to the new board) and the store after the call. *)
Definition heap_place (h : heap) (self : loc) (row col : Z)
    : option (option loc * heap) :=
  ok ← heap_in_range row (heap_height h self);
  if negb ok then Some (None, h) else
  ok ← heap_in_range col (heap_width h self);
  if negb ok then Some (None, h) else
  o ← read_fields h self;
  sq ← heap_get h (o_tiles o) row col;
  if negb (bool_decide (sq = OPEN)) then Some (None, h) else
  rows ← read_rows h (o_tiles o);
  '(new_rows, h) ← copy_rows h rows;
  let '(new_squares, h) := heap_alloc h (OGrid new_rows) in
  o ← read_fields h self;
  let new_open_cnt := o_open_cnt o in
  h ← heap_set h new_squares row col (if o_MAX_turn o then MAX else MIN);
  let new_open_cnt := new_open_cnt - 1 in
  '(h, new_open_cnt) ←
    for_m (heap_block_row self new_squares col) (range (row - 1) (row + 2))
      (h, new_open_cnt);
  o ← read_fields h self;
  let '(l, h) :=
    heap_alloc h (OBoard (mkBoardObj new_squares new_open_cnt
                            (negb (o_MAX_turn o)) (Some (row, col)) None None)) in
  Some (Some l, h).

(** The board a reference denotes: the fields of the object, with the rows
    of its grid read from the store. *)
Definition read_grid (h : heap) (grid : loc) : option (list (list Square)) :=
  rows ← read_rows h grid; mapM (read_row h) rows.

Definition read_board (h : heap) (l : loc) : option (ObstructionBoard loc) :=
  o ← read_fields h l;
  t ← read_grid h (o_tiles o);
  Some (mkBoard t (o_open_cnt o) (o_MAX_turn o) (o_action o) (o_utility o)
          (o_chosen_child o)).

(** * Vocabulary of the properties

    Definitions that do not embed code: what the theorems below are stated
    and proved with. *)

(** 1 if [P] holds, else 0. *)
Definition indicator (P : Prop) `{!Decision P} : nat := if decide P then 1%nat else 0%nat.

(** The shape of a grid: the lengths of its rows. *)
Definition shape (t : list (list Square)) : list nat := length <$> t.

(** The nine squares the loops of [place] visit, in the order of the loops. *)
Definition cells_around (row col : Z) : list (Z * Z) :=
  [(row - 1, col - 1); (row - 1, col); (row - 1, col + 1);
   (row, col - 1); (row, col); (row, col + 1);
   (row + 1, col - 1); (row + 1, col); (row + 1, col + 1)].

Section Vocabulary.
Context {N : Type}.
Implicit Types (self s : ObstructionBoard N) (acc : list (list Square) * Z).

(** The body of the blocking loops of [place] at the square [c]. *)
Definition block_cell self acc (c : Z * Z) :=
  if in_range c.1 (height self) then block_square self c.1 c.2 acc else acc.

(** A square the loops turn into [BLOCKED]: in range and [OPEN]. *)
Definition blockable self (t : list (list Square)) (c : Z * Z) : Prop :=
  in_range c.1 (height self) = true /\ in_range c.2 (width self) = true
  /\ get_square t c.1 c.2 = Some OPEN.

Global Instance blockable_dec self t c : Decision (blockable self t c).
Proof. unfold blockable. apply _. Defined.

(** The marker [place] writes: [MAX if self._MAX_turn else MIN]. *)
Definition marker self : Square := if _MAX_turn self then MAX else MIN.

(** The grid and the count the blocking loops of [place] end with. *)
Definition placed self (row col : Z) : list (list Square) * Z :=
  foldl (block_cell self)
    (set_square (_tiles self) row col (marker self), _open_cnt self - 1)
    (cells_around row col).

(** The target of a move that [place] accepts. *)
Definition playable self (row col : Z) : Prop :=
  0 <= row < height self /\ 0 <= col < width self
  /\ get_square (_tiles self) row col = Some OPEN.

Global Instance playable_dec self row col : Decision (playable self row col).
Proof. unfold playable. apply _. Defined.

(** A neighbour that [place(row, col)] newly blocks: a square other than the
    target, inside the board, that was [OPEN]. *)
Definition newly_blocked self (row col : Z) (c : Z * Z) : Prop :=
  c <> (row, col) /\ 0 <= c.1 < height self /\ 0 <= c.2 < width self
  /\ get_square (_tiles self) c.1 c.2 = Some OPEN.

Global Instance newly_blocked_dec self row col c :
  Decision (newly_blocked self row col c).
Proof. unfold newly_blocked. apply _. Defined.

(** A grid is rectangular when every row has the length of the first one;
    then no guarded index of [place] is out of range. *)
Definition rectangular self : Prop :=
  Forall (fun r => Z.of_nat (length r) = width self) (_tiles self).

(** The states of a game: built by [create], then by successful [place]. *)
Inductive reachable : ObstructionBoard N -> Prop :=
  | reachable_create w h s : create w h = Some s -> reachable s
  | reachable_place s row col s' :
      reachable s -> place s row col = Some s' -> reachable s'.

(** The invariant of reachable states. *)
Definition consistent self : Prop :=
  1 <= width self /\ 1 <= height self /\ rectangular self
  /\ _open_cnt self = Z.of_nat (count_square OPEN (_tiles self)).

End Vocabulary.

Section Games.
Context {N : Type}.
Implicit Types (s : ObstructionBoard N).

(** A game: the moves of a list played one after the other with [place];
    [None] as soon as one of them is refused. *)
Fixpoint place_all s (ms : list (Z * Z)) : option (ObstructionBoard N) :=
  match ms with
  | [] => Some s
  | m :: ms' => s' ← place s m.1 m.2; place_all s' ms'
  end.

(** A square that holds the mark of a player. *)
Definition is_mark (v : Square) : Prop := v = MAX \/ v = MIN.

(** Two different squares that touch, by a side or by a corner. *)
Definition touching (a b : Z * Z) : Prop :=
  a <> b /\ b.1 - 1 <= a.1 <= b.1 + 1 /\ b.2 - 1 <= a.2 <= b.2 + 1.

(** The squares of a grid that have non-negative coordinates. *)
Definition square_at (t : list (list Square)) (a : Z * Z) (v : Square) : Prop :=
  0 <= a.1 /\ 0 <= a.2 /\ get_square t a.1 a.2 = Some v.

(** Marks keep their distance: every square that touches a mark is
    [BLOCKED], and every [BLOCKED] square touches a mark. *)
Definition spaced (t : list (list Square)) : Prop :=
  (forall a b v w, touching a b -> square_at t a v -> is_mark v ->
     square_at t b w -> w = BLOCKED)
  /\ (forall b, square_at t b BLOCKED ->
       exists a v, touching a b /\ square_at t a v /\ is_mark v).

(** The marks of the two players are balanced: MAX, who starts, has as many
    marks as MIN when it is MAX's turn, and one more otherwise. *)
Definition balanced s : Prop :=
  count_square MAX (_tiles s)
  = (count_square MIN (_tiles s) + if _MAX_turn s then 0 else 1)%nat.

End Games.

(** The part of a state the search never writes. *)
Definition position (b : Board) : list (list Square) * Z * bool * option (Z * Z) :=
  (_tiles b, _open_cnt b, _MAX_turn b, _action b).

(** The squares in the order the two loops visit them: row 0 to height - 1,
    and column 0 to width - 1 in each row. *)
Definition all_cells (s : Board) : list (Z * Z) :=
  i ← range 0 (height s); (fun j => (i, j)) <$> range 0 (width s).

(** The legal successors of a state, in that order. *)
Definition moves (s : Board) : list Board :=
  omap (fun c => place s c.1 c.2) (all_cells s).

(** The running utility a node starts with. *)
Definition initial_utility (MAX_turn : bool) : number :=
  if MAX_turn then NegInf else Inf.

(** A child node once the parent has read its utility. *)
Definition cached (n : Node) : Node :=
  mkNode (utility (node_state n)).2 (node_children n).

(** What every iteration of the loops preserves. *)
Definition loop_inv (s0 : Board) (st : LoopState) : Prop :=
  position (ls_state st) = position s0 /\ is_Some (_utility (ls_state st)).

(** The running utility after the children with utilities [us]. *)
Definition running_best (mt : bool) (us : list number) : number :=
  foldl (max_or_min mt) (initial_utility mt) us.

(** Finitely many utilities are ordered like integers: [inf] and [-inf] are
    sent to a bound [M] and to [-M] that the integers among them stay
    strictly between.  Statements about their order are then linear
    arithmetic. *)
Definition enc (M : Z) (x : number) : Z :=
  match x with NegInf => - M | Int z => z | Inf => M end.

Definition within (M : Z) (x : number) : Prop :=
  0 < M /\ match x with Int z => - M < z < M | _ => True end.

Fixpoint bound (l : list number) : Z :=
  match l with
  | [] => 1
  | Int z :: l' => Z.abs z + 1 + bound l'
  | _ :: l' => bound l'
  end.

(** [bounded alpha beta v u]: [u] is as good as the exact value [v] for a
    search with window [(alpha, beta)]: equal to [v] inside the window, and on
    the same side as [v] outside it. *)
Definition bounded (alpha beta v u : number) : Prop :=
  (number_ltb alpha v = false -> number_ltb alpha u = false)
  /\ (number_ltb alpha v = true -> number_ltb v beta = true -> u = v)
  /\ (number_ltb v beta = false -> number_ltb u beta = false).

(** While the loop of a pruned node has not stopped, its running utility
    [ba] follows the running utility [bm] of the unpruned loop. *)
Definition tracks (MAX_turn : bool) (alpha beta bm ba : number) : Prop :=
  if MAX_turn
  then (number_ltb alpha bm = false -> number_ltb alpha ba = false)
       /\ (number_ltb alpha bm = true -> ba = bm)
  else (number_ltb bm beta = false -> number_ltb ba beta = false)
       /\ (number_ltb bm beta = true -> ba = bm).

(** After the pruned loop stopped, both running utilities are past the
    bound. *)
Definition broken (MAX_turn : bool) (alpha beta bm ba : number) : Prop :=
  if MAX_turn
  then number_ltb bm beta = false /\ number_ltb ba beta = false
  else number_ltb alpha bm = false /\ number_ltb alpha ba = false.

(** Two results of a loop body, or of a loop, related by [R]. *)
Definition agree {S} (R : S -> S -> Prop) (r r' : option (S * bool)) : Prop :=
  match r, r' with
  | Some (u, b), Some (u', b') => R u u' /\ b = b'
  | None, None => True
  | _, _ => False
  end.

(** The same search data except for the depth. *)
Definition same_window (nd nd' : NodeData) : Prop :=
  match nd, nd' with
  | MMData _, MMData _ => True
  | ABData _ a b, ABData _ a' b' => a = a' /\ b = b'
  | _, _ => False
  end.

(** A depth that cannot reach 0 within [n] levels. *)
Definition never_cut (n : nat) (d : Z) : Prop := d < 0 \/ Z.of_nat n < d.

(** Two loop states that differ in the depth of the search data only. *)
Definition same_loop (d d' : Z) (t t' : LoopState) : Prop :=
  ls_state t = ls_state t' /\ ls_node t = ls_node t'
  /\ ls_total t = ls_total t'
  /\ same_window (ls_data t) (ls_data t')
  /\ depth (ls_data t) = d /\ depth (ls_data t') = d'.

(** The sum of a list of counts. *)
Definition total (l : list Z) : Z := foldr Z.add 0 l.

(** The number of nodes of a tree, and the number of levels below its
    root. *)
Fixpoint tree_size (n : Node) : Z :=
  match n with
  | mkNode _ cs => 1 + foldr (fun c acc => tree_size c + acc) 0 cs
  end.

Fixpoint tree_height (n : Node) : Z :=
  match n with
  | mkNode _ cs => foldr (fun c acc => Z.max (1 + tree_height c) acc) 0 cs
  end.

(** The value of a state by the minimax rule, looking [d] moves ahead: the
    utility the state reads as when [d] is 0 or the state is terminal, and
    otherwise the largest (MAX to move) or smallest (MIN to move) of the
    values of its successors, looking [d - 1] moves ahead.  [fuel] bounds
    the recursion. *)
Fixpoint minimax_value (fuel : nat) (d : Z) (s : Board) : number :=
  match fuel with
  | O => (utility s).1
  | S fuel' =>
      if negb (d =? 0) && negb (done s)
      then running_best (MAX_turn s) (minimax_value fuel' (d - 1) <$> moves s)
      else (utility s).1
  end.

(** The number of states of the game that are at most [d] moves away from
    [s], counted once for every way to reach them. *)
Fixpoint states_within (fuel : nat) (d : Z) (s : Board) : Z :=
  match fuel with
  | O => 1
  | S fuel' =>
      if negb (d =? 0) && negb (done s)
      then 1 + total (states_within fuel' (d - 1) <$> moves s)
      else 1
  end.

(** [forced_win p fuel d s]: the player [p] ([true] for MAX) wins from [s]
    within [d] moves whatever the other player does: [s] is terminal and the
    last move was [p]'s, or [d] is not 0 and [p], to move, has a successor
    with a forced win within [d - 1], or the other player, to move, has only
    such successors.  The utility stands for such a win when it is [inf] for
    MAX and [-inf] for MIN.  [fuel] bounds the recursion. *)
Fixpoint forced_win (p : bool) (fuel : nat) (d : Z) (s : Board) : Prop :=
  match fuel with
  | O => False
  | S fuel' =>
      if done s then _MAX_turn s = negb p
      else if d =? 0 then False
      else if Bool.eqb (_MAX_turn s) p
           then Exists (forced_win p fuel' (d - 1)) (moves s)
           else Forall (forced_win p fuel' (d - 1)) (moves s)
  end.

Definition win_utility (p : bool) : number := if p then Inf else NegInf.

(** A well-formed game tree: the children of a node are, in order, the first
    successors of its state, each with a utility recorded; the child a state
    has chosen is one of the children of its node and has the utility
    recorded for the state; and the children are well-formed. *)
#[warnings="-register-all"]
Inductive game_tree : Node -> Prop :=
  | game_tree_node s cs :
      (position ∘ node_state) <$> cs = position <$> take (length cs) (moves s) ->
      Forall (fun c => is_Some (_utility (node_state c))) cs ->
      (forall c, chosen_child s = Some c ->
         c ∈ cs /\ _utility s = Some (root_utility c)) ->
      Forall game_tree cs ->
      game_tree (mkNode s cs).

(** A tree searched down to the end of the game: every node without
    children holds a terminal state. *)
#[warnings="-register-all"]
Inductive searched_to_end : Node -> Prop :=
  | searched_to_end_node s cs :
      (cs = [] -> done s = true) -> Forall searched_to_end cs ->
      searched_to_end (mkNode s cs).

(** A line of input that names a legal move: two texts around one "/" that
    [int] reads as a row and a column [place] accepts, with the state the
    move leads to. *)
Definition names_move (int : string -> option Z) (state : Board)
    (line : string) (move : Board) : Prop :=
  exists a b row col,
    split "/" line = [a; b] /\ int a = Some row /\ int b = Some col
    /\ place state row col = Some move.

(** The course of a game.  [game_reaches int search tree ai_turn lines tree'
    ai_turn' lines']: from the node [tree], with the AI to move if [ai_turn]
    and the lines [lines] of input left to read, whole turns of the loop of
    [play] lead to the node [tree'] with [ai_turn'] and [lines'].  A turn is
    taken at a state that is not terminal; a turn of the AI goes to the node
    [_play_ai_turn] returns and reads nothing; a turn of the human goes to
    the node [_play_human_turn] returns and leaves the lines it has not
    read, whatever was written before. *)
Inductive game_reaches (int : string -> option Z)
    (search : Board -> option Node)
    : Node -> bool -> list string -> Node -> bool -> list string -> Prop :=
  | game_stays tree ai_turn lines :
      game_reaches int search tree ai_turn lines tree ai_turn lines
  | game_ai_turn tree lines next tree' ai_turn' lines' :
      done (node_state tree) = false ->
      (forall c, _play_ai_turn tree search c = Returns (Some next) c) ->
      game_reaches int search next false lines tree' ai_turn' lines' ->
      game_reaches int search tree true lines tree' ai_turn' lines'
  | game_human_turn tree lines next rest tree' ai_turn' lines' :
      done (node_state tree) = false ->
      (forall out, exists out',
         _play_human_turn int tree (mkConsole lines out)
         = Returns next (mkConsole rest (out ++ out'))) ->
      game_reaches int search next true rest tree' ai_turn' lines' ->
      game_reaches int search tree false lines tree' ai_turn' lines'.

(** The rows [ls] hold the grid [t]. *)
Definition rows_hold (h : heap) (ls : list loc) (t : list (list Square)) : Prop :=
  Forall2 (fun l cells => read_row h l = Some cells) ls t.

(** What the blocking loops keep: the store still extends the initial one,
    and the new grid holds the grid of the pure loops. *)
Definition store_inv (h0 : heap) (g : loc) (ls : list loc)
    (b : ObstructionBoard loc) (st : heap * Z)
    (acc : list (list Square) * Z) : Prop :=
  st.2 = acc.2 /\ h0 ⊆ st.1 /\ read_rows st.1 g = Some ls
  /\ rows_hold st.1 ls acc.1 /\ shape acc.1 = shape (_tiles b).

(** A 2x2 position with MAX to move, used to instantiate the theorems. *)
Definition sample_board : Board :=
  __init__ [[OPEN; OPEN]; [MIN; OPEN]] 3 true None.

(** A 1x1 board before the first move. *)
Definition single_square : Board := __init__ [[OPEN]] 1 true None.

(** A 2x2 board after MAX played (0, 0), and a 1x3 board after MAX played
    (0, 2). *)
Definition finished_board : Board :=
  mkBoard [[MAX; BLOCKED]; [BLOCKED; BLOCKED]] 0 false (Some (0, 0)) None None.

Definition one_left_board : Board :=
  mkBoard [[OPEN; BLOCKED; MAX]] 1 false (Some (0, 2)) None None.

(** A store that holds [sample_board]: two rows, the grid and the board. *)
Definition sample_heap : heap :=
  <[4%positive := OBoard (mkBoardObj 3%positive 3 true None None None)]>
    (<[3%positive := OGrid [1%positive; 2%positive]]>
       (<[2%positive := ORow [MIN; OPEN]]>
          (<[1%positive := ORow [OPEN; OPEN]]> ∅))).

Definition sample_board_obj : ObstructionBoard loc :=
  __init__ [[OPEN; OPEN]; [MIN; OPEN]] 3 true None.

(** A 2x2 board before the first move, and a 1x1 board after MAX played its
    only square. *)
Definition empty_board : Board :=
  mkBoard [[OPEN; OPEN]; [OPEN; OPEN]] 4 true None None None.

Definition won_board : Board :=
  mkBoard [[MAX]] 0 false (Some (0, 0)) None None.

(** A board of one row of five squares: before the first move, after the
    moves (0, 0), (0, 4), after the moves (0, 0), (0, 4), (0, 2), and after
    the same three moves in the order (0, 2), (0, 4), (0, 0). *)
Definition row_board : Board :=
  mkBoard [[OPEN; OPEN; OPEN; OPEN; OPEN]] 5 true None None None.

Definition two_marks_board : Board :=
  mkBoard [[MAX; BLOCKED; OPEN; BLOCKED; MIN]] 1 true (Some (0, 4)) None None.

Definition row_board_a : Board :=
  mkBoard [[MAX; BLOCKED; MAX; BLOCKED; MIN]] 0 false (Some (0, 2)) None None.

Definition row_board_b : Board :=
  mkBoard [[MAX; BLOCKED; MAX; BLOCKED; MIN]] 0 false (Some (0, 0)) None None.

(** The tree of a search of the 1x1 board: the root, which chose its only
    child, and the leaf MAX wins at. *)
Definition won_leaf : Node :=
  mkNode (mkBoard [[MAX]] 0 false (Some (0, 0)) (Some Inf) None) [].

Definition sample_tree : Node :=
  mkNode (mkBoard [[OPEN]] 1 true None (Some Inf) (Some won_leaf)) [won_leaf].

(** A reading of the texts of 0 and 1 as integers, to instantiate [int]. *)
Definition sample_int (s : string) : option Z :=
  if decide (s = "0") then Some 0 else if decide (s = "1") then Some 1 else None.

(** * Properties *)

(** ** Grids *)

Section Grid.
Implicit Types (t : list (list Square)) (r : list Square) (v w x : Square).

Lemma count_row_insert r (j : nat) x v w :
  r !! j = Some x ->
  (length (filter (fun y => y = v) (<[j:=w]> r)) + indicator (x = v)
   = length (filter (fun y => y = v) r) + indicator (w = v))%nat.
Proof.
  revert j. induction r as [|y r IH]; intros [|j] Hj; simplify_eq/=.
  - rewrite !filter_cons. unfold indicator.
    destruct (decide (w = v)), (decide (x = v)); simpl; lia.
  - specialize (IH _ Hj). rewrite !filter_cons.
    destruct (decide (y = v)); simpl; lia.
Qed.

Lemma get_square_Some t i j x :
  get_square t i j = Some x <->
  exists r, t !! Z.to_nat i = Some r /\ r !! Z.to_nat j = Some x.
Proof.
  unfold get_square. destruct (t !! Z.to_nat i) as [r|]; simpl.
  - split; [by exists r | by intros (r' & [= <-] & ?)].
  - split; [done | by intros (r' & ? & ?)].
Qed.

Lemma count_square_set t i j x v w :
  get_square t i j = Some x ->
  (count_square v (set_square t i j w) + indicator (x = v)
   = count_square v t + indicator (w = v))%nat.
Proof.
  rewrite get_square_Some. intros (r & Hr & Hx).
  unfold count_square, set_square.
  revert Hr. generalize (Z.to_nat i) as n.
  induction t as [|r' t IH]; intros [|n] Hn; simplify_eq/=.
  - rewrite !filter_app, !length_app.
    pose proof (count_row_insert r (Z.to_nat j) x v w Hx). lia.
  - specialize (IH _ Hn). rewrite !filter_app, !length_app. lia.
Qed.

Lemma get_square_set t i j i' j' v :
  0 <= i -> 0 <= j -> 0 <= i' -> 0 <= j' ->
  get_square (set_square t i j v) i' j'
  = if decide (i = i' /\ j = j') then (fun _ => v) <$> get_square t i j
    else get_square t i' j'.
Proof.
  intros ? ? ? ?. unfold get_square, set_square.
  destruct (decide (Z.to_nat i = Z.to_nat i')) as [Hi|Hi].
  - rewrite <- Hi, list_lookup_alter_eq.
    destruct (t !! Z.to_nat i) as [r|] eqn:Hr; simpl.
    + destruct (decide (Z.to_nat j = Z.to_nat j')) as [Hj|Hj].
      * rewrite <- Hj. rewrite decide_True by (split; lia).
        destruct (r !! Z.to_nat j) eqn:Hx; simpl.
        -- apply list_lookup_insert_eq. by eapply lookup_lt_Some.
        -- apply lookup_ge_None. rewrite length_insert.
           by apply lookup_ge_None.
      * rewrite decide_False by lia. by apply list_lookup_insert_ne.
    + by case_decide.
  - rewrite list_lookup_alter_ne by done.
    rewrite decide_False by lia. done.
Qed.

Lemma shape_set_square t i j v : shape (set_square t i j v) = shape t.
Proof.
  unfold shape, set_square. generalize (Z.to_nat i) as n.
  induction t as [|r t IH]; intros [|n]; simpl; try done.
  - f_equal. apply length_insert.
  - f_equal. apply IH.
Qed.

End Grid.

(** ** The loops of [place] *)

Section Blocking.
Context {N : Type}.
Implicit Types (self : ObstructionBoard N) (acc : list (list Square) * Z).

Lemma range_three a : range (a - 1) (a + 2) = [a - 1; a; a + 1].
Proof.
  unfold range. replace (a + 2 - (a - 1)) with 3 by lia. simpl.
  f_equal; [lia|]. f_equal; [lia|]. f_equal; lia.
Qed.

Lemma elem_of_range a b x : x ∈ range a b <-> a <= x < b.
Proof.
  unfold range. rewrite list_elem_of_fmap. split.
  - intros (k & -> & Hk). apply elem_of_seq in Hk. lia.
  - intros Hx. exists (Z.to_nat (x - a)). split; [lia|].
    apply elem_of_seq. lia.
Qed.

Lemma in_range_true i n : in_range i n = true <-> 0 <= i < n.
Proof. unfold in_range. rewrite andb_true_iff, Z.leb_le, Z.ltb_lt. done. Qed.

Lemma block_around_cells self row col acc :
  block_around self row col acc = foldl (block_cell self) acc (cells_around row col).
Proof.
  unfold block_around, block_row, cells_around, block_cell.
  rewrite !range_three. simpl.
  destruct (in_range (row - 1) (height self)),
    (in_range row (height self)), (in_range (row + 1) (height self)); done.
Qed.

Lemma elem_of_cells_around row col r c :
  (r, c) ∈ cells_around row col <->
  row - 1 <= r <= row + 1 /\ col - 1 <= c <= col + 1.
Proof.
  unfold cells_around. rewrite !elem_of_cons, elem_of_nil. split.
  - intros H. repeat destruct H as [H|H]; try done; simplify_eq; lia.
  - intros [Hr Hc].
    assert (r = row - 1 \/ r = row \/ r = row + 1) as [->|[->| ->]] by lia;
    assert (c = col - 1 \/ c = col \/ c = col + 1) as [->|[->| ->]] by lia;
    tauto.
Qed.

Lemma NoDup_cells_around row col : NoDup (cells_around row col).
Proof.
  unfold cells_around.
  repeat (apply NoDup_cons; split;
    [intros H; rewrite ?elem_of_cons, ?elem_of_nil in H;
     repeat destruct H as [H|H]; try done; simplify_eq; lia|]).
  apply NoDup_nil_2.
Qed.

Lemma block_cell_eq self acc c :
  block_cell self acc c
  = if decide (blockable self acc.1 c)
    then (set_square acc.1 c.1 c.2 BLOCKED, acc.2 - 1) else acc.
Proof.
  unfold block_cell, block_square.
  destruct (decide (blockable self acc.1 c)) as [(H1 & H2 & H3)|Hn].
  - rewrite H1, H2. simpl. by rewrite bool_decide_eq_true_2.
  - destruct (in_range c.1 (height self)) eqn:E1; [|done].
    destruct (in_range c.2 (width self)) eqn:E2; simpl; [|done].
    case_bool_decide; [|done]. by destruct Hn.
Qed.

Lemma filter_ext_in {A} (P Q : A -> Prop) `{!forall x, Decision (P x)}
    `{!forall x, Decision (Q x)} (l : list A) :
  (forall x, x ∈ l -> P x <-> Q x) -> filter P l = filter Q l.
Proof.
  induction l as [|a l IH]; intros Hpq; [done|].
  rewrite !filter_cons.
  rewrite IH by (intros; apply Hpq; by right).
  assert (Ha : P a <-> Q a) by (apply Hpq; by left).
  destruct (decide (P a)), (decide (Q a)); tauto || done.
Qed.

(** What the blocking loops do to the grid and to the count, square by
    square. *)
Lemma foldl_block_cell self cells acc :
  NoDup cells ->
  let res := foldl (block_cell self) acc cells in
  (forall r c, 0 <= r -> 0 <= c ->
     get_square res.1 r c
     = if decide ((r, c) ∈ cells /\ blockable self acc.1 (r, c))
       then Some BLOCKED else get_square acc.1 r c)
  /\ res.2 = acc.2 - Z.of_nat (length (filter (blockable self acc.1) cells))
  /\ shape res.1 = shape acc.1
  /\ (forall v, v <> OPEN -> v <> BLOCKED ->
        count_square v res.1 = count_square v acc.1)
  /\ (count_square OPEN res.1 + length (filter (blockable self acc.1) cells)
      = count_square OPEN acc.1)%nat.
Proof.
  revert acc. induction cells as [|x cells IH]; intros acc Hnd; cbn [foldl].
  { split; [|repeat split; try done; cbn; lia].
    intros r c _ _. rewrite decide_False; [done|].
    intros [H _]. by apply elem_of_nil in H. }
  cbv zeta.
  apply NoDup_cons in Hnd as [Hx Hnd].
  destruct (IH (block_cell self acc x) Hnd) as (Hget & Hcnt & Hshape & Hkeep & Hopen).
  clear IH. rewrite block_cell_eq in *.
  assert (Hpos : forall c, blockable self acc.1 c -> 0 <= c.1 /\ 0 <= c.2).
  { intros c (H1 & H2 & _). apply in_range_true in H1, H2. lia. }
  destruct (decide (blockable self acc.1 x)) as [Hb|Hb]; simpl in *.
  - destruct (Hpos _ Hb) as [Hx1 Hx2]. destruct x as [xi xj]; simpl in *.
    assert (Hsame : forall c, c ∈ cells ->
              blockable self (set_square acc.1 xi xj BLOCKED) c
              <-> blockable self acc.1 c).
    { intros [ci cj] Hc. unfold blockable; simpl.
      split; intros (H1 & H2 & H3); repeat split; try done;
        pose proof H1 as H1'; pose proof H2 as H2';
        apply in_range_true in H1', H2';
        rewrite get_square_set in * by lia;
        rewrite decide_False in * by (intros [-> ->]; done); done. }
    rewrite (filter_ext_in _ _ _ Hsame) in Hcnt, Hopen.
    rewrite filter_cons_True by done. simpl.
    repeat split.
    + intros r c Hr Hc. rewrite Hget by done.
      rewrite get_square_set by lia.
      destruct (decide (xi = r /\ xj = c)) as [[-> ->]|Hne].
      * rewrite decide_False by (by intros [? _]).
        rewrite decide_True by (split; [by left|done]).
        destruct Hb as (_ & _ & Hb); simpl in Hb. by rewrite Hb.
      * destruct (decide ((r, c) ∈ cells /\ _)) as [[Hin Hbl]|Hn1].
        -- apply Hsame in Hbl; [|done].
           rewrite decide_True; [done|]. split; [by right|done].
        -- destruct (decide ((r, c) ∈ (xi, xj) :: cells /\ _)) as [[Hin Hbl]|Hn2];
             [|done].
           exfalso. apply elem_of_cons in Hin as [Hin|Hin].
           ++ simplify_eq. by apply Hne.
           ++ apply Hn1. split; [done|]. by apply Hsame.
    + lia.
    + by rewrite Hshape, shape_set_square.
    + intros v Hv1 Hv2. rewrite Hkeep by done.
      destruct Hb as (_ & _ & Hb); simpl in Hb.
      pose proof (count_square_set acc.1 xi xj OPEN v BLOCKED Hb) as Hc.
      unfold indicator in Hc.
      rewrite !decide_False in Hc by done. lia.
    + destruct Hb as (_ & _ & Hb); simpl in Hb.
      pose proof (count_square_set acc.1 xi xj OPEN OPEN BLOCKED Hb) as Hc.
      unfold indicator in Hc.
      rewrite decide_True, decide_False in Hc by done. lia.
  - rewrite filter_cons_False by done.
    repeat split; try done.
    intros r c Hr Hc. rewrite Hget by done.
    destruct (decide ((r, c) ∈ cells /\ _)) as [[Hin Hbl]|Hn1].
    + rewrite decide_True; [done|]. split; [by right|done].
    + rewrite decide_False; [done|]. intros [Hin Hbl].
      apply elem_of_cons in Hin as [Hin|Hin]; [by simplify_eq|].
      by apply Hn1.
Qed.

End Blocking.

(** ** [place] and [create] *)

Section Place.
Context {N : Type}.
Implicit Types (self : ObstructionBoard N).

Lemma place_unfold self row col :
  place self row col
  = if decide (playable self row col)
    then Some (__init__ (placed self row col).1 (placed self row col).2
                 (negb (_MAX_turn self)) (Some (row, col)))
    else None.
Proof.
  unfold place, playable, placed.
  rewrite block_around_cells, list_fmap_id.
  destruct (in_range row (height self)) eqn:E1; cbn [negb orb].
  2: { rewrite decide_False; [done|]. intros (H & _).
       apply in_range_true in H. congruence. }
  destruct (in_range col (width self)) eqn:E2; cbn [negb orb].
  2: { rewrite decide_False; [done|]. intros (_ & H & _).
       apply in_range_true in H. congruence. }
  apply in_range_true in E1, E2.
  case_bool_decide; cbn [negb orb].
  - rewrite decide_True by done. fold (marker self).
    by destruct (foldl _ _ _).
  - rewrite decide_False; [done|]. by intros (_ & _ & ?).
Qed.

Lemma place_Some self row col s' :
  place self row col = Some s' <->
  playable self row col
  /\ s' = __init__ (placed self row col).1 (placed self row col).2
            (negb (_MAX_turn self)) (Some (row, col)).
Proof.
  rewrite place_unfold. case_decide.
  - split; [by intros [= <-] | by intros [_ ->]].
  - split; [done | by intros [? _]].
Qed.

Lemma place_None self row col :
  place self row col = None <-> ~ playable self row col.
Proof. rewrite place_unfold. by case_decide. Qed.

Lemma blockable_marked self row col c :
  playable self row col ->
  blockable self (set_square (_tiles self) row col (marker self)) c
  <-> newly_blocked self row col c.
Proof.
  intros (Hr & Hc & Ho). destruct c as [i j].
  unfold blockable, newly_blocked; simpl. rewrite !in_range_true.
  split.
  - intros (Hi & Hj & Hg). rewrite get_square_set in Hg by lia.
    case_decide as Hd.
    + rewrite Ho in Hg. simpl in Hg. unfold marker in Hg.
      by destruct (_MAX_turn self).
    + repeat split; try done; try lia. intros [= -> ->]. by apply Hd.
  - intros (Hne & Hi & Hj & Hg). repeat split; try lia.
    rewrite get_square_set by lia.
    rewrite decide_False; [done|]. intros [-> ->]. by apply Hne.
Qed.

(** The squares of the result of a successful [place], one by one. *)
Lemma placed_get self row col r c :
  playable self row col -> 0 <= r -> 0 <= c ->
  get_square (placed self row col).1 r c
  = if decide ((r, c) = (row, col)) then Some (marker self)
    else if decide ((r, c) ∈ cells_around row col
                    /\ newly_blocked self row col (r, c))
         then Some BLOCKED
         else get_square (_tiles self) r c.
Proof.
  intros Hp Hr Hc. pose proof Hp as (Hrow & Hcol & Ho). unfold placed.
  destruct (foldl_block_cell self (cells_around row col)
              (set_square (_tiles self) row col (marker self),
               _open_cnt self - 1) (NoDup_cells_around row col))
    as (Hget & _). simpl in Hget.
  rewrite Hget by done. clear Hget.
  destruct (decide ((r, c) = (row, col))) as [[= -> ->]|Hne].
  - rewrite decide_False.
    + rewrite get_square_set, decide_True, Ho by (done || lia). done.
    + intros [_ Hb]. apply blockable_marked in Hb; [|done].
      by destruct Hb as [Hb _].
  - destruct (decide ((r, c) ∈ cells_around row col /\ newly_blocked _ _ _ _))
      as [[Hin Hnb]|Hn].
    + rewrite decide_True; [done|]. split; [done|].
      by apply blockable_marked.
    + rewrite decide_False.
      * rewrite get_square_set, decide_False
          by (lia || (intros [-> ->]; by apply Hne)).
        done.
      * intros [Hin Hb]. apply Hn. split; [done|].
        by apply blockable_marked in Hb.
Qed.

Lemma placed_count self row col :
  playable self row col ->
  (placed self row col).2
  = _open_cnt self - 1
    - Z.of_nat (length (filter (newly_blocked self row col)
                          (cells_around row col)))
  /\ shape (placed self row col).1 = shape (_tiles self)
  /\ (count_square OPEN (placed self row col).1 + 1
      + length (filter (newly_blocked self row col) (cells_around row col))
      = count_square OPEN (_tiles self))%nat.
Proof.
  intros Hp. pose proof Hp as (Hrow & Hcol & Ho). unfold placed.
  destruct (foldl_block_cell self (cells_around row col)
              (set_square (_tiles self) row col (marker self),
               _open_cnt self - 1) (NoDup_cells_around row col))
    as (_ & Hcnt & Hshape & _ & Hopen). simpl in *.
  rewrite (filter_ext_in _ (newly_blocked self row col)) in Hcnt, Hopen
    by (intros; by apply blockable_marked).
  repeat split.
  - done.
  - by rewrite Hshape, shape_set_square.
  - pose proof (count_square_set (_tiles self) row col OPEN OPEN (marker self) Ho)
      as Hc.
    unfold indicator in Hc. rewrite decide_True in Hc by done.
    rewrite decide_False in Hc by (unfold marker; by destruct (_MAX_turn self)).
    lia.
Qed.

Lemma width_shape self (t : list (list Square)) :
  shape t = shape (_tiles self) ->
  Z.of_nat (length (default [] (t !! 0%nat))) = width self
  /\ Z.of_nat (length t) = height self.
Proof.
  unfold shape, width, height. intros Hs. split.
  - destruct t as [|r t], (_tiles self) as [|r' t']; simplify_eq/=; congruence.
  - f_equal. by rewrite <- (length_fmap length t), Hs, length_fmap.
Qed.

Lemma place_dims self row col s' :
  place self row col = Some s' ->
  width s' = width self /\ height s' = height self
  /\ shape (_tiles s') = shape (_tiles self).
Proof.
  intros [Hp ->]%place_Some.
  destruct (placed_count self row col Hp) as (_ & Hshape & _).
  destruct (width_shape self _ Hshape) as [Hw Hh].
  by repeat split.
Qed.

(** Every successful [place] removes at least one [OPEN] square. *)
Lemma place_count_open self row col s' :
  place self row col = Some s' ->
  (count_square OPEN (_tiles s') < count_square OPEN (_tiles self))%nat.
Proof.
  intros [Hp ->]%place_Some.
  destruct (placed_count self row col Hp) as (_ & _ & Hopen). simpl. lia.
Qed.

End Place.

(** ** Board states *)

Section BoardTheorems.
Context {N : Type}.
Implicit Types (self s : ObstructionBoard N).

Lemma rectangular_lookup self row col :
  rectangular self -> 0 <= row < height self -> 0 <= col < width self ->
  is_Some (get_square (_tiles self) row col).
Proof.
  unfold rectangular, height, get_square. intros Hrect Hr Hc.
  destruct (lookup_lt_is_Some_2 (_tiles self) (Z.to_nat row)) as [r Hrow]; [lia|].
  rewrite Hrow. simpl. apply lookup_lt_is_Some_2.
  rewrite Forall_forall in Hrect.
  specialize (Hrect r (list_elem_of_lookup_2 _ _ _ Hrow)). lia.
Qed.

(** C3: [place] on an in-range [OPEN] square of a board (a rectangular grid)
    succeeds; the new state has the mover's marker at the target, [BLOCKED]
    on every square of the clipped 3x3 neighbourhood that was [OPEN], every
    other square as before, the open count decremented by one plus the
    number of neighbours newly blocked, the other player to move, the move
    recorded as its action, and the dimensions of the board it came from. *)
Theorem place_succeeds self row col :
  rectangular self ->
  0 <= row < height self -> 0 <= col < width self ->
  get_square (_tiles self) row col = Some OPEN ->
  exists s',
    place self row col = Some s'
    /\ get_square (_tiles s') row col = Some (if MAX_turn self then MAX else MIN)
    /\ (forall r c,
          row - 1 <= r <= row + 1 -> col - 1 <= c <= col + 1 ->
          0 <= r < height self -> 0 <= c < width self -> (r, c) <> (row, col) ->
          get_square (_tiles self) r c = Some OPEN ->
          get_square (_tiles s') r c = Some BLOCKED)
    /\ (forall r c,
          0 <= r -> 0 <= c -> (r, c) <> (row, col) ->
          ~ (row - 1 <= r <= row + 1 /\ col - 1 <= c <= col + 1
             /\ get_square (_tiles self) r c = Some OPEN) ->
          get_square (_tiles s') r c = get_square (_tiles self) r c)
    /\ _open_cnt s'
       = _open_cnt self - 1
         - Z.of_nat (length (filter (newly_blocked self row col)
                               (cells_around row col)))
    /\ MAX_turn s' = negb (MAX_turn self)
    /\ action s' = Some (row, col)
    /\ width s' = width self /\ height s' = height self
    /\ rectangular s'.
Proof.
  intros Hrect Hr Hc Ho. assert (Hp : playable self row col) by done.
  eexists. split; [apply place_Some; split; [done|reflexivity]|].
  destruct (placed_count self row col Hp) as (Hcnt & Hshape & _).
  destruct (width_shape self _ Hshape) as [Hw Hh].
  split; [|split; [|split; [|repeat split; try done]]]; simpl.
  4: { unfold rectangular, width. simpl. rewrite Hw.
       rewrite <- (Forall_fmap length (fun n => Z.of_nat n = width self)).
       fold (shape (placed self row col).1). rewrite Hshape.
       by apply Forall_fmap. }
  - rewrite placed_get, decide_True by (done || lia). done.
  - intros r c Hr1 Hc1 Hr2 Hc2 Hne Hg.
    rewrite placed_get, decide_False by (done || lia).
    rewrite decide_True; [done|].
    split; [by apply elem_of_cells_around|done].
  - intros r c Hr1 Hc1 Hne Hn.
    rewrite placed_get, decide_False by (done || lia).
    rewrite decide_False; [done|].
    intros [Hin (_ & _ & _ & Hg)]. apply elem_of_cells_around in Hin.
    apply Hn. tauto.
Qed.

(** C7: on a rectangular grid the square [place] reads is always defined, so
    [place] never raises; it returns the failure value exactly when the row
    or the column is out of range or the target is not [OPEN]; and repeating
    a successful move on its result fails. *)
Theorem place_fails_iff self row col :
  rectangular self ->
  (0 <= row < height self -> 0 <= col < width self ->
   is_Some (get_square (_tiles self) row col))
  /\ (place self row col = None <->
      ~ 0 <= row < height self \/ ~ 0 <= col < width self
      \/ get_square (_tiles self) row col <> Some OPEN)
  /\ (forall s', place self row col = Some s' -> place s' row col = None).
Proof.
  intros Hrect. split; [by apply rectangular_lookup|]. split.
  - rewrite place_None. unfold playable. split.
    + intros Hn.
      destruct (decide (0 <= row < height self)); [|by left].
      destruct (decide (0 <= col < width self)); [|by right; left].
      right; right. intros Ho. by apply Hn.
    + intros [H|[H|H]] (? & ? & ?); by apply H.
  - intros s' Hs. apply place_None. intros (Hr & Hc & Ho).
    destruct (place_dims _ _ _ _ Hs) as (Hw & Hh & _).
    apply place_Some in Hs as [Hp ->]. simpl in Ho.
    rewrite placed_get, decide_True in Ho by (done || lia).
    unfold marker in Ho. by destruct (_MAX_turn self).
Qed.

End BoardTheorems.

Lemma place_succeeds_witness :
  (rectangular sample_board
   /\ 0 <= 0 < height sample_board /\ 0 <= 0 < width sample_board
   /\ get_square (_tiles sample_board) 0 0 = Some OPEN)
  /\ exists s', place sample_board 0 0 = Some s' /\ _open_cnt s' = 0.
Proof.
  assert (H0 : rectangular sample_board) by repeat constructor.
  assert (H1 : 0 <= 0 < height sample_board) by (vm_compute; split; congruence).
  assert (H2 : 0 <= 0 < width sample_board) by (vm_compute; split; congruence).
  assert (H3 : get_square (_tiles sample_board) 0 0 = Some OPEN) by reflexivity.
  split; [done|].
  destruct (place_succeeds sample_board 0 0 H0 H1 H2 H3)
    as (s' & Hs & _ & _ & _ & Hcnt & _).
  exists s'. split; [exact Hs|]. rewrite Hcnt. reflexivity.
Defined.

Lemma place_fails_iff_witness :
  rectangular sample_board
  /\ (place sample_board 1 0 = None <->
      ~ 0 <= 1 < height sample_board \/ ~ 0 <= 0 < width sample_board
      \/ get_square (_tiles sample_board) 1 0 <> Some OPEN).
Proof.
  assert (H : rectangular sample_board) by repeat constructor.
  split; [exact H|].
  destruct (place_fails_iff sample_board 1 0 H) as (_ & Hiff & _).
  exact Hiff.
Defined.

Section Invariant.
Context {N : Type}.
Implicit Types (self s : ObstructionBoard N) (t : list (list Square)).

Lemma length_range a b : length (range a b) = Z.to_nat (b - a).
Proof. unfold range. by rewrite length_map, length_seq. Qed.

Lemma count_square_total t :
  (count_square OPEN t + count_square BLOCKED t + count_square MAX t
   + count_square MIN t = length (concat t))%nat.
Proof.
  unfold count_square. generalize (concat t) as l.
  induction l as [|x l IH]; [done|].
  rewrite !filter_cons. destruct x; simpl in *; lia.
Qed.

Lemma length_concat_rect t (w : Z) :
  Forall (fun r => Z.of_nat (length r) = w) t ->
  Z.of_nat (length (concat t)) = w * Z.of_nat (length t).
Proof.
  induction 1 as [|r t Hr _ IH]; simpl; [lia|].
  rewrite length_app. lia.
Qed.

Lemma rectangular_shape self s :
  shape (_tiles s) = shape (_tiles self) -> rectangular self -> rectangular s.
Proof.
  intros Hs. destruct (width_shape self _ Hs) as [Hw _].
  unfold rectangular. fold (width s) in Hw. rewrite Hw.
  rewrite <- !(Forall_fmap length (fun n => Z.of_nat n = width self)).
  unfold shape in Hs. by rewrite Hs.
Qed.

Lemma create_Some (w h : Z) s :
  create w h = Some s <->
  1 <= w /\ 1 <= h
  /\ s = __init__ (map (fun _ => replicate (Z.to_nat w) OPEN) (range 0 h))
           (w * h) true None.
Proof.
  unfold create. destruct (w <? 1) eqn:Ew; simpl.
  { apply Z.ltb_lt in Ew. split; [done|lia]. }
  destruct (h <? 1) eqn:Eh; simpl.
  { apply Z.ltb_lt in Eh. split; [done|lia]. }
  apply Z.ltb_ge in Ew, Eh. split; [by intros [= <-]|by intros (_ & _ & ->)].
Qed.

Lemma create_dims (w h : Z) s :
  create w h = Some s -> width s = w /\ height s = h.
Proof.
  intros (Hw & Hh & ->)%create_Some. unfold width, height; simpl.
  rewrite length_map, length_range. split; [|lia].
  unfold range. destruct (Z.to_nat (h - 0)) as [|n] eqn:E; [lia|]. simpl.
  rewrite length_replicate. lia.
Qed.

Lemma count_square_replicate {A} (l : list A) (n : nat) :
  count_square OPEN (map (fun _ => replicate n OPEN) l) = (length l * n)%nat.
Proof.
  unfold count_square. induction l as [|x l IH]; [done|]. simpl.
  rewrite filter_app, length_app, IH. f_equal.
  clear. induction n as [|n IH]; [done|]. simpl. by rewrite IH.
Qed.

Lemma create_consistent (w h : Z) s : create w h = Some s -> consistent s.
Proof.
  intros Hs. destruct (create_dims _ _ _ Hs) as [Hw Hh].
  apply create_Some in Hs as (Hw1 & Hh1 & ->).
  unfold consistent. rewrite Hw, Hh. repeat split; try done.
  - unfold rectangular. rewrite Hw. simpl. apply Forall_fmap, Forall_forall.
    intros x _. simpl. rewrite length_replicate. lia.
  - simpl. rewrite count_square_replicate, length_range. lia.
Qed.

Lemma place_consistent self row col s' :
  place self row col = Some s' -> consistent self -> consistent s'.
Proof.
  intros Hs (Hw & Hh & Hrect & Hcnt).
  destruct (place_dims _ _ _ _ Hs) as (Hw' & Hh' & Hshape).
  unfold consistent. rewrite Hw', Hh'. repeat split; try done.
  - by apply (rectangular_shape self).
  - apply place_Some in Hs as [Hp ->]. simpl.
    destruct (placed_count self row col Hp) as (Hc & _ & Hopen). lia.
Qed.

Lemma reachable_consistent s : reachable s -> consistent s.
Proof.
  induction 1 as [w h s Hs|s row col s' _ IH Hs].
  - by eapply create_consistent.
  - by eapply place_consistent.
Qed.

Lemma place_all_invariant (w h : Z) s ms s' :
  place_all s ms = Some s' ->
  consistent s -> width s = w -> height s = h ->
  consistent s' /\ width s' = w /\ height s' = h.
Proof.
  revert s. induction ms as [|m ms IH]; intros s Hrun Hc Hw Hh.
  { injection Hrun as <-. done. }
  simpl in Hrun. destruct (place s m.1 m.2) as [s1|] eqn:Hs; [|done].
  simpl in Hrun. destruct (place_dims _ _ _ _ Hs) as (Hw1 & Hh1 & _).
  apply (IH s1 Hrun).
  - by eapply place_consistent.
  - by rewrite Hw1.
  - by rewrite Hh1.
Qed.

(** C4: in every state reached from [create w h] by a sequence of successful
    [place] calls, the grid is still [w] wide and [h] high, the numbers of
    [OPEN], [BLOCKED], [MAX] and [MIN] squares add up to [w * h], the width
    times the height given to [create], and [_open_cnt] is the number of
    [OPEN] squares. *)
Theorem reachable_counts (w h : Z) s0 (ms : list (Z * Z)) s :
  create w h = Some s0 -> place_all s0 ms = Some s ->
  width s = w /\ height s = h
  /\ Z.of_nat (count_square OPEN (_tiles s) + count_square BLOCKED (_tiles s)
               + count_square MAX (_tiles s) + count_square MIN (_tiles s))
     = w * h
  /\ _open_cnt s = Z.of_nat (count_square OPEN (_tiles s)).
Proof.
  intros Hs0 Hrun. destruct (create_dims _ _ _ Hs0) as [Hw0 Hh0].
  destruct (place_all_invariant w h s0 ms s Hrun) as ((_ & _ & Hrect & Hcnt) & Hw & Hh);
    [by eapply create_consistent|done|done|].
  split; [done|]. split; [done|]. split; [|done].
  rewrite count_square_total, <- Hw, <- Hh. by apply length_concat_rect.
Qed.

(** C8: [create] fails exactly when the width or the height is below 1, in
    particular for 0x5 and 5x0; otherwise the state it returns has the
    requested dimensions, every square [OPEN], [_open_cnt] equal to
    width * height, MAX to move and no action. *)
Theorem create_spec (w h : Z) :
  (create (N:=N) w h = None <-> w < 1 \/ h < 1)
  /\ create (N:=N) 0 5 = None /\ create (N:=N) 5 0 = None
  /\ (1 <= w -> 1 <= h ->
      exists s, create w h = Some s
        /\ width s = w /\ height s = h
        /\ (forall r c, 0 <= r < h -> 0 <= c < w ->
              get_square (_tiles s) r c = Some OPEN)
        /\ count_square OPEN (_tiles s) = Z.to_nat (w * h)
        /\ _open_cnt s = w * h
        /\ MAX_turn s = true /\ action s = None
        /\ _utility s = None /\ chosen_child s = None).
Proof.
  split; [|split; [done|split; [done|]]].
  - unfold create. destruct (w <? 1) eqn:Ew, (h <? 1) eqn:Eh; simpl;
      rewrite ?Z.ltb_lt, ?Z.ltb_ge in *; split; (done || lia).
  - intros Hw Hh. eexists. split; [by apply create_Some|].
    assert (Hs : create (N:=N) w h = Some _) by (by apply create_Some).
    destruct (create_dims _ _ _ Hs) as [Hw' Hh'].
    split; [done|]. split; [done|]. split; [|repeat split].
    + intros r c Hr Hc. simpl. apply get_square_Some.
      exists (replicate (Z.to_nat w) OPEN). split.
      * rewrite list_lookup_fmap.
        destruct (lookup_lt_is_Some_2 (range 0 h) (Z.to_nat r)) as [x ->]; [|done].
        rewrite length_range. lia.
      * apply lookup_replicate_2. lia.
    + simpl. rewrite count_square_replicate, length_range. lia.
Qed.

End Invariant.

(** ** Loops with [break] *)

Section ForEach.
Context {A S : Type}.
Implicit Types (body : A -> S -> option (S * bool)) (l : list A) (s : S).

Lemma for_each_app body l1 l2 s :
  for_each body (l1 ++ l2) s
  = match for_each body l1 s with
    | None => None
    | Some (s', true) => Some (s', true)
    | Some (s', false) => for_each body l2 s'
    end.
Proof.
  revert s. induction l1 as [|x l1 IH]; intros s; simpl; [done|].
  destruct (body x s) as [[s' [|]]|]; auto.
Qed.

(** An invariant that every iteration keeps holds when the loop ends. *)
Lemma for_each_invariant (Inv : S -> Prop) body l s s' b :
  (forall x t t' c, x ∈ l -> Inv t -> body x t = Some (t', c) -> Inv t') ->
  Inv s -> for_each body l s = Some (s', b) -> Inv s'.
Proof.
  revert s. induction l as [|x l IH]; intros s Hbody Hs Hrun; simpl in Hrun.
  - by simplify_eq.
  - destruct (body x s) as [[t [|]]|] eqn:Hx; simplify_eq.
    + eapply Hbody; [by left|done..].
    + eapply IH; [|by eapply Hbody; [by left|..]|done].
      intros y t1 t2 c Hy. apply Hbody. by right.
Qed.

(** Two bodies that agree under an invariant run the same loop. *)
Lemma for_each_ext (Inv : S -> Prop) body body' l s :
  (forall x t, x ∈ l -> Inv t -> body x t = body' x t) ->
  (forall x t t' c, x ∈ l -> Inv t -> body x t = Some (t', c) -> Inv t') ->
  Inv s -> for_each body l s = for_each body' l s.
Proof.
  revert s. induction l as [|x l IH]; intros s Heq Hinv Hs; simpl; [done|].
  rewrite <- Heq by (done || by left).
  destruct (body x s) as [[t [|]]|] eqn:Hx; try done.
  apply IH.
  - intros y t1 Hy. apply Heq. by right.
  - intros y t1 t2 c Hy. apply Hinv. by right.
  - eapply Hinv; [by left|done..].
Qed.

(** A loop whose iterations all return does return. *)
Lemma for_each_total body l s :
  (forall x t, x ∈ l -> is_Some (body x t)) -> is_Some (for_each body l s).
Proof.
  revert s. induction l as [|x l IH]; intros s Hbody; simpl; [done|].
  destruct (Hbody x s) as [[t [|]] ->]; [by left|done|].
  apply IH. intros y t1 Hy. apply Hbody. by right.
Qed.

(** A loop that returns with one body returns the same with any body that
    returns at least as often. *)
Lemma for_each_mono body body' l s r :
  (forall x t r', body x t = Some r' -> body' x t = Some r') ->
  for_each body l s = Some r -> for_each body' l s = Some r.
Proof.
  intros Hbody. revert s. induction l as [|x l IH]; intros s; simpl; [done|].
  destruct (body x s) as [[t [|]]|] eqn:Hx; [| |done];
    rewrite (Hbody _ _ _ Hx); [done|apply IH].
Qed.

End ForEach.

(** Iterations that do nothing can be dropped: a loop whose body first
    selects with [f] runs over the selected elements only. *)
Lemma for_each_omap {A B S} (f : A -> option B)
    (body : B -> S -> option (S * bool)) (l : list A) (s : S) :
  for_each (fun x t => match f x with
                       | None => Some (t, false)
                       | Some y => body y t
                       end) l s
  = for_each body (omap f l) s.
Proof.
  revert s. induction l as [|x l IH]; intros s; simpl; [done|].
  destruct (f x) as [y|]; simpl; [|apply IH].
  destruct (body y s) as [[t [|]]|]; auto.
Qed.

(** Two nested loops where the inner [break] leaves both are one loop over
    the pairs of indices. *)
Lemma for_each_nested {A B S} (body : A -> B -> S -> option (S * bool))
    (l1 : list A) (l2 : list B) (s : S) :
  for_each (fun i t => for_each (body i) l2 t) l1 s
  = for_each (fun c t => body c.1 c.2 t) (i ← l1; (fun j => (i, j)) <$> l2) s.
Proof.
  revert s. induction l1 as [|i l1 IH]; intros s; simpl; [done|].
  rewrite for_each_app.
  assert (Hin : forall t, for_each (fun c t => body c.1 c.2 t)
                            ((fun j => (i, j)) <$> l2) t
                          = for_each (body i) l2 t).
  { clear. induction l2 as [|j l2 IH]; intros t; simpl; [done|].
    destruct (body i j t) as [[t' [|]]|]; auto. }
  rewrite Hin. destruct (for_each (body i) l2 s) as [[t [|]]|]; auto.
Qed.

(** ** The loops of [_base_minimax] *)

Section Loops.
Variable rec : Board -> NodeData -> option (Node * Z).

Lemma position_dims (a b : Board) :
  position a = position b -> width a = width b /\ height a = height b.
Proof. unfold position, width, height. intros [= -> _ _ _]. done. Qed.

Lemma place_position (a b : Board) i j :
  position a = position b -> place a i j = place b i j.
Proof.
  destruct a, b. unfold position. simpl. intros [= -> -> -> ->]. reflexivity.
Qed.

Lemma moves_position (a b : Board) : position a = position b -> moves a = moves b.
Proof.
  intros H. unfold moves, all_cells. destruct (position_dims _ _ H) as [-> ->].
  generalize (i ← range 0 (height b); (fun j => (i, j)) <$> range 0 (width b)).
  intros l. induction l as [|c l IH]; simpl; [done|].
  rewrite (place_position a b) by done.
  destruct (place b c.1 c.2); [f_equal|]; apply IH.
Qed.

Lemma utility_Some (s : Board) b : _utility s = Some b -> utility s = (b, s).
Proof. unfold utility. by intros ->. Qed.

Lemma utility_position (s : Board) : position (utility s).2 = position s.
Proof. unfold utility. by destruct (_utility s). Qed.

Lemma utility_cached (s : Board) : _utility (utility s).2 = Some (utility s).1.
Proof. unfold utility. by destruct (_utility s) eqn:E. Qed.

(** The effect of one iteration on a successor, given the running utility. *)
Lemma expand_child_Some m st b cn e :
  _utility (ls_state st) = Some b ->
  rec m (child (ls_data st)) = Some (cn, e) ->
  let s := ls_state st in
  let temp := max_or_min (_MAX_turn s) b (root_utility cn) in
  let data' := update_ab (_MAX_turn s) (ls_data st) temp in
  expand_child rec m st
  = Some (if negb (bool_decide (temp = b)) || bool_decide (chosen_child s = None)
          then (mkLoop
                  (mkBoard (_tiles s) (_open_cnt s) (_MAX_turn s) (_action s)
                     (Some temp)
                     (if prune data' && negb (is_infinite temp) then None
                      else Some (cached cn)))
                  (ls_node st ++ [cached cn]) (ls_total st + e) data',
                prune data')
          else (mkLoop s (ls_node st ++ [cached cn]) (ls_total st + e)
                  (ls_data st), false)).
Proof.
  intros Hb Hrec s temp data'. unfold expand_child. rewrite Hrec.
  rewrite (utility_Some _ _ Hb). fold s.
  destruct (utility (node_state cn)) as [u ns] eqn:Hu.
  assert (Hroot : root_utility cn = u) by (unfold root_utility; by rewrite Hu).
  assert (Hcn : cached cn = mkNode ns (node_children cn))
    by (unfold cached; by rewrite Hu).
  subst temp data'. rewrite Hroot, Hcn.
  unfold set_utility, set_chosen_child, MAX_turn, utility; simpl.
  destruct (negb _ || _); [|done].
  destruct (prune _); simpl; [|done].
  by destruct (is_infinite _).
Qed.

Lemma expand_child_inv s0 m st st' br :
  loop_inv s0 st -> expand_child rec m st = Some (st', br) -> loop_inv s0 st'.
Proof.
  intros [Hpos [b Hb]] Hrun.
  destruct (rec m (child (ls_data st))) as [[cn e]|] eqn:Hrec.
  2: { unfold expand_child in Hrun. by rewrite Hrec in Hrun. }
  rewrite (expand_child_Some _ _ _ _ _ Hb Hrec) in Hrun.
  destruct (negb _ || _); injection Hrun as <- <-;
    (split; [exact Hpos | simpl; eauto]).
Qed.

Lemma visit_inv s0 i j st st' br :
  loop_inv s0 st -> visit rec i j st = Some (st', br) -> loop_inv s0 st'.
Proof.
  unfold visit. intros Hinv Hrun.
  destruct (place (ls_state st) i j); [by eapply expand_child_inv|].
  by simplify_eq.
Qed.

(** The two nested loops are one loop over the legal successors. *)
Lemma loops_moves st :
  is_Some (_utility (ls_state st)) ->
  loops rec st = for_each (expand_child rec) (moves (ls_state st)) st.
Proof.
  intros Hu. set (s0 := ls_state st).
  assert (Hinv : loop_inv s0 st) by done.
  unfold loops. fold s0.
  rewrite (for_each_ext (loop_inv s0) _
             (fun i t => for_each (visit rec i) (range 0 (width s0)) t)); try done.
  - rewrite for_each_nested. fold (all_cells s0).
    rewrite (for_each_ext (loop_inv s0) _
               (fun c t => match place s0 c.1 c.2 with
                           | None => Some (t, false)
                           | Some y => expand_child rec y t
                           end)); try done.
    + by rewrite for_each_omap.
    + intros c t _ [Hpos _]. unfold visit.
      by rewrite (place_position _ s0).
    + intros c t t' br _. apply visit_inv.
  - intros i t _ [Hpos _]. by destruct (position_dims _ _ Hpos) as [-> _].
  - intros i t t' br _ Ht. apply for_each_invariant; [|done].
    intros j t1 t2 c _. apply visit_inv.
Qed.

End Loops.

(** [_base_minimax] one level down, over the legal successors. *)
Lemma base_minimax_S fuel s nd :
  _base_minimax (S fuel) s nd
  = if negb (depth nd =? 0) && negb (done s) then
      match for_each (expand_child (_base_minimax fuel)) (moves s)
              (mkLoop (set_utility s (initial_utility (MAX_turn s))) [] 1 nd) with
      | None => None
      | Some (st, _) => Some (mkNode (ls_state st) (ls_node st), ls_total st)
      end
    else Some (mkNode s [], 1).
Proof.
  simpl. unfold _base_minimax_body.
  destruct (negb _ && _); [|done].
  rewrite loops_moves by (simpl; eauto). simpl.
  by rewrite (moves_position _ s).
Qed.

(** C5: a state that is not terminal and whose utility has not been set
    reads as [_evaluate_node], and so does the leaf the search makes of it
    at depth 0: the magnitude is [_open_cnt], replaced by width * height + 1
    when [_open_cnt] is 1, with the sign of the player to move (positive for
    MAX); on a board with at least one square the value for [_open_cnt = 1]
    is neither 1 nor -1. *)
Theorem evaluate_cutoff_leaf (self : Board) :
  done self = false -> _utility self = None ->
  let score := if _open_cnt self =? 1 then width self * height self + 1
               else _open_cnt self in
  (utility self).1 = _evaluate_node self
  /\ (forall fuel nd, depth nd = 0 ->
      _base_minimax (S fuel) self nd = Some (mkNode self [], 1)
      /\ root_utility (mkNode self []) = _evaluate_node self)
  /\ _evaluate_node self = Int (if MAX_turn self then score else - score)
  /\ (1 <= width self -> 1 <= height self -> _open_cnt self = 1 ->
      score = width self * height self + 1
      /\ _evaluate_node self <> Int 1 /\ _evaluate_node self <> Int (-1)).
Proof.
  intros Hd Hu score.
  assert (Hread : (utility self).1 = _evaluate_node self).
  { unfold utility, winner. by rewrite Hu, Hd. }
  split; [done|]. split; [|split].
  - intros fuel nd Hnd. split; [|done].
    rewrite base_minimax_S, Hnd. done.
  - done.
  - intros Hw Hh Ho. unfold _evaluate_node. subst score. rewrite Ho. simpl.
    split; [done|]. destruct (_MAX_turn self); split; intros [= H]; nia.
Qed.

(** ** Termination *)

Lemma elem_of_moves (s m : Board) :
  m ∈ moves s <-> exists i j, 0 <= i < height s /\ 0 <= j < width s
                               /\ place s i j = Some m.
Proof.
  unfold moves, all_cells. rewrite list_elem_of_omap. split.
  - intros ([i j] & Hin & Hp). exists i, j.
    apply list_elem_of_bind in Hin as (i' & Hin & Hi).
    apply list_elem_of_fmap in Hin as (j' & [= -> ->] & Hj).
    apply elem_of_range in Hi, Hj. split; [lia|]. split; [lia|done].
  - intros (i & j & Hi & Hj & Hp). exists (i, j). split; [|done].
    apply list_elem_of_bind. exists i. split; [|apply elem_of_range; lia].
    apply list_elem_of_fmap. exists j. split; [done|apply elem_of_range; lia].
Qed.

Lemma moves_count_open (s m : Board) :
  m ∈ moves s ->
  (count_square OPEN (_tiles m) < count_square OPEN (_tiles s))%nat.
Proof.
  intros (i & j & _ & _ & Hp)%elem_of_moves. by eapply place_count_open.
Qed.

Lemma expand_child_is_Some rec m st :
  is_Some (rec m (child (ls_data st))) -> is_Some (expand_child rec m st).
Proof.
  intros [[cn e] Hrec]. unfold expand_child. rewrite Hrec.
  destruct (utility (ls_state st)), (utility (node_state cn)).
  destruct (negb _ || _); [|done]. by destruct (prune _).
Qed.

Lemma expand_child_mono rec rec' m st r :
  (forall x d r', rec x d = Some r' -> rec' x d = Some r') ->
  expand_child rec m st = Some r -> expand_child rec' m st = Some r.
Proof.
  intros Hrec. unfold expand_child.
  destruct (rec m (child (ls_data st))) as [[cn e]|] eqn:E; [|done].
  by rewrite (Hrec _ _ _ E).
Qed.

(** The recursion returns as soon as the fuel exceeds the number of [OPEN]
    squares, and more fuel does not change what it returns. *)
Lemma base_minimax_total fuel s nd :
  (count_square OPEN (_tiles s) < fuel)%nat -> is_Some (_base_minimax fuel s nd).
Proof.
  revert s nd. induction fuel as [|fuel IH]; intros s nd Hf; [lia|].
  rewrite base_minimax_S. destruct (negb _ && _); [|done].
  destruct (for_each_total (expand_child (_base_minimax fuel)) (moves s)
              (mkLoop (set_utility s (initial_utility (MAX_turn s))) [] 1 nd))
    as [[st b] ->]; [|done].
  intros m t Hm. apply expand_child_is_Some, IH.
  apply moves_count_open in Hm. lia.
Qed.

Lemma base_minimax_mono fuel fuel' s nd r :
  (fuel <= fuel')%nat ->
  _base_minimax fuel s nd = Some r -> _base_minimax fuel' s nd = Some r.
Proof.
  revert fuel' s nd r. induction fuel as [|fuel IH]; intros fuel' s nd r Hf; [done|].
  destruct fuel' as [|fuel']; [lia|]. rewrite !base_minimax_S.
  destruct (negb _ && _); [|done].
  destruct (for_each _ _ _) as [[st b]|] eqn:Hrun; [|done].
  rewrite (for_each_mono _ (expand_child (_base_minimax fuel')) _ _ _
             (fun m t r' => expand_child_mono _ _ m t r'
                (fun x d r'' => IH fuel' x d r'' ltac:(lia))) Hrun).
  done.
Qed.

Lemma base_minimax_enough fuel s nd :
  (count_square OPEN (_tiles s) < fuel)%nat ->
  _base_minimax fuel s nd = _base_minimax (enough_fuel s) s nd.
Proof.
  intros Hf.
  destruct (base_minimax_total (enough_fuel s) s nd) as [r Hr];
    [unfold enough_fuel; lia|].
  rewrite Hr. eapply base_minimax_mono; [|exact Hr]. unfold enough_fuel. lia.
Qed.

(** ** The order on utilities *)

Lemma bound_pos l : 0 < bound l.
Proof. induction l as [|[] l IH]; simpl; lia. Qed.

Lemma within_bound l x : x ∈ l -> within (bound l) x.
Proof.
  intros Hx. split; [apply bound_pos|].
  induction l as [|y l IH]; [by apply elem_of_nil in Hx|].
  pose proof (bound_pos l).
  apply elem_of_cons in Hx as [->|Hx].
  - destruct y; simpl; lia.
  - specialize (IH Hx). destruct x, y; simpl in *; lia.
Qed.

Section Encoding.
Variable M : Z.
Implicit Types (a b : number).

Lemma enc_lt a b :
  within M a -> within M b -> number_ltb a b = true <-> enc M a < enc M b.
Proof. unfold within. destruct a, b; cbn; rewrite ?Z.ltb_lt; intros; split; (done || lia). Qed.

Lemma enc_ge a b :
  within M a -> within M b -> number_ltb a b = false <-> enc M b <= enc M a.
Proof. unfold within. destruct a, b; cbn; rewrite ?Z.ltb_ge; intros; split; (done || lia). Qed.

Lemma enc_inj a b :
  within M a -> within M b -> a = b <-> enc M a = enc M b.
Proof.
  unfold within. destruct a, b; cbn; intros; split; intros ?; simplify_eq;
    try done; lia.
Qed.

Lemma enc_range a : within M a -> 0 < M /\ - M <= enc M a <= M.
Proof. unfold within. destruct a; cbn; lia. Qed.

Lemma enc_max a b :
  within M a -> within M b -> enc M (number_max a b) = Z.max (enc M a) (enc M b).
Proof.
  intros Ha Hb. unfold number_max.
  destruct (number_ltb a b) eqn:E;
    [apply enc_lt in E | apply enc_ge in E]; try done; lia.
Qed.

Lemma enc_min a b :
  within M a -> within M b -> enc M (number_min a b) = Z.min (enc M a) (enc M b).
Proof.
  intros Ha Hb. unfold number_min.
  destruct (number_ltb b a) eqn:E;
    [apply enc_lt in E | apply enc_ge in E]; try done; lia.
Qed.

Lemma within_max a b : within M a -> within M b -> within M (number_max a b).
Proof. unfold number_max. by destruct (number_ltb a b). Qed.

Lemma within_min a b : within M a -> within M b -> within M (number_min a b).
Proof. unfold number_min. by destruct (number_ltb b a). Qed.

Lemma within_NegInf a : within M a -> within M NegInf.
Proof. by intros [? _]. Qed.

Lemma within_Inf a : within M a -> within M Inf.
Proof. by intros [? _]. Qed.

End Encoding.

Lemma update_alpha_max d a b x :
  update_alpha (ABData d a b) x = ABData d (number_max a x) b.
Proof. unfold update_alpha, number_max. by destruct (number_ltb a x). Qed.

Lemma update_beta_min d a b x :
  update_beta (ABData d a b) x = ABData d a (number_min b x).
Proof. unfold update_beta, number_min. by destruct (number_ltb x b). Qed.

(** [number_order l] decides a statement about the order of the utilities
    listed in [l], their maxima and minima, [inf] and [-inf]. *)
Ltac number_order l :=
  let M := fresh "M" in
  set (M := bound l);
  repeat match goal with
    | x : number |- _ =>
        lazymatch goal with
        | _ : within M x |- _ => fail
        | _ => assert (within M x)
                 by (apply within_bound; repeat first [by left | right])
        end
    end;
  repeat match goal with
    | H : ?T |- _ =>
        lazymatch T with
        | within _ _ => fail
        | _ => match type of T with Prop => revert H end
        end
    end;
  rewrite ?negb_true_iff, ?negb_false_iff;
  repeat first
    [ rewrite (enc_lt M) by eauto 10 using within_max, within_min, within_NegInf, within_Inf
    | rewrite (enc_ge M) by eauto 10 using within_max, within_min, within_NegInf, within_Inf
    | rewrite (enc_inj M) by eauto 10 using within_max, within_min, within_NegInf, within_Inf ];
  repeat first
    [ rewrite (enc_max M) by eauto 10 using within_max, within_min, within_NegInf, within_Inf
    | rewrite (enc_min M) by eauto 10 using within_max, within_min, within_NegInf, within_Inf ];
  cbn [enc];
  repeat match goal with H : within _ _ |- _ => apply enc_range in H end;
  lia.

Lemma bounded_refl alpha beta v : bounded alpha beta v v.
Proof. unfold bounded. tauto. Qed.

Lemma bounded_full v u : bounded NegInf Inf v u -> u = v.
Proof. unfold bounded. number_order [v; u]. Qed.

Lemma update_ab_initial mt nd : update_ab mt nd (initial_utility mt) = nd.
Proof. destruct mt, nd as [d|d a b]; try done; by destruct a, b. Qed.

Lemma update_ab_MMData mt d x : update_ab mt (MMData d) x = MMData d.
Proof. by destruct mt. Qed.

Lemma update_ab_ABData mt d a b x :
  update_ab mt (ABData d a b) x
  = if mt then ABData d (number_max a x) b else ABData d a (number_min b x).
Proof. destruct mt; [apply update_alpha_max|apply update_beta_min]. Qed.

Lemma update_ab_again mt nd b u :
  update_ab mt (update_ab mt nd b) (max_or_min mt b u)
  = update_ab mt nd (max_or_min mt b u).
Proof.
  destruct nd as [d|d al be]; [by destruct mt|].
  rewrite !update_ab_ABData. destruct mt; rewrite ?update_alpha_max,
    ?update_beta_min; unfold max_or_min; f_equal.
  - number_order [al; be; b; u].
  - number_order [al; be; b; u].
Qed.

Lemma tracks_initial mt alpha beta :
  tracks mt alpha beta (initial_utility mt) (initial_utility mt).
Proof. destruct mt; unfold tracks; tauto. Qed.

Lemma tracks_bounded mt d alpha beta bm ba :
  prune (update_ab mt (ABData d alpha beta) ba) = false ->
  tracks mt alpha beta bm ba -> bounded alpha beta bm ba.
Proof.
  rewrite update_ab_ABData. unfold tracks, bounded.
  destruct mt; cbn [prune]; unfold number_geb;
    number_order [alpha; beta; bm; ba].
Qed.

Lemma broken_bounded mt alpha beta bm ba :
  number_ltb alpha beta = true ->
  broken mt alpha beta bm ba -> bounded alpha beta bm ba.
Proof.
  unfold broken, bounded. destruct mt; number_order [alpha; beta; bm; ba].
Qed.

Lemma broken_step mt alpha beta bm ba v :
  broken mt alpha beta bm ba -> broken mt alpha beta (max_or_min mt bm v) ba.
Proof.
  unfold broken, max_or_min. destruct mt; number_order [alpha; beta; bm; ba; v].
Qed.

(** One more child: if the value [u] the pruned search returns for it is
    [bounded] by the current window, the running utilities stay related, or
    the pruned loop stops with both past the bound. *)
Lemma tracks_step mt d alpha beta bm ba v u :
  prune (update_ab mt (ABData d alpha beta) ba) = false ->
  tracks mt alpha beta bm ba ->
  (forall a b, update_ab mt (ABData d alpha beta) ba = ABData d a b ->
               bounded a b v u) ->
  if prune (update_ab mt (ABData d alpha beta) (max_or_min mt ba u))
  then broken mt alpha beta (max_or_min mt bm v) (max_or_min mt ba u)
  else tracks mt alpha beta (max_or_min mt bm v) (max_or_min mt ba u).
Proof.
  rewrite !update_ab_ABData. intros Hp Ht Hb.
  destruct mt; specialize (Hb _ _ eq_refl); cbn [prune] in *;
    unfold number_geb, max_or_min, tracks, broken, bounded in *.
  - destruct (number_ltb (number_max alpha (number_max ba u)) beta) eqn:E;
      cbn [negb]; number_order [alpha; beta; bm; ba; v; u].
  - destruct (number_ltb alpha (number_min beta (number_min ba u))) eqn:E;
      cbn [negb]; number_order [alpha; beta; bm; ba; v; u].
Qed.

(** ** One iteration of the loop *)

Section Step.
Variable rec : Board -> NodeData -> option (Node * Z).

(** The iteration on successor [m], when the running utility is [b]. *)
Lemma expand_child_step m st st' br b :
  _utility (ls_state st) = Some b ->
  expand_child rec m st = Some (st', br) ->
  exists cn e,
    rec m (child (ls_data st)) = Some (cn, e)
    /\ let mt := _MAX_turn (ls_state st) in
       let b' := max_or_min mt b (root_utility cn) in
       position (ls_state st') = position (ls_state st)
       /\ _utility (ls_state st') = Some b'
       /\ ls_node st' = ls_node st ++ [cached cn]
       /\ ls_total st' = ls_total st + e
       /\ ((ls_data st' = update_ab mt (ls_data st) b'
            /\ br = prune (ls_data st')
            /\ chosen_child (ls_state st')
               = if br && negb (is_infinite b') then None else Some (cached cn))
           \/ (b' = b /\ chosen_child (ls_state st) <> None
               /\ ls_data st' = ls_data st /\ br = false
               /\ chosen_child (ls_state st') = chosen_child (ls_state st))).
Proof.
  intros Hb Hrun.
  destruct (rec m (child (ls_data st))) as [[cn e]|] eqn:Hrec.
  2: { unfold expand_child in Hrun. by rewrite Hrec in Hrun. }
  exists cn, e. split; [done|].
  rewrite (expand_child_Some _ _ _ _ _ _ Hb Hrec) in Hrun.
  destruct (negb (bool_decide _)) eqn:E1; simpl in Hrun.
  - injection Hrun as <- <-. simpl. repeat split. left. done.
  - apply negb_false_iff, bool_decide_eq_true in E1.
    case_bool_decide as E2; injection Hrun as <- <-; simpl.
    + repeat split. left. done.
    + repeat split; try by rewrite E1. right. done.
Qed.

(** The same, when the search data is the data the node started with,
    updated with the running utility. *)
Lemma expand_child_synced m st st' br b nd0 :
  _utility (ls_state st) = Some b ->
  ls_data st = update_ab (_MAX_turn (ls_state st)) nd0 b ->
  expand_child rec m st = Some (st', br) ->
  exists cn e,
    rec m (child (ls_data st)) = Some (cn, e)
    /\ let mt := _MAX_turn (ls_state st) in
       let b' := max_or_min mt b (root_utility cn) in
       position (ls_state st') = position (ls_state st)
       /\ _utility (ls_state st') = Some b'
       /\ ls_node st' = ls_node st ++ [cached cn]
       /\ ls_total st' = ls_total st + e
       /\ ls_data st' = update_ab mt nd0 b'
       /\ (br = true -> prune (ls_data st') = true)
       /\ (prune (ls_data st) = false -> br = prune (ls_data st')).
Proof.
  intros Hb Hd Hrun.
  destruct (expand_child_step _ _ _ _ _ Hb Hrun)
    as (cn & e & Hrec & Hpos & Hu & Hn & Ht & Hcase).
  exists cn, e. split; [done|]. cbv zeta in *.
  repeat split; try done.
  - destruct Hcase as [(-> & _)|(Hbb & _ & -> & _)].
    + by rewrite Hd, update_ab_again.
    + by rewrite Hbb, Hd.
  - intros ->. by destruct Hcase as [(_ & <- & _)|(_ & _ & _ & ? & _)].
  - intros Hp. destruct Hcase as [(_ & -> & _)|(_ & _ & -> & -> & _)]; [done|].
    by rewrite Hp.
Qed.

End Step.

Lemma position_MAX_turn (a b : Board) :
  position a = position b -> _MAX_turn a = _MAX_turn b.
Proof. unfold position. by intros [= _ _ -> _]. Qed.

(** Every call counts at least the state it is given. *)
Lemma base_minimax_count_pos fuel s nd n c :
  _base_minimax fuel s nd = Some (n, c) -> 1 <= c.
Proof.
  revert s nd n c. induction fuel as [|fuel IH]; intros s nd n c; [done|].
  rewrite base_minimax_S. destruct (negb _ && _); [|intros [= _ <-]; lia].
  destruct (for_each _ _ _) as [[st b]|] eqn:Hrun; [|done].
  intros [= _ <-].
  apply (for_each_invariant (fun t => 1 <= ls_total t)) in Hrun; [done| |simpl; lia].
  intros m t t' br _ Ht. unfold expand_child.
  destruct (_base_minimax fuel m _) as [[cn e]|] eqn:Hrec; [|done].
  apply IH in Hrec.
  destruct (utility (ls_state t)), (utility (node_state cn)).
  destruct (negb _ || _); [destruct (prune _)|]; intros [= <- _]; simpl; lia.
Qed.

(** ** Pruning preserves the value *)

Section Pruning.
Variable rec : Board -> NodeData -> option (Node * Z).

(** What is assumed of the recursive calls: the induction hypothesis. *)
Hypothesis rec_bounded : forall m d alpha beta nm cm na ca,
  number_ltb alpha beta = true ->
  rec m (MMData d) = Some (nm, cm) ->
  rec m (ABData d alpha beta) = Some (na, ca) ->
  bounded alpha beta (root_utility nm) (root_utility na) /\ 1 <= ca <= cm.

Hypothesis rec_count_pos : forall m nd n c, rec m nd = Some (n, c) -> 1 <= c.

Variables (mt : bool) (d : Z) (alpha beta : number).
Hypothesis window : number_ltb alpha beta = true.

(** Once the pruned loop has stopped, the unpruned one goes on alone. *)
Lemma unpruned_alone ba l stm stm' br bm :
  ls_data stm = MMData d -> _utility (ls_state stm) = Some bm ->
  _MAX_turn (ls_state stm) = mt -> broken mt alpha beta bm ba ->
  for_each (expand_child rec) l stm = Some (stm', br) ->
  exists bm', _utility (ls_state stm') = Some bm'
              /\ broken mt alpha beta bm' ba
              /\ ls_total stm <= ls_total stm'.
Proof.
  intros Hd Hu Hmt Hbr Hrun.
  apply (for_each_invariant
           (fun t => ls_data t = MMData d /\ _MAX_turn (ls_state t) = mt
                     /\ ls_total stm <= ls_total t
                     /\ exists b, _utility (ls_state t) = Some b
                                  /\ broken mt alpha beta b ba)) in Hrun.
  - destruct Hrun as (_ & _ & Ht & b & Hb & Hbroken). eauto.
  - intros m t t' c _ (Hd' & Hmt' & Ht & b & Hb & Hbroken) Hstep.
    destruct (expand_child_synced rec m t t' c b (MMData d) Hb) as
      (cn & e & Hrec & Hpos & Hu' & _ & Ht' & Hd'' & _); [|done|].
    { by rewrite update_ab_MMData. }
    cbv zeta in *. rewrite update_ab_MMData in Hd''.
    apply rec_count_pos in Hrec. rewrite Hmt' in *.
    split; [done|]. split; [by rewrite (position_MAX_turn _ _ Hpos)|].
    split; [lia|]. eexists. split; [done|]. by apply broken_step.
  - split; [done|]. split; [done|]. split; [lia|]. eauto.
Qed.

(** The two loops side by side. *)
Lemma pruned_loop l : forall stm sta stm' sta' brm bra bm ba,
  ls_data stm = MMData d ->
  ls_data sta = update_ab mt (ABData d alpha beta) ba ->
  prune (ls_data sta) = false ->
  _utility (ls_state stm) = Some bm -> _utility (ls_state sta) = Some ba ->
  _MAX_turn (ls_state stm) = mt -> _MAX_turn (ls_state sta) = mt ->
  tracks mt alpha beta bm ba ->
  1 <= ls_total sta <= ls_total stm ->
  for_each (expand_child rec) l stm = Some (stm', brm) ->
  for_each (expand_child rec) l sta = Some (sta', bra) ->
  exists bm' ba',
    _utility (ls_state stm') = Some bm' /\ _utility (ls_state sta') = Some ba'
    /\ bounded alpha beta bm' ba'
    /\ 1 <= ls_total sta' <= ls_total stm'.
Proof.
  induction l as [|m l IH];
    intros stm sta stm' sta' brm bra bm ba Hdm Hda Hp Hum Hua Hmm Hma Htr Htot;
    simpl; intros Hrm Hra.
  { injection Hrm as <- <-. injection Hra as <- <-. exists bm, ba.
    split; [done|]. split; [done|]. split; [|done].
    eapply tracks_bounded; [|done]. by rewrite <- Hda. }
  destruct (expand_child rec m stm) as [[stm1 b1]|] eqn:Em; [|done].
  destruct (expand_child rec m sta) as [[sta1 b2]|] eqn:Ea; [|done].
  destruct (expand_child_synced rec m stm stm1 b1 bm (MMData d) Hum)
    as (cnm & em & Hrecm & Hposm & Hum1 & _ & Htm & Hdm1 & _ & Hb1);
    [by rewrite update_ab_MMData|done|].
  destruct (expand_child_synced rec m sta sta1 b2 ba (ABData d alpha beta) Hua)
    as (cna & ea & Hreca & Hposa & Hua1 & _ & Hta & Hda1 & _ & Hb2);
    [by rewrite Hma|done|].
  cbv zeta in *. rewrite Hmm in *. rewrite Hma in *.
  rewrite update_ab_MMData in Hdm1.
  rewrite Hdm in Hb1, Hrecm. rewrite Hdm1 in Hb1. specialize (Hb1 eq_refl).
  simpl in Hb1. subst b1.
  specialize (Hb2 Hp).
  set (v := root_utility cnm) in *. set (u := root_utility cna) in *.
  assert (Hstep : forall a b, update_ab mt (ABData d alpha beta) ba = ABData d a b ->
                              bounded a b v u /\ 1 <= ea <= em).
  { intros a b Hab. rewrite Hda, Hab in Hreca, Hp. simpl in Hreca, Hp.
    apply negb_false_iff in Hp. by eapply rec_bounded. }
  assert (Hcnt : 1 <= ea <= em).
  { rewrite update_ab_ABData in Hstep. destruct mt; by eapply Hstep. }
  pose proof (tracks_step mt d alpha beta bm ba v u) as Hts.
  rewrite <- Hda in Hts. specialize (Hts Hp Htr).
  rewrite Hda in Hts. specialize (Hts (fun a b H => proj1 (Hstep a b H))).
  rewrite <- Hda1, <- Hb2 in Hts.
  destruct b2.
  - injection Hra as <- <-.
    destruct (unpruned_alone _ l stm1 stm' brm _ Hdm1 Hum1
                (eq_trans (position_MAX_turn _ _ Hposm) Hmm) Hts Hrm)
      as (bm' & Hbm' & Hbroken & Htot').
    exists bm', (max_or_min mt ba u).
    split; [done|]. split; [done|]. split; [by eapply broken_bounded|lia].
  - eapply (IH stm1 sta1); try done.
    + by rewrite (position_MAX_turn _ _ Hposm).
    + by rewrite (position_MAX_turn _ _ Hposa).
    + lia.
Qed.

End Pruning.

(** The pruned search, for any window, returns a value [bounded] by the
    window around the value of the unpruned search, and expands no more
    states. *)
Lemma pruning_bounded fuel : forall s d alpha beta nm cm na ca,
  number_ltb alpha beta = true ->
  _base_minimax fuel s (MMData d) = Some (nm, cm) ->
  _base_minimax fuel s (ABData d alpha beta) = Some (na, ca) ->
  bounded alpha beta (root_utility nm) (root_utility na) /\ 1 <= ca <= cm.
Proof.
  induction fuel as [|fuel IH]; intros s d alpha beta nm cm na ca Hw; [done|].
  rewrite !base_minimax_S. simpl depth.
  destruct (negb _ && _).
  2: { intros [= <- <-] [= <- <-]. split; [apply bounded_refl|lia]. }
  destruct (for_each _ _ _) as [[stm brm]|] eqn:Hrm; [|done].
  destruct (for_each _ _ {| ls_data := ABData _ _ _ |}) as [[sta bra]|] eqn:Hra;
    [|done].
  intros [= <- <-] [= <- <-].
  destruct (pruned_loop (_base_minimax fuel) IH
              (base_minimax_count_pos fuel) (MAX_turn s) d alpha beta Hw
              (moves s)
              (mkLoop (set_utility s (initial_utility (MAX_turn s))) [] 1
                 (MMData d))
              (mkLoop (set_utility s (initial_utility (MAX_turn s))) [] 1
                 (ABData d alpha beta))
              stm sta brm bra
              (initial_utility (MAX_turn s)) (initial_utility (MAX_turn s))
              eq_refl (eq_sym (update_ab_initial _ _))
              ltac:(simpl; by apply negb_false_iff) eq_refl eq_refl eq_refl
              eq_refl (tracks_initial _ _ _) ltac:(simpl; lia) Hrm Hra)
    as (bm & ba & Hbm & Hba & Hb & Hc).
  unfold root_utility; simpl.
  by rewrite (utility_Some _ _ Hbm), (utility_Some _ _ Hba).
Qed.

(** Both entry points return. *)
Lemma search_returns (s : Board) (d : Z) :
  exists tm cm ta ca,
    minimax s d = Some (tm, cm) /\ minimax_ab s d = Some (ta, ca).
Proof.
  unfold minimax, minimax_ab.
  destruct (base_minimax_total (enough_fuel s) s (MMData d)) as [[tm cm] Hm];
    [unfold enough_fuel; lia|].
  destruct (base_minimax_total (enough_fuel s) s (ABData d NegInf Inf))
    as [[ta ca] Ha]; [unfold enough_fuel; lia|].
  by exists tm, cm, ta, ca.
Qed.

(** C1: for every state and depth, [minimax_ab] returns the same root
    utility as [minimax], and its count of expanded states is at most that
    of [minimax]. *)
Theorem pruning_preserves_value (s : Board) (d : Z) :
  exists tm cm ta ca,
    minimax s d = Some (tm, cm) /\ minimax_ab s d = Some (ta, ca)
    /\ root_utility ta = root_utility tm /\ ca <= cm.
Proof.
  unfold minimax, minimax_ab.
  destruct (base_minimax_total (enough_fuel s) s (MMData d)) as [[tm cm] Hm];
    [unfold enough_fuel; lia|].
  destruct (base_minimax_total (enough_fuel s) s (ABData d NegInf Inf))
    as [[ta ca] Ha]; [unfold enough_fuel; lia|].
  exists tm, cm, ta, ca. split; [done|]. split; [done|].
  destruct (pruning_bounded _ s d NegInf Inf tm cm ta ca eq_refl Hm Ha)
    as [Hb Hc].
  split; [by apply bounded_full|lia].
Qed.

(** ** Depths that never reach 0 *)

Lemma for_each_agree {A S} (R : S -> S -> Prop)
    (body body' : A -> S -> option (S * bool)) (l : list A) :
  (forall x t t', x ∈ l -> R t t' -> agree R (body x t) (body' x t')) ->
  forall s s', R s s' -> agree R (for_each body l s) (for_each body' l s').
Proof.
  induction l as [|x l IH]; intros Hbody s s' Hs; simpl; [done|].
  pose proof (Hbody x s s' ltac:(by left) Hs) as Hx. unfold agree in Hx.
  destruct (body x s) as [[t [|]]|], (body' x s') as [[t' [|]]|];
    try done; try (by destruct Hx).
  apply IH; [|by destruct Hx]. intros y u u' Hy. apply Hbody. by right.
Qed.

Lemma same_window_child nd nd' : same_window nd nd' -> same_window (child nd) (child nd').
Proof. by destruct nd, nd'. Qed.

Lemma same_window_update mt nd nd' x :
  same_window nd nd' ->
  same_window (update_ab mt nd x) (update_ab mt nd' x)
  /\ depth (update_ab mt nd x) = depth nd
  /\ depth (update_ab mt nd' x) = depth nd'
  /\ prune (update_ab mt nd x) = prune (update_ab mt nd' x).
Proof.
  destruct nd as [d|d a b], nd' as [d'|d' a' b']; try done.
  - by destruct mt.
  - intros [<- <-]. rewrite !update_ab_ABData. by destruct mt.
Qed.

Lemma same_window_prune nd nd' : same_window nd nd' -> prune nd = prune nd'.
Proof. destruct nd, nd'; try done. by intros [<- <-]. Qed.

Lemma depth_child nd : depth (child nd) = depth nd - 1.
Proof. by destruct nd. Qed.

Lemma expand_child_agree rec m t t' d d' :
  same_loop d d' t t' ->
  rec m (child (ls_data t)) = rec m (child (ls_data t')) ->
  agree (same_loop d d') (expand_child rec m t) (expand_child rec m t').
Proof.
  destruct t as [st no to da], t' as [st' no' to' da']. unfold same_loop.
  simpl. intros (<- & <- & <- & Hw & Hd & Hd') Hrec.
  unfold expand_child. simpl. rewrite <- Hrec.
  destruct (rec m (child da)) as [[cn e]|]; [|done].
  destruct (utility st) as [us st1], (utility (node_state cn)) as [uc cs].
  set (temp := max_or_min (MAX_turn st1) us uc).
  destruct (same_window_update (_MAX_turn st1) _ _ temp Hw)
    as (Hw1 & Hw2 & Hw3 & Hw4).
  destruct (negb _ || _); [|simpl; by repeat split].
  rewrite <- Hw4. destruct (prune _); simpl; repeat split; congruence.
Qed.

(** Below a state with at most [n] open squares, two depths that cannot
    reach 0 within [n] levels give the same search. *)
Lemma depth_irrelevant fuel : forall (s : Board) nd nd' (n : nat),
  (count_square OPEN (_tiles s) <= n)%nat ->
  same_window nd nd' -> never_cut n (depth nd) -> never_cut n (depth nd') ->
  _base_minimax fuel s nd = _base_minimax fuel s nd'.
Proof.
  induction fuel as [|fuel IH]; intros s nd nd' n Hn Hw Hd Hd'; [done|].
  rewrite !base_minimax_S.
  replace (depth nd =? 0) with false by (unfold never_cut in Hd; lia).
  replace (depth nd' =? 0) with false by (unfold never_cut in Hd'; lia).
  destruct (negb false && negb (done s)); [|done].
  pose proof (for_each_agree (same_loop (depth nd) (depth nd'))
                (expand_child (_base_minimax fuel))
                (expand_child (_base_minimax fuel)) (moves s)) as Hloop.
  specialize (Hloop) with
    (s := mkLoop (set_utility s (initial_utility (MAX_turn s))) [] 1 nd)
    (s' := mkLoop (set_utility s (initial_utility (MAX_turn s))) [] 1 nd').
  assert (Hrun : agree (same_loop (depth nd) (depth nd'))
            (for_each (expand_child (_base_minimax fuel)) (moves s)
               (mkLoop (set_utility s (initial_utility (MAX_turn s))) [] 1 nd))
            (for_each (expand_child (_base_minimax fuel)) (moves s)
               (mkLoop (set_utility s (initial_utility (MAX_turn s))) [] 1 nd'))).
  { apply Hloop; [|by repeat split].
    intros m t t' Hm Ht. apply expand_child_agree; [done|].
    destruct Ht as (_ & _ & _ & Hwin & Hdt & Hdt').
    apply moves_count_open in Hm.
    apply (IH m _ _ (pred n)); [lia|by apply same_window_child|..];
      rewrite depth_child; unfold never_cut in *; lia. }
  unfold agree in Hrun.
  destruct (for_each _ _ {| ls_data := nd |}) as [[t b]|],
    (for_each _ _ {| ls_data := nd' |}) as [[t' b']|]; try done.
  by destruct Hrun as [(-> & -> & -> & _) _].
Qed.

(** ** The children a node explores *)

Lemma base_minimax_position fuel s nd n c :
  _base_minimax fuel s nd = Some (n, c) -> position (node_state n) = position s.
Proof.
  destruct fuel as [|fuel]; [done|]. rewrite base_minimax_S.
  destruct (negb _ && _); [|by intros [= <- _]].
  destruct (for_each _ _ _) as [[st b]|] eqn:Hrun; [|done]. intros [= <- _].
  apply (for_each_invariant (loop_inv (set_utility s (initial_utility (MAX_turn s)))))
    in Hrun as [Hpos _]; [done| |by split; simpl; eauto].
  intros m t t' br _. apply expand_child_inv.
Qed.

Lemma root_utility_cached n : root_utility (cached n) = root_utility n.
Proof.
  unfold root_utility, cached. simpl.
  by rewrite (utility_Some _ _ (utility_cached _)).
Qed.

Lemma position_cached n : position (node_state (cached n)) = position (node_state n).
Proof. apply utility_position. Qed.

Section Explored.
Variable rec : Board -> NodeData -> option (Node * Z).
Hypothesis rec_position : forall m nd n c,
  rec m nd = Some (n, c) -> position (node_state n) = position m.
Variables (mt : bool) (nd0 : NodeData).

(** The loop explores a prefix of the successors it is given; it stops
    before the end only when the search data signals a prune, and the
    search data signalled none before the last child explored. *)
Lemma explored_loop l : forall st st' br us,
  _MAX_turn (ls_state st) = mt ->
  _utility (ls_state st) = Some (running_best mt us) ->
  ls_data st = update_ab mt nd0 (running_best mt us) ->
  for_each (expand_child rec) l st = Some (st', br) ->
  exists cs,
    ls_node st' = ls_node st ++ cs
    /\ (length cs <= length l)%nat
    /\ (position ∘ node_state) <$> cs = position <$> take (length cs) l
    /\ _utility (ls_state st')
       = Some (running_best mt (us ++ (root_utility <$> cs)))
    /\ ls_data st'
       = update_ab mt nd0 (running_best mt (us ++ (root_utility <$> cs)))
    /\ ((length cs < length l)%nat -> prune (ls_data st') = true)
    /\ (prune (ls_data st) = false ->
        forall j, (j < length cs)%nat ->
          prune (update_ab mt nd0
                   (running_best mt (us ++ take j (root_utility <$> cs))))
          = false).
Proof.
  induction l as [|m l IH]; intros st st' br us Hmt Hu Hd; simpl; intros Hrun.
  { injection Hrun as <- <-. exists []. simpl. rewrite !app_nil_r.
    repeat split; try done; try lia. }
  destruct (expand_child rec m st) as [[st1 b1]|] eqn:Hstep; [|done].
  assert (Hd0 : ls_data st = update_ab (_MAX_turn (ls_state st)) nd0
                                (running_best mt us)) by (by rewrite Hmt).
  destruct (expand_child_synced rec m st st1 b1 _ nd0 Hu Hd0 Hstep)
    as (cn & e & Hrec & Hpos & Hu1 & Hn1 & _ & Hd1 & Hbr & Hpr).
  cbv zeta in *. rewrite Hmt in *.
  assert (Hbest : max_or_min mt (running_best mt us) (root_utility cn)
                  = running_best mt (us ++ [root_utility cn])).
  { unfold running_best. by rewrite foldl_app. }
  rewrite Hbest in Hu1, Hd1.
  assert (Hcn : position (node_state (cached cn)) = position m).
  { rewrite position_cached. by eapply rec_position. }
  assert (Hzero : prune (ls_data st) = false ->
            prune (update_ab mt nd0 (running_best mt (us ++ []))) = false).
  { rewrite app_nil_r. by rewrite <- Hd. }
  destruct b1.
  - injection Hrun as <- <-. exists [cached cn]. csimpl. csimpl in Hcn.
    rewrite root_utility_cached, Hcn.
    repeat split; try done; try lia.
    + intros _. by apply Hbr.
    + intros Hp [|j] Hj; [by apply Hzero|lia].
  - destruct (IH st1 st' br (us ++ [root_utility cn])) as
      (cs & Hcs & Hlen & Hposs & Hu' & Hd' & Hstop & Hgo); try done.
    { by rewrite (position_MAX_turn _ _ Hpos). }
    exists (cached cn :: cs). csimpl. csimpl in Hcn.
    rewrite root_utility_cached, Hcn, Hposs.
    rewrite <- !app_assoc in Hu', Hd'. simpl in Hu', Hd'.
    repeat split; try done; try lia.
    + by rewrite Hcs, Hn1, <- app_assoc.
    + intros Hl. apply Hstop. lia.
    + intros Hp [|j] Hj; [by apply Hzero|]. csimpl.
      specialize (Hgo ltac:(by rewrite <- (Hpr Hp)) j ltac:(lia)).
      by rewrite <- app_assoc in Hgo.
Qed.

End Explored.

(** What [_base_minimax] explores below a state it expands. *)
Lemma base_minimax_explored fuel (s : Board) nd node cnt :
  _base_minimax fuel s nd = Some (node, cnt) ->
  depth nd <> 0 -> done s = false ->
  let mt := MAX_turn s in
  let children := node_children node in
  let context_after (k : nat) :=
    update_ab mt nd (running_best mt (take k (root_utility <$> children))) in
  (position ∘ node_state) <$> children
  = position <$> take (length children) (moves s)
  /\ (length children <= length (moves s))%nat
  /\ ((length children < length (moves s))%nat ->
      prune (context_after (length children)) = true)
  /\ (prune nd = false ->
      forall k, (k < length children)%nat -> prune (context_after k) = false)
  /\ root_utility node = running_best mt (root_utility <$> children).
Proof.
  destruct fuel as [|fuel]; [done|]. rewrite base_minimax_S.
  intros Hrun Hd Hdone. rewrite Hdone in Hrun.
  replace (depth nd =? 0) with false in Hrun by lia. simpl in Hrun.
  destruct (for_each _ _ _) as [[st b]|] eqn:Hloop; [|done].
  injection Hrun as <- <-.
  destruct (explored_loop (_base_minimax fuel) (base_minimax_position fuel)
              (MAX_turn s) nd (moves s)
              (mkLoop (set_utility s (initial_utility (MAX_turn s))) [] 1 nd)
              st b [] eq_refl eq_refl
              (eq_sym (update_ab_initial _ _)) Hloop)
    as (cs & Hcs & Hlen & Hpos & Hu & Hdata & Hstop & Hgo).
  cbn [ls_node ls_data app] in Hcs, Hu, Hdata, Hgo.
  intros mt children context_after. subst children context_after mt.
  cbn [node_children]. rewrite Hcs.
  split; [done|]. split; [done|]. split; [|split; [done|]].
  - intros Hl. rewrite take_ge by (by rewrite length_fmap).
    rewrite <- Hdata. by apply Hstop.
  - unfold root_utility at 1. cbn [node_state].
    by rewrite (utility_Some _ _ Hu).
Qed.

(** ** The choice at the root *)

Section Chosen.
Variable rec : Board -> NodeData -> option (Node * Z).
Variables (mt : bool) (nd0 : NodeData).

(** At the root a prune is signalled only by an infinite utility. *)
Hypothesis root_prune : forall b,
  prune (update_ab mt nd0 b) = true -> is_infinite b = true.

Lemma chosen_loop l : forall st st' br b,
  _MAX_turn (ls_state st) = mt ->
  _utility (ls_state st) = Some b ->
  ls_data st = update_ab mt nd0 b ->
  for_each (expand_child rec) l st = Some (st', br) ->
  l <> [] \/ chosen_child (ls_state st) <> None ->
  chosen_child (ls_state st') <> None.
Proof.
  induction l as [|m l IH]; intros st st' br b Hmt Hu Hd; simpl; intros Hrun Hc.
  { injection Hrun as <- <-. by destruct Hc. }
  destruct (expand_child rec m st) as [[st1 b1]|] eqn:Hstep; [|done].
  destruct (expand_child_step rec m st st1 b1 b Hu Hstep)
    as (cn & e & _ & Hpos & Hu1 & _ & _ & Hcase).
  cbv zeta in *. rewrite Hmt in *.
  assert (Hd1 : ls_data st1
                = update_ab mt nd0 (max_or_min mt b (root_utility cn))).
  { destruct Hcase as [(-> & _)|(Hbb & _ & -> & _)].
    - by rewrite Hd, update_ab_again.
    - by rewrite Hbb. }
  assert (Hc1 : chosen_child (ls_state st1) <> None).
  { destruct Hcase as [(_ & Hb1 & ->)|(_ & Hne & _ & _ & ->)]; [|done].
    destruct b1; [|done]. simpl.
    rewrite root_prune; [done|]. by rewrite <- Hd1. }
  destruct b1.
  - by injection Hrun as <- <-.
  - eapply (IH st1); try done; [|by right].
    by rewrite (position_MAX_turn _ _ Hpos).
Qed.

End Chosen.

Lemma root_prune_MMData mt d b :
  prune (update_ab mt (MMData d) b) = true -> is_infinite b = true.
Proof. by rewrite update_ab_MMData. Qed.

Lemma root_prune_ABData mt d b :
  prune (update_ab mt (ABData d NegInf Inf) b) = true -> is_infinite b = true.
Proof. rewrite update_ab_ABData. by destruct mt, b. Qed.

Lemma moves_nonempty (s : Board) :
  (exists row col, is_Some (place s row col)) -> moves s <> [].
Proof.
  intros (row & col & [m Hm]).
  assert (Hin : m ∈ moves s).
  { apply elem_of_moves. exists row, col.
    pose proof Hm as [(? & ? & _) _]%place_Some. auto. }
  intros Hnil. rewrite Hnil in Hin. by apply elem_of_nil in Hin.
Qed.

Lemma chosen_at_root fuel (s : Board) nd node cnt :
  (forall b, prune (update_ab (MAX_turn s) nd b) = true -> is_infinite b = true) ->
  depth nd <> 0 -> done s = false -> moves s <> [] ->
  _base_minimax fuel s nd = Some (node, cnt) ->
  chosen_child (node_state node) <> None.
Proof.
  intros Hroot Hd Hdone Hmoves. destruct fuel as [|fuel]; [done|].
  rewrite base_minimax_S, Hdone.
  replace (depth nd =? 0) with false by lia. simpl.
  destruct (for_each _ _ _) as [[st b]|] eqn:Hloop; [|done].
  intros [= <- <-]. simpl.
  eapply (chosen_loop _ (MAX_turn s) nd Hroot (moves s)
            (mkLoop (set_utility s (initial_utility (MAX_turn s))) [] 1 nd));
    [done|done| |done|by left].
  simpl. by rewrite update_ab_initial.
Qed.

(** C2, for depths other than 0: a search rooted at a state that is not
    terminal and has a legal move leaves [chosen_child] of that state set,
    with or without pruning, because at the root a prune is signalled only
    by an infinite utility. *)
Theorem root_choice (s : Board) (d : Z) :
  d <> 0 -> done s = false ->
  (exists row col, is_Some (place s row col)) ->
  exists tm cm ta ca,
    minimax s d = Some (tm, cm) /\ minimax_ab s d = Some (ta, ca)
    /\ chosen_child (node_state tm) <> None
    /\ chosen_child (node_state ta) <> None.
Proof.
  intros Hd Hdone Hmoves%moves_nonempty.
  destruct (search_returns s d) as (tm & cm & ta & ca & Hm & Ha).
  exists tm, cm, ta, ca. split; [done|]. split; [done|]. split.
  - eapply chosen_at_root; [apply root_prune_MMData|done..].
  - eapply chosen_at_root; [apply root_prune_ABData|done..].
Qed.

(** C2 as stated fails at depth 0: the root is then a leaf, nothing is
    expanded, and [chosen_child] stays unset although the state is not
    terminal and has a legal move. *)
Lemma root_choice_fails_at_depth_zero :
  ~ (forall (s : Board) (d : Z),
       done s = false -> (exists row col, is_Some (place s row col)) ->
       forall tree cnt,
         minimax s d = Some (tree, cnt) \/ minimax_ab s d = Some (tree, cnt) ->
         chosen_child (node_state tree) <> None).
Proof.
  intros H.
  apply (H single_square 0 eq_refl
           ltac:(exists 0, 0; vm_compute; eauto) (mkNode single_square []) 1).
  - by left.
  - reflexivity.
Qed.

Lemma root_choice_witness :
  (1 <> 0 /\ done single_square = false
   /\ exists row col, is_Some (place single_square row col))
  /\ exists tm cm ta ca,
       minimax single_square 1 = Some (tm, cm)
       /\ minimax_ab single_square 1 = Some (ta, ca)
       /\ chosen_child (node_state tm) <> None
       /\ chosen_child (node_state ta) <> None.
Proof.
  assert (H1 : 1 <> 0) by lia.
  assert (H2 : done single_square = false) by reflexivity.
  assert (H3 : exists row col, is_Some (place single_square row col))
    by (exists 0, 0; vm_compute; eauto).
  split; [done|]. exact (root_choice single_square 1 H1 H2 H3).
Defined.

(** ** The children of an expanded node *)

(** C6: a node that is expanded (a call with a depth other than 0 on a
    state that is not terminal) explores its legal successors in row-major
    order, and only alpha >= beta ends the enumeration early.  Its children
    are a prefix of the successors.  Without pruning they are all the
    successors.  With pruning, alpha (MAX to move) or beta (MIN to move) is,
    after a child, the larger of the alpha or the smaller of the beta of
    the call and the running utility of the children so far; the children
    are a proper prefix only if alpha >= beta after the last of them, and,
    for a call with alpha < beta (as every call of a search is), alpha < beta
    held after every earlier child: the first child with alpha >= beta after
    it is the last one generated. *)
Theorem explored_children fuel (s : Board) nd :
  (count_square OPEN (_tiles s) < fuel)%nat ->
  depth nd <> 0 -> done s = false ->
  exists node cnt,
    _base_minimax fuel s nd = Some (node, cnt)
    /\ let mt := MAX_turn s in
       let children := node_children node in
       let best (k : nat) :=
         running_best mt (take k (root_utility <$> children)) in
       (position ∘ node_state) <$> children
       = position <$> take (length children) (moves s)
       /\ (length children <= length (moves s))%nat
       /\ match nd with
          | MMData _ => length children = length (moves s)
          | ABData _ alpha beta =>
              let alpha_after (k : nat) :=
                if mt then number_max alpha (best k) else alpha in
              let beta_after (k : nat) :=
                if mt then beta else number_min beta (best k) in
              ((length children < length (moves s))%nat ->
               number_geb (alpha_after (length children))
                          (beta_after (length children)) = true)
              /\ (number_ltb alpha beta = true ->
                  forall k, (k < length children)%nat ->
                    number_ltb (alpha_after k) (beta_after k) = true)
          end
       /\ root_utility node = running_best mt (root_utility <$> children).
Proof.
  intros Hf Hd Hdone.
  destruct (base_minimax_total fuel s nd Hf) as [[node cnt] Hrun].
  exists node, cnt. split; [done|].
  destruct (base_minimax_explored fuel s nd node cnt Hrun Hd Hdone)
    as (Hpos & Hlen & Hstop & Hgo & Hroot).
  cbv zeta in *. split; [done|]. split; [done|]. split; [|done].
  destruct nd as [d|d alpha beta].
  - destruct (decide (length (node_children node) < length (moves s))%nat)
      as [Hlt|Hge]; [|lia].
    specialize (Hstop Hlt). by rewrite update_ab_MMData in Hstop.
  - split.
    + intros Hlt. specialize (Hstop Hlt). rewrite update_ab_ABData in Hstop.
      by destruct (MAX_turn s).
    + intros Hw k Hk.
      assert (Hp : prune (ABData d alpha beta) = false).
      { simpl. unfold number_geb. by rewrite Hw. }
      specialize (Hgo Hp k Hk). rewrite update_ab_ABData in Hgo.
      destruct (MAX_turn s); simpl in Hgo; unfold number_geb in Hgo;
        by apply negb_false_iff in Hgo.
Qed.

(** ** The receiver of [place] is left as it was *)

Section Store.
Implicit Types (h : heap) (ls rows : list loc) (t : list (list Square)).

Lemma read_grid_Some h g t :
  read_grid h g = Some t <->
  exists ls, read_rows h g = Some ls /\ rows_hold h ls t.
Proof.
  unfold read_grid, rows_hold. destruct (read_rows h g) as [ls|]; simpl.
  - rewrite mapM_Some. split; [by exists ls|by intros (? & [= <-] & ?)].
  - split; [done|by intros (? & ? & _)].
Qed.

Lemma read_row_weaken h h' l cells :
  h ⊆ h' -> read_row h l = Some cells -> read_row h' l = Some cells.
Proof.
  unfold read_row. intros Hh.
  destruct (h !! l) as [o|] eqn:E; [|done].
  by rewrite (lookup_weaken _ _ _ _ E Hh).
Qed.

Lemma read_rows_weaken h h' l rows :
  h ⊆ h' -> read_rows h l = Some rows -> read_rows h' l = Some rows.
Proof.
  unfold read_rows. intros Hh.
  destruct (h !! l) as [o|] eqn:E; [|done].
  by rewrite (lookup_weaken _ _ _ _ E Hh).
Qed.

Lemma read_fields_weaken h h' l o :
  h ⊆ h' -> read_fields h l = Some o -> read_fields h' l = Some o.
Proof.
  unfold read_fields. intros Hh.
  destruct (h !! l) as [o'|] eqn:E; [|done].
  by rewrite (lookup_weaken _ _ _ _ E Hh).
Qed.

Lemma rows_hold_weaken h h' ls t : h ⊆ h' -> rows_hold h ls t -> rows_hold h' ls t.
Proof.
  intros Hh Hrows. eapply Forall2_impl; [exact Hrows|].
  intros l cells. by apply read_row_weaken.
Qed.

Lemma read_board_weaken h h' l b :
  h ⊆ h' -> read_board h l = Some b -> read_board h' l = Some b.
Proof.
  unfold read_board. intros Hh.
  destruct (read_fields h l) as [o|] eqn:Ho; [|done]. simpl.
  destruct (read_grid h (o_tiles o)) as [t|] eqn:Ht; [|done]. simpl.
  intros [= <-]. rewrite (read_fields_weaken _ _ _ _ Hh Ho). simpl.
  apply read_grid_Some in Ht as (ls & Hls & Hrows).
  assert (Ht' : read_grid h' (o_tiles o) = Some t).
  { apply read_grid_Some. exists ls.
    split; [by eapply read_rows_weaken|by eapply rows_hold_weaken]. }
  by rewrite Ht'.
Qed.

Lemma heap_alloc_spec h o l h' :
  heap_alloc h o = (l, h') ->
  (l ∉ dom h) /\ (h ⊆ h') /\ h' !! l = Some o /\ dom h' = {[l]} ∪ dom h.
Proof.
  unfold heap_alloc. intros [= <- <-].
  pose proof (is_fresh (dom h)) as Hf.
  split; [done|]. split; [|split].
  - apply insert_subseteq. by apply not_elem_of_dom.
  - apply lookup_insert_eq.
  - apply dom_insert_L.
Qed.

Lemma copy_rows_cons h r rows :
  copy_rows h (r :: rows)
  = match read_row h r with
    | None => None
    | Some cells =>
        match copy_rows (heap_alloc h (ORow cells)).2 rows with
        | Some (ls, h2) => Some ((heap_alloc h (ORow cells)).1 :: ls, h2)
        | None => None
        end
    end.
Proof.
  simpl. destruct (read_row h r) as [cells|]; [|done]. simpl.
  by destruct (copy_rows _ rows) as [[ls h2]|].
Qed.

(** Copying rows allocates; it writes to no object of the store it
    starts from. *)
Lemma copy_rows_spec rows : forall h t,
  rows_hold h rows t ->
  exists ls h',
    copy_rows h rows = Some (ls, h')
    /\ h ⊆ h' /\ rows_hold h' ls t /\ NoDup ls
    /\ (forall l, l ∈ ls -> l ∉ dom h) /\ (forall l, l ∈ ls -> l ∈ dom h').
Proof.
  induction rows as [|r rows IH]; intros h t Hrows.
  { apply Forall2_nil_inv_l in Hrows as ->. exists [], h.
    repeat split; try done; try constructor; intros l Hl;
      by apply elem_of_nil in Hl. }
  apply Forall2_cons_inv_l in Hrows as (cells & t' & Hr & Hrows & ->).
  rewrite copy_rows_cons, Hr.
  destruct (heap_alloc h (ORow cells)) as [l h1] eqn:Ha.
  apply heap_alloc_spec in Ha as (Hl & Hsub & Hl1 & Hdom).
  destruct (IH h1 t' (rows_hold_weaken _ _ _ _ Hsub Hrows))
    as (ls & h2 & Hcopy & Hsub2 & Hrows2 & Hnd & Hfresh & Hin).
  cbn [fst snd]. rewrite Hcopy. exists (l :: ls), h2.
  assert (Hl2 : h2 !! l = Some (ORow cells)) by by eapply lookup_weaken.
  split; [done|]. split; [by etrans|]. split; [|split; [|split]].
  - constructor; [|done]. unfold read_row. by rewrite Hl2.
  - constructor; [|done]. intros Hl'. apply Hfresh in Hl'.
    apply Hl'. rewrite Hdom. by apply elem_of_union_l, elem_of_singleton.
  - intros l' [->|Hl']%elem_of_cons; [done|].
    apply Hfresh in Hl'. rewrite Hdom in Hl'.
    intros Hl''. apply Hl'. by apply elem_of_union_r.
  - intros l' [->|Hl']%elem_of_cons; [by eapply elem_of_dom_2|by apply Hin].
Qed.

(** Reading a square of a grid held in the store. *)
Lemma heap_get_spec h g ls t i j :
  read_rows h g = Some ls -> rows_hold h ls t ->
  heap_get h g i j = get_square t i j.
Proof.
  intros Hg Hrows. unfold heap_get, get_square. rewrite Hg. simpl.
  destruct (ls !! Z.to_nat i) as [r|] eqn:Hr; simpl.
  - destruct (Forall2_lookup_l _ _ _ _ _ Hrows Hr) as (cells & -> & ->). done.
  - apply lookup_ge_None in Hr. rewrite (Forall2_length _ _ _ Hrows) in Hr.
    by rewrite (lookup_ge_None_2 t).
Qed.

(** Writing a square of a grid whose rows are distinct objects: the grid
    read afterwards is the updated grid, and only that row was written. *)
Lemma heap_set_spec h g ls t i j v :
  read_rows h g = Some ls -> rows_hold h ls t -> NoDup ls ->
  is_Some (get_square t i j) ->
  exists h' r,
    heap_set h g i j v = Some h'
    /\ ls !! Z.to_nat i = Some r
    /\ (forall l, l <> r -> h' !! l = h !! l)
    /\ read_rows h' g = Some ls
    /\ rows_hold h' ls (set_square t i j v).
Proof.
  intros Hg Hrows Hnd [sq Hsq]. apply get_square_Some in Hsq as (cells & Hc & Hj).
  destruct (Forall2_lookup_r _ _ _ _ _ Hrows Hc) as (r & Hr & Hread).
  unfold heap_set. rewrite Hg. simpl. rewrite Hr. simpl. rewrite Hread. simpl.
  rewrite decide_True by (by eapply lookup_lt_Some).
  eexists _, r. split; [done|]. split; [done|].
  assert (Hrg : r <> g).
  { intros ->. unfold read_row, read_rows in *.
    destruct (h !! g) as [[]|]; done. }
  split; [|split].
  - intros l Hl. by rewrite lookup_insert_ne.
  - unfold read_rows. rewrite lookup_insert_ne by done. exact Hg.
  - unfold rows_hold, set_square.
    apply Forall2_same_length_lookup. split.
    { rewrite length_alter. by eapply Forall2_length. }
    intros k l c Hl Hk. unfold read_row.
    destruct (decide (k = Z.to_nat i)) as [->|Hne].
    + rewrite Hr in Hl. injection Hl as <-.
      rewrite list_lookup_alter_eq, Hc in Hk. injection Hk as <-.
      by rewrite lookup_insert_eq.
    + rewrite list_lookup_alter_ne in Hk by done.
      assert (l <> r).
      { intros ->. apply Hne. by eapply NoDup_lookup. }
      rewrite lookup_insert_ne by done.
      exact (Forall2_lookup_lr _ _ _ _ _ _ Hrows Hl Hk).
Qed.

End Store.

Lemma heap_in_range_Some i n : heap_in_range i (Some n) = Some (in_range i n).
Proof. unfold heap_in_range, in_range. by destruct (0 <=? i). Qed.

Lemma for_m_foldl {A S T} (R : S -> T -> Prop) (body : A -> S -> option S)
    (f : T -> A -> T) (l : list A) :
  (forall x s t, R s t -> exists s', body x s = Some s' /\ R s' (f t x)) ->
  forall s t, R s t -> exists s', for_m body l s = Some s' /\ R s' (foldl f t l).
Proof.
  intros Hbody. induction l as [|x l IH]; intros s t Hst; simpl; [eauto|].
  destruct (Hbody x s t Hst) as (s' & -> & Hs'). simpl. by apply IH.
Qed.

Section StorePlace.
Implicit Types (h : heap) (b : ObstructionBoard loc).

Lemma read_board_Some h self b :
  read_board h self = Some b <->
  exists o rows,
    read_fields h self = Some o /\ read_rows h (o_tiles o) = Some rows
    /\ rows_hold h rows (_tiles b)
    /\ b = mkBoard (_tiles b) (o_open_cnt o) (o_MAX_turn o) (o_action o)
             (o_utility o) (o_chosen_child o).
Proof.
  unfold read_board. destruct (read_fields h self) as [o|]; simpl.
  2: { split; [done|]. by intros (? & ? & ? & _). }
  destruct (read_grid h (o_tiles o)) as [t|] eqn:Ht; simpl.
  - apply read_grid_Some in Ht as (rows & Hrows & Hhold). split.
    + intros [= <-]. by exists o, rows.
    + intros (o' & rows' & [= <-] & Hr & Hh & ->). simpl in *.
      rewrite Hrows in Hr. injection Hr as <-.
      f_equal. f_equal. unfold rows_hold in *.
      clear -Hhold Hh. revert t Hhold.
      induction Hh as [|l c ls t' Hc _ IH]; intros t Ht.
      * by apply Forall2_nil_inv_l in Ht.
      * apply Forall2_cons_inv_l in Ht as (c' & t'' & Hc' & Ht & ->).
        rewrite Hc in Hc'. injection Hc' as <-. f_equal. by apply IH.
  - split; [done|]. intros (o' & rows & [= <-] & Hr & Hh & _).
    assert (read_grid h (o_tiles o) = Some (_tiles b)) as Hg
      by (apply read_grid_Some; eauto).
    by rewrite Hg in Ht.
Qed.

(** [self.height] and [self.width] read from the store are those of the
    board the receiver denotes. *)
Lemma heap_dims h self b :
  read_board h self = Some b ->
  heap_height h self = Some (height b)
  /\ (0 < height b -> heap_width h self = Some (width b)).
Proof.
  intros (o & rows & Ho & Hr & Hh & _)%read_board_Some.
  unfold heap_height, heap_width, height, width. rewrite Ho. simpl.
  rewrite Hr. simpl. rewrite (Forall2_length _ _ _ Hh). split; [done|].
  intros Hpos.
  destruct (_tiles b) as [|c t] eqn:Ht; [simpl in Hpos; lia|].
  apply Forall2_cons_inv_r in Hh as (r & rows' & Hc & _ & ->). simpl.
  by rewrite Hc.
Qed.

(** A grid of the shape of a rectangular board has a square at every
    in-range index. *)
Lemma shape_lookup b t i j :
  rectangular b -> shape t = shape (_tiles b) ->
  0 <= i < height b -> 0 <= j < width b -> is_Some (get_square t i j).
Proof.
  intros Hrect Hshape Hi Hj.
  set (b' := __init__ (N:=loc) t 0 true None).
  destruct (width_shape b t Hshape) as [Hw Hh].
  apply (rectangular_lookup b').
  - by apply (rectangular_shape b).
  - unfold height. simpl. lia.
  - unfold width. simpl. lia.
Qed.

Variables (h0 : heap) (self g : loc) (ls : list loc) (b : ObstructionBoard loc).
Hypothesis self_board : read_board h0 self = Some b.
Hypothesis self_rect : rectangular b.
Hypothesis ls_NoDup : NoDup ls.
Hypothesis ls_new : forall l, l ∈ ls -> l ∉ dom h0.

Lemma heap_block_square_spec i j st acc :
  0 <= i < height b -> store_inv h0 g ls b st acc ->
  exists st', heap_block_square self g i j st = Some st'
              /\ store_inv h0 g ls b st' (block_square b i j acc).
Proof.
  intros Hi (Hc & Hsub & Hg & Hhold & Hshape).
  pose proof (read_board_weaken _ _ _ _ Hsub self_board) as Hb.
  destruct (heap_dims _ _ _ Hb) as [_ Hw]. specialize (Hw ltac:(lia)).
  unfold heap_block_square, block_square.
  rewrite Hw, heap_in_range_Some. simpl.
  destruct (in_range j (width b)) eqn:Hj; simpl; [|by eexists].
  apply in_range_true in Hj.
  rewrite (heap_get_spec _ _ _ _ _ _ Hg Hhold).
  destruct (shape_lookup b acc.1 i j self_rect Hshape Hi Hj) as [sq Hsq].
  rewrite Hsq. simpl.
  destruct (decide (sq = OPEN)) as [->|Hne].
  - rewrite !bool_decide_eq_true_2 by done.
    destruct (heap_set_spec st.1 g ls acc.1 i j BLOCKED Hg Hhold ls_NoDup)
      as (h' & r & -> & Hr & Hframe & Hg' & Hhold'); [by eexists|].
    simpl. eexists. split; [done|]. repeat split; simpl; try done.
    + by rewrite Hc.
    + apply map_subseteq_spec. intros l o Hl.
      rewrite Hframe; [by eapply lookup_weaken|].
      intros ->. by eapply ls_new; [eapply list_elem_of_lookup_2|eapply elem_of_dom_2].
    + by rewrite shape_set_square.
  - rewrite !bool_decide_eq_false_2 by congruence. by eexists.
Qed.

Lemma heap_block_row_spec col i st acc :
  store_inv h0 g ls b st acc ->
  exists st', heap_block_row self g col i st = Some st'
              /\ store_inv h0 g ls b st' (block_row b col i acc).
Proof.
  intros Hinv. pose proof Hinv as (_ & Hsub & _).
  pose proof (read_board_weaken _ _ _ _ Hsub self_board) as Hb.
  destruct (heap_dims _ _ _ Hb) as [Hh _].
  unfold heap_block_row, block_row. rewrite Hh, heap_in_range_Some. simpl.
  destruct (in_range i (height b)) eqn:Hi; [|by eexists].
  apply in_range_true in Hi.
  apply (for_m_foldl (store_inv h0 g ls b)); [|done].
  intros j s t. by apply heap_block_square_spec.
Qed.

End StorePlace.

Opaque heap_alloc.

(** C9: [place] leaves its receiver as it was.  On the object store, for a
    receiver that denotes a rectangular board [b]: the call returns; every
    object the store held before the call (the receiver's fields, its grid
    and the rows of its grid among them) is the same after it, so the
    receiver still denotes [b], whether the call fails or succeeds; and what
    is returned is what [place] returns on [b], as a new object. *)
Theorem place_leaves_receiver (h : heap) (self : loc) (row col : Z)
    (b : ObstructionBoard loc) :
  read_board h self = Some b -> rectangular b ->
  exists r h',
    heap_place h self row col = Some (r, h')
    /\ (forall l o, h !! l = Some o -> h' !! l = Some o)
    /\ read_board h' self = Some b
    /\ match r with
       | None => place b row col = None
       | Some l =>
           h !! l = None
           /\ exists b', read_board h' l = Some b' /\ place b row col = Some b'
       end.
Proof.
  intros Hb Hrect.
  assert (Hgoal : exists r h',
    heap_place h self row col = Some (r, h') /\ h ⊆ h'
    /\ match r with
       | None => place b row col = None
       | Some l =>
           h !! l = None
           /\ exists b', read_board h' l = Some b' /\ place b row col = Some b'
       end).
  2: { destruct Hgoal as (r & h' & Hrun & Hsub & Hr). exists r, h'.
       split; [done|]. split; [|split; [|done]].
       - intros l o Hl. by eapply lookup_weaken.
       - by eapply read_board_weaken. }
  destruct (heap_dims _ _ _ Hb) as [Hh Hw].
  pose proof Hb as (o & rows & Ho & Hrows & Hhold & Hfields)%read_board_Some.
  unfold heap_place, place. rewrite Hh, heap_in_range_Some. simpl.
  destruct (in_range row (height b)) eqn:Hrow; simpl; [|by exists None, h].
  apply in_range_true in Hrow.
  rewrite (Hw ltac:(lia)), heap_in_range_Some. simpl.
  destruct (in_range col (width b)) eqn:Hcol; simpl; [|by exists None, h].
  apply in_range_true in Hcol. rewrite Ho. simpl.
  rewrite (heap_get_spec _ _ _ _ _ _ Hrows Hhold).
  destruct (rectangular_lookup b row col Hrect Hrow Hcol) as [sq Hsq].
  rewrite Hsq. simpl.
  destruct (decide (sq = OPEN)) as [->|Hne].
  2: { rewrite !bool_decide_eq_false_2 by congruence. simpl. by exists None, h. }
  rewrite !bool_decide_eq_true_2 by done. simpl. rewrite Hrows. simpl.
  destruct (copy_rows_spec rows h (_tiles b) Hhold)
    as (ls & h1 & -> & Hsub1 & Hhold1 & Hnd & Hnew & Hdom1).
  simpl.
  destruct (heap_alloc h1 (OGrid ls)) as [g h2] eqn:Hg.
  apply heap_alloc_spec in Hg as (Hg1 & Hsub2 & Hg2 & _).
  assert (Hsub02 : h ⊆ h2) by (by etrans).
  rewrite (read_fields_weaken _ _ _ _ Hsub02 Ho). simpl.
  assert (Hrg : read_rows h2 g = Some ls) by (unfold read_rows; by rewrite Hg2).
  destruct (heap_set_spec h2 g ls (_tiles b) row col
              (if o_MAX_turn o then MAX else MIN) Hrg
              (rows_hold_weaken _ _ _ _ Hsub2 Hhold1) Hnd)
    as (h3 & r & -> & Hr & Hframe3 & Hrg3 & Hhold3); [by eexists|].
  simpl.
  assert (Hsub03 : h ⊆ h3).
  { apply map_subseteq_spec. intros l o' Hl.
    rewrite Hframe3; [by eapply lookup_weaken|].
    intros ->. by eapply Hnew; [eapply list_elem_of_lookup_2|eapply elem_of_dom_2]. }
  rewrite list_fmap_id.
  assert (Hmt : _MAX_turn b = o_MAX_turn o) by (by rewrite Hfields).
  assert (Hcnt : _open_cnt b = o_open_cnt o) by (by rewrite Hfields).
  rewrite Hmt, Hcnt.
  destruct (for_m_foldl (store_inv h g ls b)
              (heap_block_row self g col) (fun a i => block_row b col i a)
              (range (row - 1) (row + 2))) with
      (s := (h3, o_open_cnt o - 1))
      (t := (set_square (_tiles b) row col
               (if o_MAX_turn o then MAX else MIN), o_open_cnt o - 1))
    as ([h4 c4] & Hloop & Hc4 & Hsub04 & Hrg4 & Hhold4 & _).
  { intros i st acc. by apply heap_block_row_spec. }
  { repeat split; try done. simpl. by rewrite shape_set_square. }
  unfold block_around. rewrite Hloop. simpl in *.
  rewrite (read_fields_weaken _ _ _ _ Hsub04 Ho). simpl.
  destruct (foldl _ _ _) as [t4 c4'] eqn:Hfold. simpl in *. subst c4'.
  destruct (heap_alloc h4 _) as [l h5] eqn:Hl.
  apply heap_alloc_spec in Hl as (Hl4 & Hsub5 & Hl5 & _).
  exists (Some l), h5. split; [done|]. split; [by etrans|]. split.
  - apply not_elem_of_dom. intros Hin. apply Hl4.
    by apply (subseteq_dom _ _ Hsub04).
  - eexists. split; [|done].
    apply read_board_Some. eexists _, ls.
    split; [unfold read_fields; by rewrite Hl5|]. simpl.
    split; [by eapply read_rows_weaken|].
    split; [by eapply rows_hold_weaken|done].
Qed.

(** ** The theorems at concrete inputs *)

Lemma reachable_counts_witness :
  (create 5 1 = Some row_board
   /\ place_all row_board [(0, 0); (0, 4)] = Some two_marks_board)
  /\ width two_marks_board = 5 /\ height two_marks_board = 1
  /\ Z.of_nat (count_square OPEN (_tiles two_marks_board)
               + count_square BLOCKED (_tiles two_marks_board)
               + count_square MAX (_tiles two_marks_board)
               + count_square MIN (_tiles two_marks_board)) = 5 * 1
  /\ _open_cnt two_marks_board
     = Z.of_nat (count_square OPEN (_tiles two_marks_board)).
Proof.
  assert (H1 : create 5 1 = Some row_board) by reflexivity.
  assert (H2 : place_all row_board [(0, 0); (0, 4)] = Some two_marks_board)
    by reflexivity.
  split; [done|].
  exact (reachable_counts 5 1 row_board [(0, 0); (0, 4)] two_marks_board H1 H2).
Defined.

Lemma evaluate_cutoff_leaf_witness :
  (done one_left_board = false /\ _utility one_left_board = None
   /\ 1 <= width one_left_board /\ 1 <= height one_left_board
   /\ _open_cnt one_left_board = 1)
  /\ (utility one_left_board).1 = Int (-4)
  /\ _evaluate_node one_left_board <> Int 1.
Proof.
  assert (H1 : done one_left_board = false) by reflexivity.
  assert (H2 : _utility one_left_board = None) by reflexivity.
  assert (H3 : 1 <= width one_left_board) by (vm_compute; congruence).
  assert (H4 : 1 <= height one_left_board) by (vm_compute; congruence).
  assert (H5 : _open_cnt one_left_board = 1) by reflexivity.
  split; [done|].
  destruct (evaluate_cutoff_leaf one_left_board H1 H2) as (Hu & _ & He & Hs).
  destruct (Hs H3 H4 H5) as (_ & Hn & _).
  split; [|exact Hn]. rewrite Hu. reflexivity.
Defined.

Lemma explored_children_witness :
  ((count_square OPEN (_tiles empty_board) < 5)%nat
   /\ depth (ABData 1 NegInf Inf) <> 0 /\ done empty_board = false)
  /\ exists node cnt,
       _base_minimax 5 empty_board (ABData 1 NegInf Inf) = Some (node, cnt)
       /\ length (node_children node) = 1%nat
       /\ length (moves empty_board) = 4%nat
       /\ number_geb
            (number_max NegInf
               (running_best true (take 1 (root_utility <$> node_children node))))
            Inf = true.
Proof.
  assert (H1 : (count_square OPEN (_tiles empty_board) < 5)%nat)
    by (vm_compute; lia).
  assert (H2 : depth (ABData 1 NegInf Inf) <> 0) by (simpl; lia).
  assert (H3 : done empty_board = false) by reflexivity.
  split; [done|].
  destruct (explored_children 5 empty_board (ABData 1 NegInf Inf) H1 H2 H3)
    as (node & cnt & Hrun & _ & _ & [Hstop _] & _).
  exists node, cnt. split; [exact Hrun|].
  assert (Hlen : length (node_children node) = 1%nat).
  { vm_compute in Hrun. by injection Hrun as <- _. }
  split; [exact Hlen|]. split; [reflexivity|].
  rewrite Hlen in Hstop. apply Hstop. vm_compute. lia.
Defined.

Lemma create_spec_witness :
  (1 <= 2 /\ 1 <= 1)
  /\ exists s : Board, create 2 1 = Some s /\ _open_cnt s = 2 * 1.
Proof.
  assert (H1 : 1 <= 2) by lia. assert (H2 : 1 <= 1) by lia.
  split; [done|].
  destruct (create_spec (N:=Node) 2 1) as (_ & _ & _ & H).
  destruct (H H1 H2) as (s & Hs & _ & _ & _ & _ & Hc & _).
  by exists s.
Defined.

Lemma place_leaves_receiver_witness :
  (read_board sample_heap 4%positive = Some sample_board_obj
   /\ rectangular sample_board_obj)
  /\ exists r h',
       heap_place sample_heap 4%positive 0 0 = Some (r, h')
       /\ read_board h' 4%positive = Some sample_board_obj.
Proof.
  assert (H1 : read_board sample_heap 4%positive = Some sample_board_obj)
    by (vm_compute; reflexivity).
  assert (H2 : rectangular sample_board_obj) by repeat constructor.
  split; [done|].
  destruct (place_leaves_receiver sample_heap 4%positive 0 0 sample_board_obj
              H1 H2) as (r & h' & Hrun & _ & Hb & _).
  by exists r, h'.
Defined.

(** * Further properties of the board *)

Section Games.
Context {N : Type}.
Implicit Types (s self : ObstructionBoard N) (t : list (list Square)).

Lemma elem_of_concat {A} (x : A) (ls : list (list A)) :
  x ∈ concat ls <-> exists l, x ∈ l /\ l ∈ ls.
Proof.
  induction ls as [|l ls IH]; simpl.
  - split; [by intros ?%elem_of_nil|by intros (? & _ & ?%elem_of_nil)].
  - rewrite elem_of_app, IH. split.
    + intros [H|(l' & H1 & H2)]; [exists l|exists l']; split; try done;
        by constructor.
    + intros (l' & H1 & [->|H2]%elem_of_cons); [by left|right; eauto].
Qed.

Lemma count_square_zero t v :
  count_square v t = 0%nat <->
  forall i j, 0 <= i -> 0 <= j -> get_square t i j <> Some v.
Proof.
  unfold count_square. split.
  - intros Hc i j _ _ (r & Hr & Hx)%get_square_Some.
    assert (Hin : v ∈ filter (fun x => x = v) (concat t)).
    { apply list_elem_of_filter. split; [done|].
      apply elem_of_concat. exists r.
      split; by eapply list_elem_of_lookup_2. }
    apply length_zero_iff_nil in Hc. rewrite Hc in Hin.
    by apply elem_of_nil in Hin.
  - intros Hn. apply length_zero_iff_nil.
    destruct (filter _ _) as [|x l] eqn:E; [done|]. exfalso.
    assert (Hin : x ∈ filter (fun x => x = v) (concat t))
      by (rewrite E; by left).
    apply list_elem_of_filter in Hin as [-> Hin].
    apply elem_of_concat in Hin as (r & Hx & Hr).
    apply list_elem_of_lookup_1 in Hx as [j Hj], Hr as [i Hi].
    apply (Hn (Z.of_nat i) (Z.of_nat j)); [lia..|].
    apply get_square_Some. exists r. by rewrite !Nat2Z.id.
Qed.

Lemma get_square_in_range self i j v :
  rectangular self -> 0 <= i -> 0 <= j ->
  get_square (_tiles self) i j = Some v ->
  i < height self /\ j < width self.
Proof.
  intros Hrect Hi Hj (r & Hr & Hx)%get_square_Some.
  apply lookup_lt_Some in Hx. pose proof (lookup_lt_Some _ _ _ Hr) as Hlt.
  unfold rectangular in Hrect. rewrite Forall_forall in Hrect.
  specialize (Hrect r (list_elem_of_lookup_2 _ _ _ Hr)).
  unfold height. lia.
Qed.

Lemma consistent_done s :
  consistent s -> done s = true <-> forall row col, place s row col = None.
Proof.
  intros (_ & _ & Hrect & Hcnt). unfold done. rewrite Z.eqb_eq, Hcnt.
  replace 0 with (Z.of_nat 0) by done. rewrite Nat2Z.inj_iff, count_square_zero.
  split.
  - intros Hn row col. apply place_None. intros (Hr & Hc & Ho).
    by apply (Hn row col); [lia..|].
  - intros Hn i j Hi Hj Ho.
    destruct (get_square_in_range s i j OPEN) as [? ?]; try done.
    specialize (Hn i j). apply place_None in Hn. apply Hn.
    repeat split; (done || lia).
Qed.

(** ** One move *)

Lemma newly_blocked_le self row col :
  (length (filter (newly_blocked self row col) (cells_around row col))
   <= 8)%nat.
Proof.
  unfold cells_around. rewrite !filter_cons, filter_nil.
  rewrite (decide_False (P := newly_blocked self row col (row, col)))
    by (by intros [? _]).
  repeat (destruct (decide _); simpl); lia.
Qed.

Lemma place_open_cnt self row col s' :
  place self row col = Some s' ->
  _open_cnt self - 9 <= _open_cnt s' <= _open_cnt self - 1.
Proof.
  intros [Hp ->]%place_Some. simpl.
  destruct (placed_count self row col Hp) as (-> & _).
  pose proof (newly_blocked_le self row col). lia.
Qed.

Lemma placed_count_mark self row col v :
  playable self row col -> is_mark v ->
  count_square v (placed self row col).1
  = (count_square v (_tiles self) + indicator (marker self = v))%nat.
Proof.
  intros Hp Hv. pose proof Hp as (_ & _ & Ho). unfold placed.
  destruct (foldl_block_cell self (cells_around row col)
              (set_square (_tiles self) row col (marker self),
               _open_cnt self - 1) (NoDup_cells_around row col))
    as (_ & _ & _ & Hkeep & _). simpl in Hkeep.
  rewrite Hkeep by (destruct Hv; by subst).
  pose proof (count_square_set (_tiles self) row col OPEN v (marker self) Ho)
    as Hc.
  unfold indicator in *. rewrite (decide_False (P := OPEN = v)) in Hc
    by (destruct Hv; by subst).
  lia.
Qed.

Lemma place_balanced self row col s' :
  place self row col = Some s' -> balanced self -> balanced s'.
Proof.
  intros [Hp ->]%place_Some. unfold balanced. simpl.
  rewrite !placed_count_mark by (done || by (left + right)).
  unfold marker, indicator. destruct (_MAX_turn self); simpl; intros ->; lia.
Qed.

Lemma create_get (w h : Z) s i j v :
  create w h = Some s -> get_square (_tiles s) i j = Some v -> v = OPEN.
Proof.
  intros (_ & _ & ->)%create_Some (r & Hr & Hx)%get_square_Some. simpl in Hr.
  rewrite list_lookup_fmap in Hr.
  destruct (range 0 h !! Z.to_nat i); simplify_eq/=.
  by apply lookup_replicate in Hx as [-> _].
Qed.

Lemma create_count (w h : Z) s v :
  create w h = Some s -> v <> OPEN -> count_square v (_tiles s) = 0%nat.
Proof.
  intros Hs Hv. apply count_square_zero. intros i j _ _ Hg.
  apply Hv. by eapply create_get.
Qed.

Lemma reachable_balanced s : reachable s -> balanced s.
Proof.
  induction 1 as [w h s Hs|s row col s' _ IH Hs].
  - unfold balanced. rewrite !(create_count w h) by done.
    apply create_Some in Hs as (_ & _ & ->). done.
  - by eapply place_balanced.
Qed.

(** ** Marks keep their distance *)

Lemma touching_sym a b : touching a b -> touching b a.
Proof.
  unfold touching. intros (? & ? & ?). repeat split; (congruence || lia).
Qed.

Lemma touching_around a row col :
  touching a (row, col) <-> a <> (row, col) /\ a ∈ cells_around row col.
Proof.
  destruct a as [r c]. rewrite elem_of_cells_around. unfold touching. simpl.
  tauto.
Qed.

Lemma placed_at self row col a v :
  playable self row col -> consistent self ->
  square_at (placed self row col).1 a v <->
  (a = (row, col) /\ v = marker self)
  \/ (touching a (row, col) /\ square_at (_tiles self) a OPEN /\ v = BLOCKED)
  \/ (a <> (row, col) /\ square_at (_tiles self) a v
      /\ ~ (touching a (row, col) /\ v = OPEN)).
Proof.
  intros Hp (_ & _ & Hrect & _). destruct a as [r c].
  unfold square_at. simpl. split.
  - intros (Hr & Hc & Hg). rewrite placed_get in Hg by done.
    destruct (decide ((r, c) = (row, col))) as [Heq|Hne].
    { left. by simplify_eq. }
    destruct (decide _) as [[Hin (_ & _ & _ & Ho)]|Hn].
    + right; left. simplify_eq/=.
      split; [by apply touching_around|done].
    + right; right. repeat split; try done.
      intros [[_ Ht]%touching_around ->]. apply Hn. split; [done|].
      by destruct (get_square_in_range self r c OPEN) as [? ?].
  - intros [[[= -> ->] ->]
           |[(Ht & (Hr & Hc & Ho) & ->)|(Hne & (Hr & Hc & Hg) & Hn)]].
    + destruct Hp as (? & ? & ?).
      rewrite placed_get, decide_True by (done || lia).
      repeat split; (done || lia).
    + apply touching_around in Ht as [Hne Hin].
      rewrite placed_get, decide_False, decide_True; try done.
      split; [done|]. repeat split; try done;
        destruct (get_square_in_range self r c OPEN) as [? ?]; try done;
        simpl; lia.
    + rewrite placed_get, decide_False, decide_False; try done.
      intros [Hin (_ & _ & _ & Ho)]. simpl in Ho. apply Hn.
      split; [by apply touching_around|congruence].
Qed.

Lemma marker_is_mark self : is_mark (marker self).
Proof. unfold marker, is_mark. destruct (_MAX_turn self); auto. Qed.

Lemma place_spaced self row col s' :
  place self row col = Some s' -> consistent self ->
  spaced (_tiles self) -> spaced (_tiles s').
Proof.
  intros [Hp ->]%place_Some Hcons [Hfar Hnear]. simpl.
  pose proof Hp as (Hrow & Hcol & Ho).
  assert (Htarget : square_at (_tiles self) (row, col) OPEN)
    by (repeat split; simpl; (done || lia)).
  assert (Huniq : forall a v w, square_at (_tiles self) a v ->
            square_at (_tiles self) a w -> v = w).
  { intros a v w (_ & _ & H1) (_ & _ & H2). congruence. }
  split.
  - intros a b v w Ht Ha Hv Hb.
    apply placed_at in Ha, Hb; try done.
    destruct Ha as [[-> ->]|[(_ & _ & ->)|(Hane & Ha & _)]].
    + destruct Hb as [[-> _]|[(_ & _ & ->)|(Hbne & Hb & Hn)]];
        [by destruct Ht|done|].
      destruct w;
        [| |exfalso; apply Hn; split; [by apply touching_sym|done]|done];
        exfalso;
        by pose proof (Hfar b (row, col) _ OPEN
                         (touching_sym _ _ Ht) Hb ltac:(by (left + right))
                         Htarget).
    + by destruct Hv.
    + destruct Hb as [[-> _]|[(_ & _ & ->)|(Hbne & Hb & _)]]; [|done|by eauto].
      by pose proof (Hfar a (row, col) v OPEN Ht Ha Hv Htarget).
  - intros b Hb. apply placed_at in Hb; try done.
    destruct Hb as [[_ Hm]|[(Ht & _ & _)|(Hbne & Hb & _)]].
    + pose proof (marker_is_mark self) as [H|H]; congruence.
    + exists (row, col), (marker self).
      split; [by apply touching_sym|]. split; [|apply marker_is_mark].
      apply placed_at; try done. by left.
    + destruct (Hnear b Hb) as (a & v & Ht & Ha & Hv).
      exists a, v. split; [done|]. split; [|done].
      apply placed_at; try done. right; right.
      split; [|split; [done|]].
      * intros ->. pose proof (Huniq _ _ _ Ha Htarget). destruct Hv; congruence.
      * intros [_ ->]. by destruct Hv.
Qed.

Lemma reachable_spaced s : reachable s -> spaced (_tiles s).
Proof.
  induction 1 as [w h s Hs|s row col s' Hr IH Hs].
  - split.
    + intros a b v x _ (_ & _ & Ha) Hv _.
      apply (create_get w h) in Ha; [|done]. destruct Hv; congruence.
    + intros b (_ & _ & Hb). by apply (create_get w h) in Hb.
  - eapply place_spaced; [done| |done]. by apply reachable_consistent.
Qed.

Lemma count_square_pos t v :
  count_square v t <> 0%nat ->
  exists i j, 0 <= i /\ 0 <= j /\ get_square t i j = Some v.
Proof.
  unfold count_square. intros Hc.
  destruct (filter _ _) as [|x l] eqn:E; [done|].
  assert (Hin : x ∈ filter (fun x => x = v) (concat t)) by (rewrite E; by left).
  apply list_elem_of_filter in Hin as [-> Hin].
  apply elem_of_concat in Hin as (r & Hx & Hr).
  apply list_elem_of_lookup_1 in Hx as [j Hj], Hr as [i Hi].
  exists (Z.of_nat i), (Z.of_nat j). split; [lia|]. split; [lia|].
  apply get_square_Some. exists r. by rewrite !Nat2Z.id.
Qed.

Lemma consistent_move s :
  consistent s -> done s = false -> exists row col, is_Some (place s row col).
Proof.
  intros (_ & _ & Hrect & Hcnt) Hd. unfold done in Hd.
  apply Z.eqb_neq in Hd.
  destruct (count_square_pos (_tiles s) OPEN) as (i & j & Hi & Hj & Ho); [lia|].
  destruct (get_square_in_range s i j OPEN) as [? ?]; try done.
  exists i, j. rewrite place_unfold, decide_True; [done|].
  repeat split; (done || lia).
Qed.

Lemma place_all_reachable s ms s' :
  reachable s -> place_all s ms = Some s' -> reachable s'.
Proof.
  revert s. induction ms as [|m ms IH]; intros s Hr; simpl.
  - by intros [= <-].
  - destruct (place s m.1 m.2) as [s1|] eqn:Hp; [|done]. simpl.
    apply IH. by eapply reachable_place.
Qed.

Lemma place_all_open_cnt s ms s' :
  place_all s ms = Some s' ->
  _open_cnt s - 9 * Z.of_nat (length ms) <= _open_cnt s'
  <= _open_cnt s - Z.of_nat (length ms).
Proof.
  revert s. induction ms as [|m ms IH]; intros s; simpl.
  - intros [= <-]. lia.
  - destruct (place s m.1 m.2) as [s1|] eqn:Hp; [|done]. simpl.
    intros Hs. apply IH in Hs. apply place_open_cnt in Hp. lia.
Qed.

(** X1: once no square is [OPEN] the game is over, and not before: in a state
    of a game, [done] holds exactly when [place] refuses every square, and
    [winner] is [None] exactly when some square can still be played. *)
Theorem game_over_iff_no_move s :
  reachable s ->
  (done s = true <-> forall row col, place s row col = None)
  /\ (winner s = None <-> exists row col, is_Some (place s row col)).
Proof.
  intros Hc%reachable_consistent.
  split; [by apply consistent_done|].
  unfold winner. destruct (done s) eqn:Hd; simpl.
  - split; [done|]. intros (row & col & [s' Hs]).
    apply (consistent_done s Hc) with (row := row) (col := col) in Hd.
    congruence.
  - split; [|done]. intros _. by apply consistent_move.
Qed.

(** X2: a game on a board of [w] by [h] squares: after any moves [place]
    accepted, [_open_cnt] is between [w * h] minus nine times and [w * h]
    minus once their number, since a move takes its square and at most the
    eight around it; so there are at most [w * h] moves, and at least a
    ninth of that when the game is over. *)
Theorem game_length (w h : Z) s0 ms s :
  create w h = Some s0 -> place_all s0 ms = Some s ->
  w * h - 9 * Z.of_nat (length ms) <= _open_cnt s
  <= w * h - Z.of_nat (length ms)
  /\ 0 <= _open_cnt s
  /\ Z.of_nat (length ms) <= w * h
  /\ (done s = true -> w * h <= 9 * Z.of_nat (length ms)).
Proof.
  intros Hs0 Hs.
  assert (Hr : reachable s).
  { eapply place_all_reachable; [|done]. by eapply reachable_create. }
  apply reachable_consistent in Hr as (_ & _ & _ & Hcnt).
  pose proof (place_all_open_cnt _ _ _ Hs) as Hb.
  apply create_Some in Hs0 as (_ & _ & ->). simpl in Hb.
  split; [done|]. split; [lia|]. split; [lia|].
  unfold done. rewrite Z.eqb_eq. lia.
Qed.

(** X3: the player who takes the last square wins: when the state [place]
    returns is terminal, its [winner] is the player who moved, and its
    utility reads as [inf] if that was MAX and [-inf] if it was MIN. *)
Theorem last_move_wins self row col s' :
  place self row col = Some s' -> done s' = true ->
  winner s' = Some (if MAX_turn self then MAX else MIN)
  /\ (utility s').1 = (if MAX_turn self then Inf else NegInf).
Proof.
  intros [_ ->]%place_Some Hd.
  unfold utility, winner. rewrite Hd. simpl. unfold MAX_turn.
  by destruct (_MAX_turn self).
Qed.

(** X4: marks never touch: in a state of a game, every square next to a mark,
    by a side or by a corner, is [BLOCKED], and every [BLOCKED] square is
    next to a mark. *)
Theorem marks_keep_distance s :
  reachable s ->
  (forall a b v w, touching a b ->
     square_at (_tiles s) a v -> is_mark v -> square_at (_tiles s) b w ->
     w = BLOCKED)
  /\ (forall b, square_at (_tiles s) b BLOCKED ->
        exists a v, touching a b /\ square_at (_tiles s) a v /\ is_mark v).
Proof. apply reachable_spaced. Qed.

(** X5: [__eq__] compares the grids only, and within games that is enough: two
    states of games with equal grids have the same player to move and the
    same [_open_cnt], and [place] answers the same on both. *)
Theorem eq_same_position (a b : ObstructionBoard N) :
  reachable a -> reachable b -> __eq__ a b = true ->
  MAX_turn a = MAX_turn b /\ _open_cnt a = _open_cnt b
  /\ forall row col, place a row col = place b row col.
Proof.
  intros Ha Hb Heq. unfold __eq__ in Heq. apply bool_decide_eq_true in Heq.
  pose proof (reachable_balanced a Ha) as Hba.
  pose proof (reachable_balanced b Hb) as Hbb.
  apply reachable_consistent in Ha as (_ & _ & _ & Hca).
  apply reachable_consistent in Hb as (_ & _ & _ & Hcb).
  unfold balanced in *. rewrite Heq in *.
  assert (Ht : _MAX_turn a = _MAX_turn b)
    by (destruct (_MAX_turn a), (_MAX_turn b); (done || lia)).
  assert (Hc : _open_cnt a = _open_cnt b) by congruence.
  split; [done|]. split; [done|]. intros row col.
  unfold place, block_around, block_row, block_square, height, width.
  by rewrite Heq, Ht, Hc.
Qed.

Lemma place_tiles_inj self row col row' col' (a b : ObstructionBoard N) :
  place self row col = Some a -> place self row' col' = Some b ->
  _tiles a = _tiles b -> (row, col) = (row', col').
Proof.
  intros [Hp ->]%place_Some [Hp' ->]%place_Some Heq. simpl in Heq.
  pose proof Hp as (Hr & Hc & Ho).
  assert (Hg : get_square (placed self row col).1 row col
               = Some (marker self)).
  { rewrite placed_get, decide_True by (done || lia). done. }
  rewrite Heq, placed_get in Hg by (done || lia).
  destruct (decide ((row, col) = (row', col'))) as [|Hne]; [done|].
  destruct (decide _); [|rewrite Ho in Hg];
    unfold marker in Hg; by destruct (_MAX_turn self).
Qed.

(** X6: two different moves from one state never give equal states: if
    [place] accepts two squares and the results are equal by [__eq__], the
    two squares are one. *)
Theorem moves_differ self row col row' col' (a b : ObstructionBoard N) :
  place self row col = Some a -> place self row' col' = Some b ->
  __eq__ a b = true -> (row, col) = (row', col').
Proof.
  intros Ha Hb Heq%bool_decide_eq_true. by eapply place_tiles_inj.
Qed.

End Games.

(** ** The theorems at concrete inputs *)

Lemma finished_board_reachable : reachable finished_board.
Proof.
  apply (reachable_place empty_board 0 0).
  - apply (reachable_create 2 2). reflexivity.
  - reflexivity.
Qed.

Lemma game_over_iff_no_move_witness :
  reachable finished_board
  /\ (done finished_board = true
      <-> forall row col, place finished_board row col = None).
Proof.
  split; [exact finished_board_reachable|].
  exact (proj1 (game_over_iff_no_move finished_board finished_board_reachable)).
Defined.

Lemma game_length_witness :
  (create 2 2 = Some empty_board
   /\ place_all empty_board [(0, 0)] = Some finished_board)
  /\ 2 * 2 <= 9 * Z.of_nat (length [(0, 0)]).
Proof.
  assert (H1 : create 2 2 = Some empty_board) by reflexivity.
  assert (H2 : place_all empty_board [(0, 0)] = Some finished_board)
    by reflexivity.
  split; [done|].
  destruct (game_length 2 2 _ _ _ H1 H2) as (_ & _ & _ & H).
  exact (H eq_refl).
Defined.

Lemma last_move_wins_witness :
  (place single_square 0 0 = Some won_board /\ done won_board = true)
  /\ winner won_board = Some MAX.
Proof.
  assert (H1 : place single_square 0 0 = Some won_board) by reflexivity.
  assert (H2 : done won_board = true) by reflexivity.
  split; [done|].
  exact (proj1 (last_move_wins single_square 0 0 _ H1 H2)).
Defined.

Lemma marks_keep_distance_witness :
  reachable finished_board
  /\ forall b, square_at (_tiles finished_board) b BLOCKED ->
       exists a v, touching a b /\ square_at (_tiles finished_board) a v
                   /\ is_mark v.
Proof.
  split; [exact finished_board_reachable|].
  exact (proj2 (marks_keep_distance finished_board finished_board_reachable)).
Defined.

Lemma eq_same_position_witness :
  (reachable row_board_a /\ reachable row_board_b
   /\ __eq__ row_board_a row_board_b = true)
  /\ MAX_turn row_board_a = MAX_turn row_board_b
  /\ _open_cnt row_board_a = _open_cnt row_board_b.
Proof.
  assert (H0 : reachable row_board)
    by (apply (reachable_create 5 1); reflexivity).
  assert (H1 : reachable row_board_a).
  { apply (place_all_reachable row_board [(0, 0); (0, 4); (0, 2)]);
      [exact H0|reflexivity]. }
  assert (H2 : reachable row_board_b).
  { apply (place_all_reachable row_board [(0, 2); (0, 4); (0, 0)]);
      [exact H0|reflexivity]. }
  assert (H3 : __eq__ row_board_a row_board_b = true) by reflexivity.
  split; [done|].
  destruct (eq_same_position row_board_a row_board_b H1 H2 H3) as (Ht & Hc & _).
  by split.
Defined.

Lemma moves_differ_witness :
  (place single_square 0 0 = Some won_board
   /\ __eq__ won_board won_board = true)
  /\ (0, 0) = (0, 0).
Proof.
  assert (H1 : place single_square 0 0 = Some won_board) by reflexivity.
  assert (H2 : __eq__ won_board won_board = true) by reflexivity.
  split; [done|].
  exact (moves_differ single_square 0 0 0 0 _ _ H1 H1 H2).
Defined.

(** * Further properties of the search *)

(** ** The children a loop appends *)

Lemma total_cons x l : total (x :: l) = x + total l.
Proof. done. Qed.

Lemma total_app l1 l2 : total (l1 ++ l2) = total l1 + total l2.
Proof.
  induction l1 as [|x l1 IH]; [done|].
  rewrite <- app_comm_cons, !total_cons. lia.
Qed.

Section Children.
Variable rec : Board -> NodeData -> option (Node * Z).
Variable D : NodeData -> Prop.
Hypothesis D_update : forall mt nd x, D nd -> D (update_ab mt nd x).

(** Every node the loop appends is what a recursive call returned for the
    next successor, with its utility read; the counts of the calls are
    added to the total. *)
Lemma children_loop l : forall st st' br,
  D (ls_data st) ->
  for_each (expand_child rec) l st = Some (st', br) ->
  exists ces : list (Node * Z),
    ls_node st' = ls_node st ++ (cached <$> ces.*1)
    /\ ls_total st' = ls_total st + total ces.*2
    /\ (length ces <= length l)%nat
    /\ Forall2 (fun ce m => exists nd, D nd /\ rec m (child nd) = Some ce)
         ces (take (length ces) l)
    /\ D (ls_data st').
Proof.
  induction l as [|m l IH]; intros st st' br Hd; simpl; intros Hrun.
  { injection Hrun as <- <-. exists []. simpl.
    rewrite app_nil_r. repeat split; (done || lia || constructor). }
  destruct (expand_child rec m st) as [[st1 b1]|] eqn:Hstep; [|done].
  assert (Hone : exists cn e, rec m (child (ls_data st)) = Some (cn, e)
            /\ ls_node st1 = ls_node st ++ [cached cn]
            /\ ls_total st1 = ls_total st + e /\ D (ls_data st1)).
  { unfold expand_child in Hstep.
    destruct (rec m (child (ls_data st))) as [[cn e]|]; [|done].
    exists cn, e. split; [done|]. unfold cached.
    destruct (utility (ls_state st)), (utility (node_state cn)).
    destruct (negb _ || _); [destruct (prune _)|];
      injection Hstep as <- <-; simpl; auto. }
  destruct Hone as (cn & e & Hrec & Hn1 & Ht1 & Hd1).
  assert (Hfirst : exists nd, D nd /\ rec m (child nd) = Some (cn, e)) by eauto.
  destruct b1.
  - injection Hrun as <- <-. exists [(cn, e)].
    split; [done|]. split; [rewrite Ht1; unfold total; simpl; lia|].
    split; [simpl; lia|]. split; [by constructor|done].
  - destruct (IH st1 st' br Hd1 Hrun) as (ces & Hn & Ht & Hlen & Hall & Hd').
    exists ((cn, e) :: ces).
    split; [by rewrite Hn, Hn1, <- app_assoc|].
    split; [rewrite Ht, Ht1, fmap_cons, total_cons; simpl; lia|].
    split; [simpl; lia|]. split; [by constructor|done].
Qed.

End Children.

Lemma update_ab_depth mt nd x : depth (update_ab mt nd x) = depth nd.
Proof.
  destruct nd as [d|d a b]; [by destruct mt|]. rewrite update_ab_ABData.
  by destruct mt.
Qed.

(** What a call that expands its state returns, in terms of the recursive
    calls on the successors. *)
Lemma base_minimax_children (D : NodeData -> Prop) fuel (s : Board) nd node
    cnt :
  (forall mt nd x, D nd -> D (update_ab mt nd x)) -> D nd ->
  _base_minimax (S fuel) s nd = Some (node, cnt) ->
  depth nd <> 0 -> done s = false ->
  exists ces : list (Node * Z),
    node_children node = cached <$> ces.*1
    /\ cnt = 1 + total ces.*2
    /\ (length ces <= length (moves s))%nat
    /\ Forall2 (fun ce m => exists nd',
                  D nd' /\ _base_minimax fuel m (child nd') = Some ce)
         ces (take (length ces) (moves s)).
Proof.
  intros HD Hnd. rewrite base_minimax_S. intros Hrun Hd Hdone.
  rewrite Hdone in Hrun.
  replace (depth nd =? 0) with false in Hrun by lia. simpl in Hrun.
  destruct (for_each _ _ _) as [[st b]|] eqn:Hloop; [|done].
  injection Hrun as <- <-.
  destruct (children_loop (_base_minimax fuel) D HD (moves s)
              (mkLoop (set_utility s (initial_utility (MAX_turn s))) [] 1 nd)
              st b Hnd Hloop)
    as (ces & Hn & Ht & Hlen & Hall & _).
  exists ces. by repeat split.
Qed.

Lemma base_minimax_leaf fuel (s : Board) nd node cnt :
  _base_minimax fuel s nd = Some (node, cnt) ->
  depth nd = 0 \/ done s = true -> node = mkNode s [] /\ cnt = 1.
Proof.
  destruct fuel as [|fuel]; [done|]. rewrite base_minimax_S.
  intros Hrun [Hd|Hd]; rewrite Hd in Hrun; simpl in Hrun;
    rewrite ?andb_false_r in Hrun; by simplify_eq.
Qed.

Lemma expanded_or_leaf (s : Board) nd :
  (depth nd <> 0 /\ done s = false) \/ (depth nd = 0 \/ done s = true).
Proof. destruct (decide (depth nd = 0)), (done s); auto. Qed.

(** ** The size and the height of the tree *)

Lemma tree_size_unfold n :
  tree_size n = 1 + total (tree_size <$> node_children n).
Proof.
  destruct n as [s cs]. simpl. f_equal.
  induction cs as [|c cs IH]; [done|]. simpl. by rewrite IH.
Qed.

Lemma tree_size_cached n : tree_size (cached n) = tree_size n.
Proof. by rewrite !tree_size_unfold. Qed.

Lemma tree_height_le n k :
  0 <= k -> Forall (fun c => 1 + tree_height c <= k) (node_children n) ->
  tree_height n <= k.
Proof.
  destruct n as [s cs]. simpl. intros Hk Hall.
  induction Hall as [|c cs Hc _ IH]; simpl; lia.
Qed.

Lemma tree_height_cached n : tree_height (cached n) = tree_height n.
Proof. by destruct n. Qed.

Lemma base_minimax_size fuel : forall (s : Board) nd n c,
  _base_minimax fuel s nd = Some (n, c) -> tree_size n = c.
Proof.
  induction fuel as [|fuel IH]; intros s nd n c Hrun; [done|].
  destruct (expanded_or_leaf s nd) as [[Hd Hdone]|Hleaf].
  2: { by destruct (base_minimax_leaf _ _ _ _ _ Hrun Hleaf) as [-> ->]. }
  destruct (base_minimax_children (fun _ => True) fuel s nd n c) as
    (ces & Hn & -> & _ & Hall); try done.
  rewrite tree_size_unfold, Hn. f_equal. f_equal.
  clear Hn Hrun.
  induction Hall as [|[cn e] m ces ms (nd' & _ & Hce) _ IH']; [done|].
  rewrite !fmap_cons, tree_size_cached, IH'. cbn [fst snd]. f_equal.
  by eapply IH.
Qed.

Lemma child_depth nd : depth (child nd) = depth nd - 1.
Proof. by destruct nd. Qed.

Lemma base_minimax_height fuel : forall (s : Board) nd n c,
  _base_minimax fuel s nd = Some (n, c) ->
  0 <= tree_height n <= Z.of_nat (count_square OPEN (_tiles s))
  /\ (0 <= depth nd -> tree_height n <= depth nd).
Proof.
  induction fuel as [|fuel IH]; intros s nd n c Hrun; [done|].
  destruct (expanded_or_leaf s nd) as [[Hd Hdone]|Hleaf].
  2: { destruct (base_minimax_leaf _ _ _ _ _ Hrun Hleaf) as [-> ->].
       simpl. lia. }
  destruct (base_minimax_children (fun nd' => depth nd' = depth nd)
              fuel s nd n c) as (ces & Hn & _ & _ & Hall); try done.
  { intros mt nd' x. by rewrite update_ab_depth. }
  assert (Hch : Forall (fun c =>
            0 <= tree_height c
            /\ 1 + tree_height c <= Z.of_nat (count_square OPEN (_tiles s))
            /\ (0 <= depth nd -> 1 + tree_height c <= depth nd))
            (node_children n)).
  { rewrite Hn. clear Hn Hrun.
    assert (Hin : Forall (fun m => m ∈ moves s) (take (length ces) (moves s))).
    { apply Forall_forall. intros m Hm. by eapply subseteq_take. }
    induction Hall as [|[cn e] m ces ms (nd' & Hnd' & Hce) _ IH']; [done|].
    apply Forall_cons in Hin as [Hm Hin].
    rewrite !fmap_cons. cbn [fst]. constructor; [|by apply IH'].
    rewrite tree_height_cached. apply IH in Hce as (Hh & Hdep).
    rewrite child_depth, Hnd' in Hdep. apply moves_count_open in Hm.
    split; [lia|]. split; [lia|]. intros ?. cut (0 <= depth nd - 1); lia. }
  assert (Hpos : 0 <= tree_height n).
  { destruct n as [s' cs]. simpl in *. clear Hn.
    induction Hch as [|x cs (? & _) _ IH']; simpl; lia. }
  split; [split; [done|]|].
  - apply tree_height_le; [lia|]. eapply Forall_impl; [done|]. simpl. tauto.
  - intros H0. apply tree_height_le; [done|].
    eapply Forall_impl; [done|]. simpl. tauto.
Qed.

(** ** The unpruned search against the minimax rule *)

Lemma update_ab_MM mt d nd x : MMData d = nd -> MMData d = update_ab mt nd x.
Proof. intros <-. by rewrite update_ab_MMData. Qed.

(** Without pruning a call that expands its state makes a child of every
    successor. *)
Lemma minimax_children fuel (s : Board) d node cnt :
  _base_minimax (S fuel) s (MMData d) = Some (node, cnt) ->
  d <> 0 -> done s = false ->
  exists ces : list (Node * Z),
    node_children node = cached <$> ces.*1
    /\ cnt = 1 + total ces.*2
    /\ Forall2 (fun ce m => _base_minimax fuel m (MMData (d - 1)) = Some ce)
         ces (moves s).
Proof.
  intros Hrun Hd Hdone.
  destruct (base_minimax_children (eq (MMData d)) fuel s (MMData d) node cnt)
    as (ces & Hn & Hc & Hlen & Hall); try done.
  { intros mt nd x. apply update_ab_MM. }
  destruct (base_minimax_explored _ _ _ _ _ Hrun Hd Hdone)
    as (_ & _ & Hstop & _).
  cbv zeta in Hstop. rewrite update_ab_MMData in Hstop. simpl in Hstop.
  assert (Hfull : length ces = length (moves s)).
  { rewrite Hn, !length_fmap in Hstop.
    destruct (decide (length ces < length (moves s))%nat) as [Hlt|]; [|lia].
    by specialize (Hstop Hlt). }
  exists ces. split; [done|]. split; [done|].
  rewrite Hfull, firstn_all in Hall.
  eapply Forall2_impl; [done|]. by intros ce m (nd' & <- & Hce).
Qed.

Lemma base_minimax_states fuel : forall (s : Board) d n c,
  _base_minimax fuel s (MMData d) = Some (n, c) -> c = states_within fuel d s.
Proof.
  induction fuel as [|fuel IH]; intros s d n c Hrun; [done|].
  destruct (expanded_or_leaf s (MMData d)) as [[Hd Hdone]|Hleaf];
    cbn [depth] in *.
  2: { destruct (base_minimax_leaf _ _ _ _ _ Hrun Hleaf) as [-> ->].
       simpl. destruct Hleaf as [->| ->]; by rewrite ?andb_false_r. }
  destruct (minimax_children fuel s d n c) as (ces & _ & -> & Hall); try done.
  cbn [states_within]. rewrite Hdone.
  replace (d =? 0) with false by lia. simpl. f_equal. f_equal. clear Hrun.
  induction Hall as [|[cn e] m ces ms Hce _ IH']; [done|].
  rewrite !fmap_cons, IH'. cbn [snd]. f_equal. by eapply IH.
Qed.

Lemma base_minimax_value fuel : forall (s : Board) d n c,
  _base_minimax fuel s (MMData d) = Some (n, c) ->
  root_utility n = minimax_value fuel d s.
Proof.
  induction fuel as [|fuel IH]; intros s d n c Hrun; [done|].
  destruct (expanded_or_leaf s (MMData d)) as [[Hd Hdone]|Hleaf];
    cbn [depth] in *.
  2: { destruct (base_minimax_leaf _ _ _ _ _ Hrun Hleaf) as [-> ->].
       simpl. destruct Hleaf as [->| ->]; by rewrite ?andb_false_r. }
  destruct (minimax_children fuel s d n c) as (ces & Hn & _ & Hall); try done.
  destruct (base_minimax_explored _ _ _ _ _ Hrun Hd Hdone)
    as (_ & _ & _ & _ & ->).
  cbn [minimax_value]. rewrite Hdone.
  replace (d =? 0) with false by lia. simpl. f_equal.
  rewrite Hn. clear Hn Hrun.
  induction Hall as [|[cn e] m ces ms Hce _ IH']; [done|].
  rewrite !fmap_cons, IH', root_utility_cached. cbn [fst]. f_equal.
  by eapply IH.
Qed.

(** Fuel above the number of [OPEN] squares is enough for the two
    reference functions as well. *)
Lemma minimax_value_fuel fuel : forall fuel' d (s : Board),
  (count_square OPEN (_tiles s) < fuel)%nat ->
  (count_square OPEN (_tiles s) < fuel')%nat ->
  minimax_value fuel d s = minimax_value fuel' d s.
Proof.
  induction fuel as [|fuel IH]; intros [|fuel'] d s Hf Hf'; try lia.
  simpl. destruct (negb _ && _); [|done]. f_equal.
  apply list_fmap_ext. intros i m Hm%list_elem_of_lookup_2%moves_count_open.
  apply IH; lia.
Qed.

Lemma states_within_fuel fuel : forall fuel' d (s : Board),
  (count_square OPEN (_tiles s) < fuel)%nat ->
  (count_square OPEN (_tiles s) < fuel')%nat ->
  states_within fuel d s = states_within fuel' d s.
Proof.
  induction fuel as [|fuel IH]; intros [|fuel'] d s Hf Hf'; try lia.
  simpl. destruct (negb _ && _); [|done]. f_equal. f_equal.
  apply list_fmap_ext. intros i m Hm%list_elem_of_lookup_2%moves_count_open.
  apply IH; lia.
Qed.

(** X7: the count a search returns is the number of nodes of the tree it
    returns; without pruning that is the number of states of the game at
    most [depth] moves away from the root, which is 1 at depth 0 and at a
    terminal state, and otherwise 1 plus the numbers for the successors one
    level less deep. *)
Theorem count_is_tree_size (s : Board) (d : Z) :
  let states d s := states_within (enough_fuel s) d s in
  states d s
  = (if negb (d =? 0) && negb (done s)
     then 1 + total (states (d - 1) <$> moves s) else 1)
  /\ exists tm cm ta ca,
       minimax s d = Some (tm, cm) /\ minimax_ab s d = Some (ta, ca)
       /\ tree_size tm = cm /\ tree_size ta = ca /\ cm = states d s.
Proof.
  intros states. split.
  - unfold states. unfold enough_fuel at 1. cbn [states_within].
    destruct (negb _ && _); [|done]. f_equal. f_equal.
    apply list_fmap_ext. intros i m Hm%list_elem_of_lookup_2%moves_count_open.
    apply states_within_fuel; unfold enough_fuel; lia.
  - destruct (search_returns s d) as (tm & cm & ta & ca & Hm & Ha).
    exists tm, cm, ta, ca. split; [done|]. split; [done|].
    split; [by eapply base_minimax_size|].
    split; [by eapply base_minimax_size|].
    by eapply base_minimax_states.
Qed.

(** X8: the tree a search returns is no higher than the depth asked for,
    when that is not negative, and no higher than the number of [OPEN]
    squares of the root in any case. *)
Theorem tree_height_bound (s : Board) (d : Z) :
  exists tm cm ta ca,
    minimax s d = Some (tm, cm) /\ minimax_ab s d = Some (ta, ca)
    /\ 0 <= tree_height tm <= Z.of_nat (count_square OPEN (_tiles s))
    /\ 0 <= tree_height ta <= Z.of_nat (count_square OPEN (_tiles s))
    /\ (0 <= d -> tree_height tm <= d /\ tree_height ta <= d).
Proof.
  destruct (search_returns s d) as (tm & cm & ta & ca & Hm & Ha).
  exists tm, cm, ta, ca. split; [done|]. split; [done|].
  destruct (base_minimax_height _ _ _ _ _ Hm) as [H1 H2].
  destruct (base_minimax_height _ _ _ _ _ Ha) as [H3 H4].
  simpl in *. auto.
Qed.

(** X9: both searches compute the value of the minimax rule: the root
    utility they return is the utility the root reads as when the depth is
    0 or the root is terminal, and otherwise the largest (MAX to move) or
    smallest (MIN to move) value of the successors searched one level less
    deep. *)
Theorem search_computes_minimax (s : Board) (d : Z) :
  let value d s := minimax_value (enough_fuel s) d s in
  value d s
  = (if negb (d =? 0) && negb (done s)
     then running_best (MAX_turn s) (value (d - 1) <$> moves s)
     else (utility s).1)
  /\ exists tm cm ta ca,
       minimax s d = Some (tm, cm) /\ minimax_ab s d = Some (ta, ca)
       /\ root_utility tm = value d s /\ root_utility ta = value d s.
Proof.
  intros value. split.
  - unfold value. unfold enough_fuel at 1. cbn [minimax_value].
    destruct (negb _ && _); [|done]. f_equal.
    apply list_fmap_ext. intros i m Hm%list_elem_of_lookup_2%moves_count_open.
    apply minimax_value_fuel; unfold enough_fuel; lia.
  - destruct (search_returns s d) as (tm & cm & ta & ca & Hm & Ha).
    exists tm, cm, ta, ca. split; [done|]. split; [done|].
    pose proof (base_minimax_value _ _ _ _ _ Hm) as Hv.
    split; [done|]. unfold value. rewrite <- Hv.
    destruct (pruning_bounded (enough_fuel s) s d NegInf Inf tm cm ta ca
                eq_refl Hm Ha) as [Hb _].
    by apply bounded_full.
Qed.

(** ** The child a state chooses *)

Lemma max_or_min_cases mt b u : max_or_min mt b u = b \/ max_or_min mt b u = u.
Proof.
  unfold max_or_min, number_max, number_min.
  destruct mt; [destruct (number_ltb b u)|destruct (number_ltb u b)]; auto.
Qed.

Lemma max_or_min_initial mt u : max_or_min mt (initial_utility mt) u = u.
Proof. by destruct mt, u. Qed.

Section Choice.
Variable rec : Board -> NodeData -> option (Node * Z).
Variable mt : bool.

(** A state that starts the loop without a chosen child ends it with no
    chosen child, or with one of the nodes the loop appended, whose utility
    is the one recorded for the state. *)
Lemma choice_loop l : forall st st' br,
  _MAX_turn (ls_state st) = mt ->
  (chosen_child (ls_state st) = None
   /\ _utility (ls_state st) = Some (initial_utility mt))
  \/ (exists c, chosen_child (ls_state st) = Some c /\ c ∈ ls_node st
                /\ _utility (ls_state st) = Some (root_utility c)) ->
  for_each (expand_child rec) l st = Some (st', br) ->
  forall c, chosen_child (ls_state st') = Some c ->
    c ∈ ls_node st' /\ _utility (ls_state st') = Some (root_utility c).
Proof.
  induction l as [|m l IH]; intros st st' br Hmt Hpre; simpl; intros Hrun.
  { injection Hrun as <- <-. intros c Hc.
    destruct Hpre as [[Hn _]|(c' & Hc' & Hin & Hu)]; [congruence|].
    by simplify_eq. }
  destruct (expand_child rec m st) as [[st1 b1]|] eqn:Hstep; [|done].
  assert (Hb : exists b, _utility (ls_state st) = Some b)
    by (destruct Hpre as [[_ ?]|(? & _ & _ & ?)]; eauto).
  destruct Hb as [b Hb].
  destruct (rec m (child (ls_data st))) as [[cn e]|] eqn:Hrec.
  2: { unfold expand_child in Hstep. by rewrite Hrec in Hstep. }
  rewrite (expand_child_Some _ _ _ _ _ _ Hb Hrec) in Hstep.
  cbv zeta in Hstep. rewrite Hmt in Hstep.
  set (temp := max_or_min mt b (root_utility cn)) in *.
  destruct (negb (bool_decide (temp = b))
            || bool_decide (chosen_child (ls_state st) = None)) eqn:Hcond.
  - assert (Htemp : temp = root_utility (cached cn)).
    { rewrite root_utility_cached.
      apply orb_true_iff in Hcond as [Hne|Hnone].
      - apply negb_true_iff, bool_decide_eq_false in Hne.
        by destruct (max_or_min_cases mt b (root_utility cn)).
      - apply bool_decide_eq_true in Hnone.
        destruct Hpre as [[_ Hu]|(? & ? & _)]; [|congruence].
        rewrite Hb in Hu. injection Hu as ->. apply max_or_min_initial. }
    injection Hstep as <- <-.
    destruct (prune _) eqn:Hp.
    + injection Hrun as <- <-. simpl. intros c Hc.
      destruct (negb (is_infinite temp)); simplify_eq/=.
      split; [|by rewrite Htemp]. apply elem_of_app. right. by left.
    + revert Hrun. apply IH; [done|]. right. simpl.
      exists (cached cn). split; [done|].
      split; [apply elem_of_app; right; by left|by rewrite Htemp].
  - injection Hstep as <- <-.
    revert Hrun. apply IH; [done|]. simpl.
    apply orb_false_iff in Hcond as [_ Hsome].
    apply bool_decide_eq_false in Hsome.
    destruct Hpre as [[? _]|(c' & Hc' & Hin & Hu)]; [done|]. right.
    exists c'. split; [done|]. split; [|done]. apply elem_of_app. by left.
Qed.

End Choice.

Lemma moves_fresh (s m : Board) :
  m ∈ moves s -> _utility m = None /\ chosen_child m = None.
Proof. by intros (i & j & _ & _ & [_ ->]%place_Some)%elem_of_moves. Qed.

Lemma game_tree_cached n : game_tree n -> game_tree (cached n).
Proof.
  intros Hn. destruct Hn as [s cs Hpos Hu Hc Hall]. unfold cached. simpl.
  constructor; try done.
  - by rewrite (moves_position _ s) by apply utility_position.
  - unfold utility. destruct (_utility s) eqn:E; simpl.
    + by rewrite E.
    + intros c Hcs. apply Hc in Hcs as [_ ?]. congruence.
Qed.

(** A search of a state that arrives without a chosen child returns a
    well-formed game tree. *)
Lemma base_minimax_game_tree fuel : forall (s : Board) nd n c,
  chosen_child s = None ->
  _base_minimax fuel s nd = Some (n, c) -> game_tree n.
Proof.
  induction fuel as [|fuel IH]; intros s nd n c Hfresh Hrun; [done|].
  destruct (expanded_or_leaf s nd) as [[Hd Hdone]|Hleaf].
  2: { destruct (base_minimax_leaf _ _ _ _ _ Hrun Hleaf) as [-> ->].
       constructor; try done. intros c'. by rewrite Hfresh. }
  destruct (base_minimax_children (fun _ => True) fuel s nd n c) as
    (ces & Hn & _ & _ & Hall); try done.
  destruct (base_minimax_explored _ _ _ _ _ Hrun Hd Hdone) as (Hpos & _).
  pose proof (base_minimax_position _ _ _ _ _ Hrun) as Hroot.
  assert (Hchoice : forall c', chosen_child (node_state n) = Some c' ->
            c' ∈ node_children n
            /\ _utility (node_state n) = Some (root_utility c')).
  { rewrite base_minimax_S, Hdone in Hrun.
    replace (depth nd =? 0) with false in Hrun by lia. simpl in Hrun.
    destruct (for_each _ _ _) as [[st b]|] eqn:Hloop; [|done].
    injection Hrun as <- <-. simpl.
    eapply (choice_loop _ (MAX_turn s)); [| |done]; [done|]. left. by simpl. }
  destruct n as [s' cs]. simpl in *. constructor; try done.
  - by rewrite (moves_position _ s).
  - rewrite Hn. apply Forall_fmap, Forall_forall. intros cn _. simpl.
    rewrite utility_cached. eauto.
  - rewrite Hn. clear Hn Hpos Hchoice Hrun.
    assert (Hin : Forall (fun m => m ∈ moves s) (take (length ces) (moves s))).
    { apply Forall_forall. intros m Hm. by eapply subseteq_take. }
    induction Hall as [|[cn e] m ces ms (nd' & _ & Hce) _ IH']; [done|].
    apply Forall_cons in Hin as [Hm Hin].
    rewrite !fmap_cons. cbn [fst]. constructor; [|by apply IH'].
    apply game_tree_cached. eapply IH; [|done].
    by apply moves_fresh in Hm as [_ ?].
Qed.

(** ** Pruning keeps the choice at the root *)

Lemma root_prune_absorbs mt d t :
  prune (update_ab mt (ABData d NegInf Inf) t) = true ->
  forall x, max_or_min mt t x = t.
Proof.
  rewrite update_ab_ABData. intros Hp x.
  destruct mt, t; try done; by destruct x.
Qed.

Lemma root_window_value mt d b v u a' b' :
  update_ab mt (ABData d NegInf Inf) b = ABData d a' b' ->
  bounded a' b' v u -> max_or_min mt b v = max_or_min mt b u.
Proof.
  rewrite update_ab_ABData. unfold bounded, max_or_min.
  destruct mt; intros [= <- <-]; number_order [b; v; u].
Qed.

Section RootChoice.
Variable rec : Board -> NodeData -> option (Node * Z).

Hypothesis rec_bounded : forall m d alpha beta nm cm na ca,
  number_ltb alpha beta = true ->
  rec m (MMData d) = Some (nm, cm) ->
  rec m (ABData d alpha beta) = Some (na, ca) ->
  bounded alpha beta (root_utility nm) (root_utility na) /\ 1 <= ca <= cm.

Hypothesis rec_position : forall m nd n c,
  rec m nd = Some (n, c) -> position (node_state n) = position m.

Variables (mt : bool) (d : Z).

(** Once the running utility cannot be improved, the unpruned loop keeps
    its utility and its choice. *)
Lemma settled_alone l stm stm' br t c0 :
  (forall x, max_or_min mt t x = t) ->
  _MAX_turn (ls_state stm) = mt ->
  _utility (ls_state stm) = Some t ->
  chosen_child (ls_state stm) = Some c0 ->
  for_each (expand_child rec) l stm = Some (stm', br) ->
  _utility (ls_state stm') = Some t /\ chosen_child (ls_state stm') = Some c0.
Proof.
  intros Habs Hmt Hu Hc Hrun.
  apply (for_each_invariant
           (fun st => _MAX_turn (ls_state st) = mt
                      /\ _utility (ls_state st) = Some t
                      /\ chosen_child (ls_state st) = Some c0)) in Hrun.
  - by destruct Hrun as (_ & ? & ?).
  - intros m st st' c _ (Hmt' & Hu' & Hc') Hstep.
    destruct (rec m (child (ls_data st))) as [[cn e]|] eqn:Hrec.
    2: { unfold expand_child in Hstep. by rewrite Hrec in Hstep. }
    rewrite (expand_child_Some _ _ _ _ _ _ Hu' Hrec) in Hstep.
    cbv zeta in Hstep. rewrite Hmt', Habs, Hc' in Hstep.
    rewrite bool_decide_eq_true_2 in Hstep by done. simpl in Hstep.
    by injection Hstep as <- <-.
  - done.
Qed.

(** The two loops at the root, side by side: they record the same utility
    and choose the child of the same successor. *)
Lemma root_lockstep l : forall stm sta stm' sta' brm bra b,
  ls_data stm = MMData d ->
  ls_data sta = update_ab mt (ABData d NegInf Inf) b ->
  prune (ls_data sta) = false ->
  _utility (ls_state stm) = Some b -> _utility (ls_state sta) = Some b ->
  _MAX_turn (ls_state stm) = mt -> _MAX_turn (ls_state sta) = mt ->
  (position ∘ node_state) <$> chosen_child (ls_state stm)
  = (position ∘ node_state) <$> chosen_child (ls_state sta) ->
  for_each (expand_child rec) l stm = Some (stm', brm) ->
  for_each (expand_child rec) l sta = Some (sta', bra) ->
  _utility (ls_state stm') = _utility (ls_state sta')
  /\ (position ∘ node_state) <$> chosen_child (ls_state stm')
     = (position ∘ node_state) <$> chosen_child (ls_state sta').
Proof.
  induction l as [|m l IH];
    intros stm sta stm' sta' brm bra b Hdm Hda Hp Hum Hua Hmm Hma Hch;
    simpl; intros Hrm Hra.
  { injection Hrm as <- <-. injection Hra as <- <-. by rewrite Hum, Hua. }
  destruct (expand_child rec m stm) as [[stm1 b1]|] eqn:Em; [|done].
  destruct (expand_child rec m sta) as [[sta1 b2]|] eqn:Ea; [|done].
  destruct (rec m (child (ls_data stm))) as [[cnm em]|] eqn:Hrecm.
  2: { unfold expand_child in Em. by rewrite Hrecm in Em. }
  destruct (rec m (child (ls_data sta))) as [[cna ea]|] eqn:Hreca.
  2: { unfold expand_child in Ea. by rewrite Hreca in Ea. }
  rewrite (expand_child_Some _ _ _ _ _ _ Hum Hrecm) in Em.
  rewrite (expand_child_Some _ _ _ _ _ _ Hua Hreca) in Ea.
  cbv zeta in Em, Ea. rewrite Hmm in Em. rewrite Hma in Ea.
  set (v := root_utility cnm) in *. set (u := root_utility cna) in *.
  assert (Hsame : max_or_min mt b v = max_or_min mt b u).
  { destruct (update_ab mt (ABData d NegInf Inf) b) as [?|d' a' b'] eqn:Hw.
    { rewrite update_ab_ABData in Hw. by destruct mt. }
    assert (d' = d) as ->.
    { rewrite update_ab_ABData in Hw. destruct mt; by injection Hw. }
    eapply root_window_value; [done|].
    rewrite Hdm in Hrecm. rewrite Hda in Hreca, Hp. simpl in Hrecm, Hreca, Hp.
    apply negb_false_iff in Hp. by eapply rec_bounded. }
  rewrite <- Hsame in Ea. set (t := max_or_min mt b v) in *.
  assert (Hnone : bool_decide (chosen_child (ls_state stm) = None)
                  = bool_decide (chosen_child (ls_state sta) = None)).
  { destruct (chosen_child (ls_state stm)), (chosen_child (ls_state sta));
      done. }
  rewrite <- Hnone in Ea.
  rewrite Hdm, update_ab_MMData in Em. simpl in Em.
  assert (Hagain : update_ab mt (update_ab mt (ABData d NegInf Inf) b) t
                   = update_ab mt (ABData d NegInf Inf) t)
    by apply update_ab_again.
  rewrite Hda, Hagain in Ea.
  assert (Hcm : position (node_state (cached cnm)) = position m)
    by (rewrite position_cached; by eapply rec_position).
  assert (Hca : position (node_state (cached cna)) = position m)
    by (rewrite position_cached; by eapply rec_position).
  destruct (negb (bool_decide (t = b)) || _).
  - injection Em as <- <-.
    destruct (prune (update_ab mt (ABData d NegInf Inf) t)) eqn:Hpt.
    + pose proof (root_prune_ABData _ _ _ Hpt) as Hinf.
      rewrite Hinf in Ea. simpl in Ea. injection Ea as <- <-.
      injection Hra as <- <-.
      eapply (settled_alone l _ stm' brm t (cached cnm)) in Hrm as [-> ->];
        [|by eapply root_prune_absorbs|done..].
      simpl in Hcm, Hca |- *. by rewrite Hcm, Hca.
    + simpl in Ea. injection Ea as <- <-.
      refine (IH _ _ stm' sta' brm bra t _ _ _ _ _ _ _ _ Hrm Hra); try done.
      simpl in Hcm, Hca |- *. by rewrite Hcm, Hca.
  - injection Em as <- <-. injection Ea as <- <-.
    refine (IH _ _ stm' sta' brm bra b _ _ _ _ _ _ _ _ Hrm Hra); try done.
    simpl. by rewrite <- Hda.
Qed.

End RootChoice.

Lemma base_minimax_same_choice fuel (s : Board) d tm cm ta ca :
  _base_minimax fuel s (MMData d) = Some (tm, cm) ->
  _base_minimax fuel s (ABData d NegInf Inf) = Some (ta, ca) ->
  (position ∘ node_state) <$> chosen_child (node_state tm)
  = (position ∘ node_state) <$> chosen_child (node_state ta).
Proof.
  destruct fuel as [|fuel]; [done|]. rewrite !base_minimax_S. simpl depth.
  destruct (negb _ && _); [|by intros [= <- _] [= <- _]].
  destruct (for_each _ _ _) as [[stm brm]|] eqn:Hrm; [|done].
  destruct (for_each _ _ {| ls_data := ABData _ _ _ |}) as [[sta bra]|] eqn:Hra;
    [|done].
  intros [= <- _] [= <- _]. simpl.
  eapply (root_lockstep (_base_minimax fuel) (pruning_bounded fuel)
            (base_minimax_position fuel) (MAX_turn s) d (moves s)
            (mkLoop (set_utility s (initial_utility (MAX_turn s))) [] 1
               (MMData d))
            (mkLoop (set_utility s (initial_utility (MAX_turn s))) [] 1
               (ABData d NegInf Inf))
            stm sta brm bra (initial_utility (MAX_turn s))); try done.
  simpl. by rewrite update_ab_initial.
Qed.

Lemma game_tree_choice (s : Board) tree :
  game_tree tree -> position (node_state tree) = position s ->
  forall c, chosen_child (node_state tree) = Some c ->
    c ∈ node_children tree /\ root_utility c = root_utility tree
    /\ exists row col m, place s row col = Some m
                         /\ position (node_state c) = position m.
Proof.
  intros Ht Hpos c Hc. destruct Ht as [s' cs Hcs _ Hch _]. simpl in *.
  destruct (Hch c Hc) as [Hin Hu]. split; [done|]. split.
  { unfold root_utility at 2. simpl. by rewrite (utility_Some _ _ Hu). }
  assert (Hp : position (node_state c) ∈ position <$> moves s).
  { rewrite <- (moves_position s' s) by done.
    eapply (subseteq_take (length cs)). rewrite <- fmap_take, <- Hcs.
    apply list_elem_of_fmap. by exists c. }
  apply list_elem_of_fmap in Hp as (m & Hm & Hin').
  apply elem_of_moves in Hin' as (row & col & _ & _ & Hplace). eauto.
Qed.

(** X10: with and without pruning the search chooses the same move for the
    root: the two chosen children hold the same position (the same grid,
    count, player to move and action), or neither search chose a child. *)
Theorem pruning_keeps_choice (s : Board) (d : Z) :
  exists tm cm ta ca,
    minimax s d = Some (tm, cm) /\ minimax_ab s d = Some (ta, ca)
    /\ (position ∘ node_state) <$> chosen_child (node_state tm)
       = (position ∘ node_state) <$> chosen_child (node_state ta).
Proof.
  destruct (search_returns s d) as (tm & cm & ta & ca & Hm & Ha).
  exists tm, cm, ta, ca. split; [done|]. split; [done|].
  by eapply base_minimax_same_choice.
Qed.

(** X11: a search to a depth other than 0 of a state that is not terminal,
    has a legal move and arrives without a chosen child leaves at the root a
    chosen child that is one of the children of the returned tree, holds the
    position of a legal successor of the root, and has the utility the
    search returns for the root. *)
Theorem chosen_child_is_best (s : Board) (d : Z) :
  chosen_child s = None -> d <> 0 -> done s = false ->
  (exists row col, is_Some (place s row col)) ->
  let best tree :=
    exists c, chosen_child (node_state tree) = Some c
      /\ c ∈ node_children tree /\ root_utility c = root_utility tree
      /\ exists row col m, place s row col = Some m
                           /\ position (node_state c) = position m in
  exists tm cm ta ca,
    minimax s d = Some (tm, cm) /\ minimax_ab s d = Some (ta, ca)
    /\ best tm /\ best ta.
Proof.
  intros Hfresh Hd Hdone Hmoves%moves_nonempty best.
  destruct (search_returns s d) as (tm & cm & ta & ca & Hm & Ha).
  exists tm, cm, ta, ca. split; [done|]. split; [done|].
  assert (Hcm : chosen_child (node_state tm) <> None)
    by (eapply chosen_at_root; [apply root_prune_MMData|done..]).
  assert (Hca : chosen_child (node_state ta) <> None)
    by (eapply chosen_at_root; [apply root_prune_ABData|done..]).
  split.
  - destruct (chosen_child (node_state tm)) as [c|] eqn:Hc; [|done].
    exists c. split; [done|].
    eapply game_tree_choice; [|by eapply base_minimax_position|done].
    by eapply base_minimax_game_tree.
  - destruct (chosen_child (node_state ta)) as [c|] eqn:Hc; [|done].
    exists c. split; [done|].
    eapply game_tree_choice; [|by eapply base_minimax_position|done].
    by eapply base_minimax_game_tree.
Qed.

(** X12: a search of a state that arrives without a chosen child returns a
    well-formed game tree over the position it was given: at every node the
    children hold, in order, the positions of the first legal successors,
    each with a utility recorded, and a chosen child is one of the children
    and has the utility recorded for the node. *)
Theorem search_builds_game_tree (s : Board) (d : Z) :
  chosen_child s = None ->
  exists tm cm ta ca,
    minimax s d = Some (tm, cm) /\ minimax_ab s d = Some (ta, ca)
    /\ game_tree tm /\ position (node_state tm) = position s
    /\ game_tree ta /\ position (node_state ta) = position s.
Proof.
  intros Hfresh.
  destruct (search_returns s d) as (tm & cm & ta & ca & Hm & Ha).
  exists tm, cm, ta, ca. split; [done|]. split; [done|].
  split; [by eapply base_minimax_game_tree|].
  split; [by eapply base_minimax_position|].
  split; [by eapply base_minimax_game_tree|].
  by eapply base_minimax_position.
Qed.

Lemma chosen_child_is_best_witness :
  (chosen_child single_square = None /\ 1 <> 0 /\ done single_square = false
   /\ exists row col, is_Some (place single_square row col))
  /\ exists tm cm c,
       minimax single_square 1 = Some (tm, cm)
       /\ chosen_child (node_state tm) = Some c
       /\ root_utility c = root_utility tm.
Proof.
  assert (H0 : chosen_child single_square = None) by reflexivity.
  assert (H1 : 1 <> 0) by lia.
  assert (H2 : done single_square = false) by reflexivity.
  assert (H3 : exists row col, is_Some (place single_square row col))
    by (exists 0, 0; vm_compute; eauto).
  split; [done|].
  destruct (chosen_child_is_best single_square 1 H0 H1 H2 H3)
    as (tm & cm & _ & _ & Hm & _ & (c & Hc & _ & Hu & _) & _).
  by exists tm, cm, c.
Defined.

Lemma search_builds_game_tree_witness :
  chosen_child single_square = None
  /\ exists tm cm, minimax single_square 1 = Some (tm, cm) /\ game_tree tm.
Proof.
  assert (H0 : chosen_child single_square = None) by reflexivity.
  split; [done|].
  destruct (search_builds_game_tree single_square 1 H0)
    as (tm & cm & _ & _ & Hm & _ & Ht & _).
  by exists tm, cm.
Defined.

Lemma tree_height_bound_witness :
  0 <= 1
  /\ exists tm cm, minimax single_square 1 = Some (tm, cm)
                   /\ tree_height tm <= 1.
Proof.
  assert (H : 0 <= 1) by lia. split; [exact H|].
  destruct (tree_height_bound single_square 1)
    as (tm & cm & ta & ca & Hm & _ & _ & _ & Hd).
  exists tm, cm. split; [exact Hm|]. exact (proj1 (Hd H)).
Defined.

(** ** Infinite utilities are forced wins *)

Lemma max_or_min_win p mt b x :
  max_or_min mt b x = win_utility p <->
  if Bool.eqb mt p then b = win_utility p \/ x = win_utility p
  else b = win_utility p /\ x = win_utility p.
Proof.
  unfold max_or_min, number_max, number_min, win_utility.
  destruct mt, p, b as [|bz|], x as [|xz|]; simpl;
    try destruct (bz <? xz); try destruct (xz <? bz);
    intuition congruence.
Qed.

Lemma foldl_win p mt us : forall b,
  foldl (max_or_min mt) b us = win_utility p <->
  if Bool.eqb mt p
  then b = win_utility p \/ Exists (fun u => u = win_utility p) us
  else b = win_utility p /\ Forall (fun u => u = win_utility p) us.
Proof.
  induction us as [|u us IH]; intros b; simpl.
  - destruct (Bool.eqb mt p).
    + rewrite Exists_nil. tauto.
    + split; [by split|by intros [? _]].
  - pose proof (max_or_min_win p mt b u) as Hstep.
    specialize (IH (max_or_min mt b u)).
    destruct (Bool.eqb mt p).
    + rewrite IH, Exists_cons, Hstep. tauto.
    + rewrite IH, Forall_cons, Hstep. tauto.
Qed.

Lemma running_best_win p mt us :
  running_best mt us = win_utility p <->
  if Bool.eqb mt p then Exists (fun u => u = win_utility p) us
  else Forall (fun u => u = win_utility p) us.
Proof.
  unfold running_best. rewrite foldl_win.
  destruct mt, p; simpl; unfold win_utility; intuition congruence.
Qed.

Lemma minimax_value_win p fuel : forall d (s : Board),
  _utility s = None -> (count_square OPEN (_tiles s) < fuel)%nat ->
  minimax_value fuel d s = win_utility p <-> forced_win p fuel d s.
Proof.
  induction fuel as [|fuel IH]; intros d s Hfresh Hfuel; [lia|].
  cbn [minimax_value forced_win]. destruct (done s) eqn:Hdone.
  { rewrite andb_false_r. unfold utility, winner. rewrite Hfresh, Hdone.
    simpl. unfold win_utility. destruct (_MAX_turn s), p; simpl;
      intuition congruence. }
  destruct (d =? 0) eqn:Hd; simpl.
  { unfold utility, winner. rewrite Hfresh, Hdone. simpl.
    unfold _evaluate_node, win_utility. by destruct p. }
  rewrite running_best_win. unfold MAX_turn.
  assert (Hmoves : forall m, m ∈ moves s ->
            minimax_value fuel (d - 1) m = win_utility p
            <-> forced_win p fuel (d - 1) m).
  { intros m Hm. apply IH; [by apply moves_fresh in Hm as [? _]|].
    apply moves_count_open in Hm. lia. }
  destruct (Bool.eqb (_MAX_turn s) p).
  - rewrite Exists_fmap. rewrite !Exists_exists.
    split; intros (m & Hm & Hw); exists m; (split; [done|]); by apply Hmoves.
  - rewrite Forall_fmap. rewrite !Forall_forall.
    split; intros Hall m Hm; by apply Hmoves, Hall.
Qed.

Lemma forced_win_fuel p fuel : forall fuel' d (s : Board),
  (count_square OPEN (_tiles s) < fuel)%nat ->
  (count_square OPEN (_tiles s) < fuel')%nat ->
  forced_win p fuel d s <-> forced_win p fuel' d s.
Proof.
  induction fuel as [|fuel IH]; intros [|fuel'] d s Hf Hf'; try lia.
  cbn [forced_win]. destruct (done s); [done|]. destruct (d =? 0); [done|].
  assert (Hmoves : forall m, m ∈ moves s ->
            forced_win p fuel (d - 1) m <-> forced_win p fuel' (d - 1) m).
  { intros m Hm%moves_count_open. apply IH; lia. }
  destruct (Bool.eqb _ _).
  - rewrite !Exists_exists.
    split; intros (m & Hm & Hw); exists m; (split; [done|]); by apply Hmoves.
  - rewrite !Forall_forall. split; intros Hall m Hm; by apply Hmoves, Hall.
Qed.

(** X13: an infinite utility is a proven win.  For a state that arrives
    without a utility, the root utility both searches return is [inf]
    exactly when MAX has a forced win from it within [depth] moves, and
    [-inf] exactly when MIN has one: the state is terminal and the last
    move was that player's, or the depth is not 0 and the player, to move,
    has a successor with a forced win one level less deep, or the other
    player, to move, has only such successors. *)
Theorem infinite_utility_is_forced_win (s : Board) (d : Z) :
  _utility s = None ->
  let wins p d s := forced_win p (enough_fuel s) d s in
  (forall p,
     wins p d s <->
     if done s then _MAX_turn s = negb p
     else if d =? 0 then False
     else if Bool.eqb (_MAX_turn s) p
          then exists m, m ∈ moves s /\ wins p (d - 1) m
          else forall m, m ∈ moves s -> wins p (d - 1) m)
  /\ exists tm cm ta ca,
       minimax s d = Some (tm, cm) /\ minimax_ab s d = Some (ta, ca)
       /\ root_utility ta = root_utility tm
       /\ (root_utility tm = Inf <-> wins true d s)
       /\ (root_utility tm = NegInf <-> wins false d s).
Proof.
  intros Hfresh wins. split.
  - intros p. unfold wins. unfold enough_fuel at 1. cbn [forced_win].
    destruct (done s); [done|]. destruct (d =? 0); [done|].
    assert (Hmoves : forall m, m ∈ moves s ->
              forced_win p (count_square OPEN (_tiles s)) (d - 1) m
              <-> forced_win p (enough_fuel m) (d - 1) m).
    { intros m Hm%moves_count_open.
      apply forced_win_fuel; unfold enough_fuel; lia. }
    destruct (Bool.eqb _ _).
    + rewrite Exists_exists.
      split; intros (m & Hm & Hw); exists m; (split; [done|]); by apply Hmoves.
    + rewrite Forall_forall. split; intros Hall m Hm; by apply Hmoves, Hall.
  - destruct (search_returns s d) as (tm & cm & ta & ca & Hm & Ha).
    exists tm, cm, ta, ca. split; [done|]. split; [done|].
    pose proof (base_minimax_value _ _ _ _ _ Hm) as Hv.
    split; [|split].
    + destruct (pruning_bounded (enough_fuel s) s d NegInf Inf tm cm ta ca
                  eq_refl Hm Ha) as [Hb _].
      by apply bounded_full.
    + rewrite Hv. apply (minimax_value_win true); [done|].
      unfold enough_fuel. lia.
    + rewrite Hv. apply (minimax_value_win false); [done|].
      unfold enough_fuel. lia.
Qed.

Lemma infinite_utility_is_forced_win_witness :
  _utility single_square = None
  /\ exists tm cm,
       minimax single_square 1 = Some (tm, cm)
       /\ (root_utility tm = Inf
           <-> forced_win true (enough_fuel single_square) 1 single_square).
Proof.
  assert (H : _utility single_square = None) by reflexivity.
  split; [exact H|].
  destruct (infinite_utility_is_forced_win single_square 1 H)
    as (_ & tm & cm & ta & ca & Hm & _ & _ & Hw & _).
  by exists tm, cm.
Defined.

(** ** Termination of the two searches *)

Lemma minimax_depth_zero (s : Board) nd :
  depth nd = 0 -> _base_minimax (enough_fuel s) s nd = Some (mkNode s [], 1).
Proof.
  intros Hd. unfold enough_fuel. rewrite base_minimax_S, Hd. done.
Qed.

Section Appends.
Variable rec : Board -> NodeData -> option (Node * Z).

Lemma expand_child_appends m st st1 b :
  expand_child rec m st = Some (st1, b) ->
  exists cn, ls_node st1 = ls_node st ++ [cn].
Proof.
  unfold expand_child.
  destruct (rec m (child (ls_data st))) as [[cn e]|]; [|done].
  destruct (utility (ls_state st)), (utility (node_state cn)).
  destruct (negb _ || _); [destruct (prune _)|];
    intros [= <- <-]; simpl; eauto.
Qed.

Lemma loop_keeps_children l : forall st st' br,
  for_each (expand_child rec) l st = Some (st', br) ->
  ls_node st <> [] -> ls_node st' <> [].
Proof.
  induction l as [|m l IH]; intros st st' br; simpl.
  { by intros [= <- <-]. }
  destruct (expand_child rec m st) as [[st1 b1]|] eqn:Hstep; [|done].
  apply expand_child_appends in Hstep as [cn Hn]. intros Hrun Hst.
  assert (Hst1 : ls_node st1 <> []).
  { rewrite Hn. by destruct (ls_node st). }
  destruct b1; [by injection Hrun as <- <-|by eapply IH].
Qed.

(** The first successor always becomes a child: the loop asks for a prune
    only after it has appended one. *)
Lemma loop_appends m l st st' br :
  for_each (expand_child rec) (m :: l) st = Some (st', br) ->
  ls_node st' <> [].
Proof.
  simpl.
  destruct (expand_child rec m st) as [[st1 b1]|] eqn:Hstep; [|done].
  apply expand_child_appends in Hstep as [cn Hn]. intros Hrun.
  assert (Hst1 : ls_node st1 <> []).
  { rewrite Hn. by destruct (ls_node st). }
  destruct b1; [by injection Hrun as <- <-|by eapply loop_keeps_children].
Qed.

End Appends.

Lemma expanded_children_nonempty fuel (s : Board) nd node cnt :
  _base_minimax fuel s nd = Some (node, cnt) ->
  depth nd <> 0 -> done s = false -> moves s <> [] ->
  node_children node <> [].
Proof.
  destruct fuel as [|fuel]; [done|]. rewrite base_minimax_S.
  intros Hrun Hd Hdone Hmoves. rewrite Hdone in Hrun.
  replace (depth nd =? 0) with false in Hrun by lia. simpl in Hrun.
  destruct (for_each _ _ _) as [[st b]|] eqn:Hloop; [|done].
  injection Hrun as <- <-. cbn [node_children].
  destruct (moves s) as [|m l]; [done|]. by eapply loop_appends.
Qed.

Lemma searched_to_end_cached n : searched_to_end n -> searched_to_end (cached n).
Proof.
  intros [s cs Hleaf Hall]. unfold cached. cbn [node_state node_children].
  constructor; [|done]. intros Hcs. specialize (Hleaf Hcs).
  unfold utility. by destruct (_utility s).
Qed.

(** A search with a negative depth stops at terminal states only. *)
Lemma base_minimax_to_end fuel : forall (s : Board) nd n c,
  depth nd < 0 -> consistent s ->
  _base_minimax fuel s nd = Some (n, c) -> searched_to_end n.
Proof.
  induction fuel as [|fuel IH]; intros s nd n c Hneg Hcs Hrun; [done|].
  destruct (expanded_or_leaf s nd) as [[Hd Hdone]|Hleaf].
  2: { destruct (base_minimax_leaf _ _ _ _ _ Hrun Hleaf) as [-> ->].
       destruct Hleaf as [Hz|Hdone]; [lia|]. by constructor. }
  assert (Hne : node_children n <> []).
  { eapply expanded_children_nonempty; try done.
    by apply moves_nonempty, consistent_move. }
  destruct (base_minimax_children (fun nd' => depth nd' = depth nd)
              fuel s nd n c) as (ces & Hn & _ & _ & Hall); try done.
  { intros mt nd' x. by rewrite update_ab_depth. }
  destruct n as [s' cs]. cbn [node_children] in *.
  constructor; [done|]. rewrite Hn. clear Hn Hne Hrun.
  assert (Hin : Forall (fun m => m ∈ moves s) (take (length ces) (moves s))).
  { apply Forall_forall. intros m Hm. by eapply subseteq_take. }
  induction Hall as [|[cn e] m ces ms (nd' & Hnd' & Hce) _ IH']; [done|].
  apply Forall_cons in Hin as [Hm Hin].
  rewrite !fmap_cons. cbn [fst]. constructor; [|by apply IH'].
  apply searched_to_end_cached. eapply IH; [| |done].
  - rewrite child_depth. lia.
  - apply elem_of_moves in Hm as (i & j & _ & _ & Hp).
    by eapply place_consistent.
Qed.

(** With a negative depth the minimax rule never reads a heuristic value. *)
Lemma minimax_value_infinite fuel : forall d (s : Board),
  d < 0 -> _utility s = None -> (count_square OPEN (_tiles s) < fuel)%nat ->
  is_infinite (minimax_value fuel d s) = true.
Proof.
  induction fuel as [|fuel IH]; intros d s Hd Hfresh Hfuel; [lia|].
  cbn [minimax_value]. replace (d =? 0) with false by lia.
  destruct (done s) eqn:Hdone; simpl.
  { unfold utility, winner. rewrite Hfresh, Hdone. simpl.
    by destruct (_MAX_turn s). }
  assert (Hall : Forall (fun u => is_infinite u = true)
                   (minimax_value fuel (d - 1) <$> moves s)).
  { apply Forall_fmap, Forall_forall. intros m Hm. simpl.
    apply IH; [lia|by apply moves_fresh in Hm as [? _]|].
    apply moves_count_open in Hm. lia. }
  unfold running_best.
  assert (H0 : is_infinite (initial_utility (MAX_turn s)) = true)
    by (by destruct (MAX_turn s)).
  revert H0. generalize (initial_utility (MAX_turn s)) as b.
  induction Hall as [|u us Hu _ IH']; intros b Hb; [done|].
  simpl. apply IH'.
  destruct (max_or_min_cases (MAX_turn s) b u) as [-> | ->]; done.
Qed.

(** C10: every successful [place] strictly decreases [_open_cnt]; both
    searches return for every state and every integer depth, with any fuel
    above the number of [OPEN] squares and with the same result; a negative
    depth gives the search of every depth that cannot reach 0 (any other
    negative depth, any depth above the number of [OPEN] squares), and, on a
    state that is not terminal and has a legal move, not the search of
    depth 0; on a valid state a negative depth searches down to the end of
    the game: every node without children in the two trees holds a terminal
    state, and the root utilities (for a root that arrives without one) are
    [inf] or [-inf], never a heuristic value. *)
Theorem search_terminates (s : Board) (d : Z) :
  (forall row col s', place s row col = Some s' -> _open_cnt s' < _open_cnt s)
  /\ (exists r, minimax s d = Some r
        /\ forall fuel, (count_square OPEN (_tiles s) < fuel)%nat ->
             _base_minimax fuel s (MMData d) = Some r)
  /\ (exists r, minimax_ab s d = Some r
        /\ forall fuel, (count_square OPEN (_tiles s) < fuel)%nat ->
             _base_minimax fuel s (ABData d NegInf Inf) = Some r)
  /\ (d < 0 ->
      forall d', d' < 0 \/ Z.of_nat (count_square OPEN (_tiles s)) < d' ->
        minimax s d = minimax s d' /\ minimax_ab s d = minimax_ab s d')
  /\ (d < 0 -> done s = false -> moves s <> [] ->
      minimax s d <> minimax s 0 /\ minimax_ab s d <> minimax_ab s 0)
  /\ (d < 0 -> consistent s ->
      exists tm cm ta ca,
        minimax s d = Some (tm, cm) /\ minimax_ab s d = Some (ta, ca)
        /\ searched_to_end tm /\ searched_to_end ta
        /\ (_utility s = None ->
            is_infinite (root_utility tm) = true
            /\ is_infinite (root_utility ta) = true)).
Proof.
  destruct (search_returns s d) as (tm & cm & ta & ca & Hm & Ha).
  split; [|split; [|split; [|split; [|split]]]].
  - intros row col s' [Hp ->]%place_Some. simpl.
    destruct (placed_count s row col Hp) as (-> & _). lia.
  - exists (tm, cm). split; [done|]. intros fuel Hf.
    by rewrite base_minimax_enough.
  - exists (ta, ca). split; [done|]. intros fuel Hf.
    by rewrite base_minimax_enough.
  - intros Hd d' Hd'. unfold minimax, minimax_ab.
    split; apply (depth_irrelevant _ _ _ _ (count_square OPEN (_tiles s)));
      try done; unfold never_cut; simpl; lia.
  - intros Hd Hdone Hmoves. unfold minimax, minimax_ab in *.
    rewrite (minimax_depth_zero s (MMData 0)),
      (minimax_depth_zero s (ABData 0 NegInf Inf)) by done.
    rewrite Hm, Ha.
    split; intros [= Hn _].
    + eapply (expanded_children_nonempty _ s (MMData d)); try done.
      * simpl; lia.
      * by rewrite Hn.
    + eapply (expanded_children_nonempty _ s (ABData d NegInf Inf)); try done.
      * simpl; lia.
      * by rewrite Hn.
  - intros Hd Hcs. exists tm, cm, ta, ca. split; [done|]. split; [done|].
    split; [by eapply (base_minimax_to_end _ s (MMData d))|].
    split; [by eapply (base_minimax_to_end _ s (ABData d NegInf Inf))|].
    intros Hfresh.
    assert (Hinf : is_infinite (root_utility tm) = true).
    { rewrite (base_minimax_value _ _ _ _ _ Hm).
      apply minimax_value_infinite; [done|done|]. unfold enough_fuel. lia. }
    split; [done|].
    destruct (pruning_bounded (enough_fuel s) s d NegInf Inf tm cm ta ca
                eq_refl Hm Ha) as [Hb _].
    by rewrite (bounded_full _ _ Hb).
Qed.

Lemma row_board_consistent : consistent row_board.
Proof.
  unfold consistent. split; [vm_compute; congruence|].
  split; [vm_compute; congruence|]. split; [repeat constructor|reflexivity].
Qed.

Lemma search_terminates_witness :
  (-1 < 0 /\ done row_board = false /\ moves row_board <> []
   /\ consistent row_board /\ _utility row_board = None)
  /\ minimax row_board (-1) <> minimax row_board 0
  /\ minimax_ab row_board (-1) <> minimax_ab row_board 0
  /\ exists tm cm ta ca,
       minimax row_board (-1) = Some (tm, cm)
       /\ minimax_ab row_board (-1) = Some (ta, ca)
       /\ searched_to_end tm /\ searched_to_end ta
       /\ is_infinite (root_utility tm) = true
       /\ is_infinite (root_utility ta) = true.
Proof.
  assert (H1 : -1 < 0) by lia.
  assert (H2 : done row_board = false) by reflexivity.
  assert (H3 : moves row_board <> []) by (by vm_compute).
  assert (H4 : consistent row_board) by exact row_board_consistent.
  assert (H5 : _utility row_board = None) by reflexivity.
  split; [exact (conj H1 (conj H2 (conj H3 (conj H4 H5))))|].
  destruct (search_terminates row_board (-1)) as (_ & _ & _ & _ & Hzero & Hend).
  destruct (Hzero H1 H2 H3) as [Hm Ha].
  destruct (Hend H1 H4) as (tm & cm & ta & ca & Htm & Hta & Hem & Hea & Hinf).
  destruct (Hinf H5) as [Him Hia].
  split; [exact Hm|]. split; [exact Ha|]. exists tm, cm, ta, ca.
  exact (conj Htm (conj Hta (conj Hem (conj Hea (conj Him Hia))))).
Defined.

(** ** The text of a board *)

Lemma append_length (a b : string) :
  String.length (a +:+ b) = (String.length a + String.length b)%nat.
Proof. induction a as [|x a IH]; simpl; [done|]. by rewrite IH. Qed.

Lemma append_inj_length (a a' b b' : string) :
  String.length a = String.length a' ->
  a +:+ b = a' +:+ b' -> a = a' /\ b = b'.
Proof.
  revert a'. induction a as [|x a IH]; intros [|x' a']; simpl; try done.
  intros [= Hlen] [= -> Heq]. destruct (IH a' Hlen Heq) as [-> ->]. done.
Qed.

Lemma append_inv_head (a b b' : string) : a +:+ b = a +:+ b' -> b = b'.
Proof. intros H. by apply (append_inj_length a a b b'). Qed.

Lemma Square_str_length v : String.length (Square_str v) = 1%nat.
Proof. by destruct v. Qed.

Lemma Square_str_inj v w : Square_str v = Square_str w -> v = w.
Proof. by destruct v, w. Qed.

Lemma join_cons sep x y l :
  join sep (x :: y :: l) = x +:+ sep +:+ join sep (y :: l).
Proof. done. Qed.

Lemma row_text_length (r r' : list Square) :
  length r = length r' ->
  String.length (join " " (Square_str <$> r))
  = String.length (join " " (Square_str <$> r')).
Proof.
  revert r'. induction r as [|x r IH]; intros [|x' r']; try done.
  intros [= Hlen]. destruct r as [|y r], r' as [|y' r']; try done.
  - simpl. by rewrite !Square_str_length.
  - rewrite !fmap_cons, !join_cons, !append_length, !Square_str_length.
    rewrite <- !fmap_cons. by rewrite (IH (y' :: r')).
Qed.

Lemma row_text_inj (r r' : list Square) :
  length r = length r' ->
  join " " (Square_str <$> r) = join " " (Square_str <$> r') -> r = r'.
Proof.
  revert r'. induction r as [|x r IH]; intros [|x' r']; try done.
  intros [= Hlen]. destruct r as [|y r], r' as [|y' r']; try done.
  - simpl. by intros ->%Square_str_inj.
  - rewrite !fmap_cons, !join_cons. rewrite <- !fmap_cons.
    intros Heq. apply append_inj_length in Heq as [->%Square_str_inj Heq];
      [|by rewrite !Square_str_length].
    apply append_inv_head in Heq. f_equal. by apply IH.
Qed.

Lemma rows_text_inj (t t' : list (list Square)) : forall g : nat -> string,
  shape t = shape t' ->
  join newline
    (imap (fun i row => g i +:+ " " +:+ join " " (Square_str <$> row)) t)
  = join newline
      (imap (fun i row => g i +:+ " " +:+ join " " (Square_str <$> row)) t') ->
  t = t'.
Proof.
  revert t'. induction t as [|r t IH]; intros [|r' t'] g; try done.
  intros [= Hlen Hshape].
  assert (Hline : forall b b' : string,
            (g 0%nat +:+ " " +:+ join " " (Square_str <$> r)) +:+ b
            = (g 0%nat +:+ " " +:+ join " " (Square_str <$> r')) +:+ b' ->
            r = r' /\ b = b').
  { intros b b' Heq. apply append_inj_length in Heq as [Heq ->].
    - split; [|done]. apply row_text_inj; [done|].
      by do 2 apply append_inv_head in Heq.
    - rewrite !append_length. by rewrite (row_text_length r r'). }
  destruct t as [|r1 t], t' as [|r1' t']; try done.
  - cbn [imap join]. intros Heq. do 2 apply append_inv_head in Heq.
    f_equal. by apply row_text_inj.
  - rewrite !(imap_cons _ r), !(imap_cons _ r'). 
    set (f := fun i row => g i +:+ " " +:+ join " " (Square_str <$> row)).
    set (l := imap (f ∘ S) (r1 :: t)). set (l' := imap (f ∘ S) (r1' :: t')).
    assert (Hl : exists x xs, l = x :: xs) by (by eexists _, _).
    assert (Hl' : exists x xs, l' = x :: xs) by (by eexists _, _).
    destruct Hl as (x & xs & Hx), Hl' as (x' & xs' & Hx').
    rewrite Hx, Hx', !join_cons, <- Hx, <- Hx'. intros Heq.
    destruct (Hline _ _ Heq) as [-> Hrest]. f_equal.
    apply append_inv_head in Hrest.
    by apply (IH (r1' :: t') (g ∘ S)).
Qed.

(** X14: the text of a board shows every square: two boards of the same
    dimensions with the same text by [__str__] have the same squares. *)
Theorem str_shows_squares (a b : Board) :
  shape (_tiles a) = shape (_tiles b) -> __str__ a = __str__ b ->
  _tiles a = _tiles b.
Proof.
  intros Hshape. unfold __str__.
  destruct (width_shape b (_tiles a) Hshape) as [Hw _]. fold (width a) in Hw.
  rewrite Hw. intros Heq. do 3 apply append_inv_head in Heq.
  by apply (rows_text_inj _ _ (fun i => pretty i)).
Qed.

Lemma str_shows_squares_witness :
  (shape (_tiles row_board_a) = shape (_tiles row_board_b)
   /\ __str__ row_board_a = __str__ row_board_b)
  /\ _tiles row_board_a = _tiles row_board_b.
Proof.
  assert (H1 : shape (_tiles row_board_a) = shape (_tiles row_board_b))
    by reflexivity.
  assert (H2 : __str__ row_board_a = __str__ row_board_b) by reflexivity.
  split; [done|]. exact (str_shows_squares row_board_a row_board_b H1 H2).
Defined.

(** * Properties of the driver *)

(** ** The command line *)

Lemma SIZE_STRINGS_eq : _SIZE_STRINGS = ["6*6"; "6*7"; "7*8"; "8*8"].
Proof. reflexivity. Qed.

Lemma size_lookup (size_str : string) :
  match index size_str _SIZE_STRINGS with
  | Some i =>
      exists size, _SIZES !! i = Some size /\ size ∈ _SIZES
        /\ size_str = pretty size.1 +:+ "*" +:+ pretty size.2
        /\ is_Some (create (N:=Node) size.1 size.2)
  | None => size_str ∉ ["6*6"; "6*7"; "7*8"; "8*8"]
  end.
Proof.
  rewrite SIZE_STRINGS_eq. unfold index, _SIZES.
  repeat (case_decide;
    [subst size_str; cbn; eexists; (split; [reflexivity|]);
     (split; [rewrite !elem_of_cons; auto|]); (split; [reflexivity|]);
     vm_compute; eauto|]).
  cbn. rewrite !elem_of_cons, elem_of_nil.
  intros [?|[?|[?|[?|[]]]]]; congruence.
Qed.

Lemma player_text (player : string) :
  player ∈ ["1"; "2"] ->
  player = if bool_decide (player = "1") then "1" else "2".
Proof.
  rewrite !elem_of_cons, elem_of_nil. intros [->|[->|[]]]; by case_bool_decide.
Qed.

(** X15: [_parse_args] raises RuntimeError exactly when there are not three
    arguments after the program name, ValueError when there are three and
    the player is not 1 or 2, the search not MM or AB, or the size not one
    of the four sizes, and no other exception; the tuple it returns holds
    the arguments as they were given, the search of that name at the
    lookahead depth, and the size the text denotes, for which [create]
    succeeds. *)
Theorem parse_args_spec (argv : list string) :
  match _parse_args argv with
  | inl (RuntimeError _) => length argv <> 4%nat
  | inl (ValueError _) =>
      exists prog player name size_str,
        argv = [prog; player; name; size_str]
        /\ (player ∉ ["1"; "2"] \/ name ∉ ["MM"; "AB"]
            \/ size_str ∉ ["6*6"; "6*7"; "7*8"; "8*8"])
  | inl _ => False
  | inr (ai_first, algorithm, algorithm_name, size, size_str) =>
      exists prog,
        argv = [prog; if ai_first then "1" else "2"; algorithm_name; size_str]
        /\ (algorithm_name, algorithm) ∈ _ALGORITHMS
        /\ size ∈ _SIZES
        /\ size_str = pretty size.1 +:+ "*" +:+ pretty size.2
        /\ is_Some (create (N:=Node) size.1 size.2)
  end.
Proof.
  unfold _parse_args.
  destruct argv as [|prog [|player [|name [|size_str [|x argv]]]]]; try done.
  cbn [length Nat.eqb negb lookup list_lookup].
  case_bool_decide as Hplayer; cbn [negb].
  2: { exists prog, player, name, size_str. auto. }
  unfold dict_get, _ALGORITHMS. cbn [List.find fst].
  case_bool_decide as Hmm; [subst name|case_bool_decide as Hab; [subst name|]];
    cbn [fmap option_fmap option_map snd].
  - pose proof (size_lookup size_str) as Hsize.
    destruct (index size_str _SIZE_STRINGS) as [i|].
    + destruct Hsize as (size & -> & Hin & Hstr & Hcreate).
      exists prog. split; [|split; [rewrite !elem_of_cons; auto|done]].
      apply player_text in Hplayer. congruence.
    + exists prog, player, "MM", size_str. auto.
  - pose proof (size_lookup size_str) as Hsize.
    destruct (index size_str _SIZE_STRINGS) as [i|].
    + destruct Hsize as (size & -> & Hin & Hstr & Hcreate).
      exists prog. split; [|split; [rewrite !elem_of_cons; auto|done]].
      apply player_text in Hplayer. congruence.
    + exists prog, player, "AB", size_str. auto.
  - exists prog, player, name, size_str. split; [done|]. right; left.
    rewrite !elem_of_cons, elem_of_nil. intros [?|[?|[]]]; congruence.
Qed.

(** ** The tree during a game *)

Lemma consistent_position (a b : Board) :
  position a = position b -> consistent a -> consistent b.
Proof.
  destruct a, b. unfold position. simpl. by intros [= -> -> -> ->].
Qed.

Lemma moves_tiles_inj (s m1 m2 : Board) :
  m1 ∈ moves s -> m2 ∈ moves s -> _tiles m1 = _tiles m2 -> m1 = m2.
Proof.
  intros (i & j & _ & _ & H1)%elem_of_moves (i' & j' & _ & _ & H2)%elem_of_moves
    Heq.
  pose proof (place_tiles_inj _ _ _ _ _ _ _ H1 H2 Heq) as [= -> ->]. congruence.
Qed.

Lemma place_in_moves (s m : Board) row col :
  place s row col = Some m -> m ∈ moves s.
Proof.
  intros Hp. apply elem_of_moves. exists row, col.
  pose proof Hp as [(? & ? & _) _]%place_Some. auto.
Qed.

Lemma game_tree_children tree c :
  game_tree tree -> c ∈ node_children tree ->
  game_tree c
  /\ exists m, m ∈ moves (node_state tree)
               /\ position (node_state c) = position m.
Proof.
  intros Ht Hin. destruct Ht as [s cs Hcs _ _ Hall]. simpl in *.
  split; [by eapply (proj1 (Forall_forall _ _) Hall)|].
  assert (Hp : position (node_state c) ∈ position <$> moves s).
  { eapply (subseteq_take (length cs)). rewrite <- fmap_take, <- Hcs.
    apply list_elem_of_fmap. by exists c. }
  apply list_elem_of_fmap in Hp as (m & Hm & Hin'). eauto.
Qed.

Lemma position_tiles (a b : Board) :
  position a = position b -> _tiles a = _tiles b.
Proof. unfold position. by intros [= -> _ _ _]. Qed.

(** What [_find_child] answers for a legal move on a well-formed tree. *)
Lemma find_child_cases tree row col move :
  game_tree tree -> place (node_state tree) row col = Some move ->
  match _find_child tree move with
  | Some c => c ∈ node_children tree /\ position (node_state c) = position move
  | None => forall c, c ∈ node_children tree ->
              position (node_state c) <> position move
  end.
Proof.
  intros Ht Hp%place_in_moves. unfold _find_child.
  destruct (List.find _ _) as [c|] eqn:Hfind.
  - apply find_some in Hfind as [Hin%list_elem_of_In Heq].
    split; [done|]. unfold __eq__ in Heq. apply bool_decide_eq_true in Heq.
    destruct (game_tree_children _ _ Ht Hin) as (_ & m & Hm & Hpos).
    rewrite Hpos. f_equal. apply (moves_tiles_inj (node_state tree)); try done.
    rewrite <- (position_tiles _ _ Hpos). done.
  - intros c Hin%list_elem_of_In Hpos.
    apply (find_none _ _ Hfind) in Hin. unfold __eq__ in Hin.
    apply bool_decide_eq_false in Hin. apply Hin.
    symmetry. by apply position_tiles.
Qed.

(** X16: on a well-formed tree, the node [_find_child] returns for the
    result of a legal move is a child that holds the position of that move;
    it returns [None] only when no child holds it, so never when the node
    has a child for every legal successor. *)
Theorem find_child_spec tree row col move :
  game_tree tree -> place (node_state tree) row col = Some move ->
  match _find_child tree move with
  | Some c => c ∈ node_children tree /\ position (node_state c) = position move
  | None =>
      (forall c, c ∈ node_children tree ->
         position (node_state c) <> position move)
      /\ (length (node_children tree) < length (moves (node_state tree)))%nat
  end.
Proof.
  intros Ht Hp. pose proof (find_child_cases tree row col move Ht Hp) as Hfind.
  destruct (_find_child tree move) as [c|]; [done|]. split; [done|].
  destruct Ht as [s cs Hcs _ _ _]. simpl in *.
  destruct (decide (length cs < length (moves s))%nat) as [|Hge]; [done|].
  exfalso. rewrite take_ge in Hcs by lia.
  assert (Hin : position move ∈ (position ∘ node_state) <$> cs).
  { rewrite Hcs. apply list_elem_of_fmap. exists move. split; [done|].
    by eapply place_in_moves. }
  apply list_elem_of_fmap in Hin as (c & Hc & Hin). by apply (Hfind c).
Qed.

(** ** The turn of the AI *)

Lemma algorithms_search name algorithm (s : Board) :
  (name, algorithm) ∈ _ALGORITHMS ->
  algorithm s = _base_minimax (enough_fuel s) s (MMData _LOOKAHEAD_DEPTH)
  \/ algorithm s
     = _base_minimax (enough_fuel s) s (ABData _LOOKAHEAD_DEPTH NegInf Inf).
Proof.
  unfold _ALGORITHMS. rewrite !elem_of_cons, elem_of_nil.
  intros [[= -> ->]|[[= -> ->]|[]]]; auto.
Qed.

(** A search of the driver on a state that is not terminal and has no chosen
    child returns a well-formed tree whose root has one. *)
Lemma algorithms_choose name algorithm (s : Board) :
  (name, algorithm) ∈ _ALGORITHMS ->
  consistent s -> done s = false -> chosen_child s = None ->
  exists found cnt next,
    algorithm s = Some (found, cnt) /\ game_tree found
    /\ position (node_state found) = position s
    /\ chosen_child (node_state found) = Some next.
Proof.
  intros Halg Hcons Hdone Hfresh.
  assert (Hmoves : moves s <> []) by (by apply moves_nonempty, consistent_move).
  assert (Hany : forall nd,
            (forall b, prune (update_ab (MAX_turn s) nd b) = true ->
                       is_infinite b = true) ->
            depth nd = _LOOKAHEAD_DEPTH ->
            exists found cnt next,
              _base_minimax (enough_fuel s) s nd = Some (found, cnt)
              /\ game_tree found /\ position (node_state found) = position s
              /\ chosen_child (node_state found) = Some next).
  { intros nd Hroot Hd.
    destruct (base_minimax_total (enough_fuel s) s nd) as [[found cnt] Hrun];
      [unfold enough_fuel; lia|].
    assert (Hc : chosen_child (node_state found) <> None).
    { eapply chosen_at_root; try done. by rewrite Hd. }
    destruct (chosen_child (node_state found)) as [next|] eqn:Hnext; [|done].
    exists found, cnt, next. split; [done|].
    split; [by eapply base_minimax_game_tree|].
    split; [by eapply base_minimax_position|done]. }
  destruct (algorithms_search name algorithm s Halg) as [-> | ->].
  - apply Hany; [apply root_prune_MMData|done].
  - apply Hany; [apply root_prune_ABData|done].
Qed.

Lemma play_ai_turn_next name algorithm tree :
  (name, algorithm) ∈ _ALGORITHMS ->
  game_tree tree -> consistent (node_state tree) ->
  done (node_state tree) = false ->
  exists next row col m,
    (forall c, _play_ai_turn tree (fun state => fst <$> algorithm state) c
               = Returns (Some next) c)
    /\ game_tree next
    /\ place (node_state tree) row col = Some m
    /\ position (node_state next) = position m.
Proof.
  intros Halg Ht Hcons Hdone. unfold _play_ai_turn.
  destruct (chosen_child (node_state tree)) as [next|] eqn:Hc.
  - destruct (game_tree_choice (node_state tree) tree Ht eq_refl next Hc)
      as (Hin & _ & row & col & m & Hp & Hpos).
    exists next, row, col, m. split; [done|].
    split; [by apply (game_tree_children tree)|done].
  - destruct (algorithms_choose name algorithm (node_state tree))
      as (found & cnt & next & -> & Hfound & Hroot & Hnext); try done.
    simpl. rewrite Hnext.
    destruct (game_tree_choice (node_state tree) found Hfound Hroot next Hnext)
      as (Hin & _ & row & col & m & Hp & Hpos).
    exists next, row, col, m. split; [done|].
    split; [by apply (game_tree_children found)|done].
Qed.

(** X17: in a game that is not over, the turn of the AI always gives a node
    to move to: [_play_ai_turn] returns the child the tree has chosen, or,
    if it has none, the one a new search from the current state chooses; it
    is never [None], it is a well-formed tree again, and it holds the
    position of a legal successor of the current state. *)
Theorem ai_turn_moves name algorithm tree c :
  (name, algorithm) ∈ _ALGORITHMS ->
  game_tree tree -> consistent (node_state tree) ->
  done (node_state tree) = false ->
  exists next row col m,
    _play_ai_turn tree (fun state => fst <$> algorithm state) c
    = Returns (Some next) c
    /\ game_tree next
    /\ place (node_state tree) row col = Some m
    /\ position (node_state next) = position m.
Proof.
  intros Halg Ht Hcons Hdone.
  destruct (play_ai_turn_next name algorithm tree Halg Ht Hcons Hdone)
    as (next & row & col & m & Hrun & Hrest).
  exists next, row, col, m. by rewrite Hrun.
Qed.

(** ** The turn of the human *)

Section Human.
Variable int : string -> option Z.

Ltac rejects :=
  exists None; eexists;
  split; [cbv [print mbind IO_bind mret IO_ret stdin stdout];
          rewrite <- ?app_assoc; reflexivity|].

Lemma get_human_move_eof tree out :
  _get_human_move int tree (mkConsole [] out)
  = Returns None
      (mkConsole [] (out ++ ["Enter your move in the format row/column: "])).
Proof. reflexivity. Qed.

(** One call on a line of input: the line is consumed, the output grows, and
    a state is returned exactly when the line names a legal move. *)
Lemma get_human_move_line tree line rest out :
  exists r out',
    _get_human_move int tree (mkConsole (line :: rest) out)
    = Returns r (mkConsole rest (out ++ out'))
    /\ forall move,
         r = Some move <-> names_move int (node_state tree) line move.
Proof.
  unfold _get_human_move, input, names_move. cbn [stdin stdout].
  destruct (split "/" line) as [|a [|b [|x l]]] eqn:Hsplit;
    cbn [length Nat.eqb negb].
  1,2,4: (exists None; eexists; split; [reflexivity|]; intros move;
          split; [done|]; by intros (? & ? & ? & ? & ? & _)).
  cbn [lookup list_lookup mbind option_bind].
  destruct (int a) as [row|] eqn:Ha.
  2: { rejects. intros move.
       split; [done|]. intros (? & ? & ? & ? & ? & ? & _). congruence. }
  destruct (int b) as [col|] eqn:Hb.
  2: { rejects. intros move.
       split; [done|]. intros (? & ? & ? & ? & ? & ? & ? & _). congruence. }
  assert (Honly : forall move,
            (exists a0 b0 row0 col0,
               [a; b] = [a0; b0] /\ int a0 = Some row0 /\ int b0 = Some col0
               /\ place (node_state tree) row0 col0 = Some move)
            <-> place (node_state tree) row col = Some move).
  { intros move. split.
    - intros (? & ? & ? & ? & [= <- <-] & ? & ? & ?). congruence.
    - intros ?. by exists a, b, row, col. }
  destruct (in_range row (height (node_state tree))) eqn:Hrow; cbn [negb].
  2: { rejects. intros move.
       rewrite Honly. split; [done|].
       intros [(Hr & _) _]%place_Some. apply in_range_true in Hr. congruence. }
  destruct (in_range col (width (node_state tree))) eqn:Hcol; cbn [negb].
  2: { rejects. intros move.
       rewrite Honly. split; [done|].
       intros [(_ & Hc & _) _]%place_Some. apply in_range_true in Hc.
       congruence. }
  destruct (place (node_state tree) row col) as [m|] eqn:Hp.
  - exists (Some m), ["Enter your move in the format row/column: "].
    split; [done|]. intros move. rewrite Honly. done.
  - rejects. intros move.
    rewrite Honly. done.
Qed.

Lemma ask_endless tree lines out :
  (forall line, line ∈ lines ->
     forall move, ~ names_move int (node_state tree) line move) ->
  ask int tree lines out = Endless.
Proof.
  revert out. induction lines as [|line lines IH]; intros out Hno.
  - done.
  - destruct (get_human_move_line tree line lines out)
      as (r & out' & Hrun & Hr).
    cbn [ask]. rewrite Hrun. destruct r as [move|].
    + exfalso. apply (Hno line ltac:(by left) move). by apply Hr.
    + apply IH. intros l Hl. apply Hno. by right.
Qed.

Lemma ask_returns tree rejected line rest move out :
  (forall l, l ∈ rejected ->
     forall mv, ~ names_move int (node_state tree) l mv) ->
  names_move int (node_state tree) line move ->
  exists out',
    ask int tree (rejected ++ line :: rest) out
    = Returns move (mkConsole rest (out ++ out')).
Proof.
  revert out. induction rejected as [|l rejected IH]; intros out Hno Hyes.
  - destruct (get_human_move_line tree line rest out) as (r & out' & Hrun & Hr).
    apply Hr in Hyes as ->. exists out'. cbn [app ask]. by rewrite Hrun.
  - destruct (get_human_move_line tree l (rejected ++ line :: rest) out)
      as (r & out' & Hrun & Hr).
    cbn [app ask]. rewrite Hrun. destruct r as [mv|].
    + exfalso. apply (Hno l ltac:(by left) mv). by apply Hr.
    + cbn [stdout]. destruct (IH (out ++ out')) as [out'' Hrec]; [|done|].
      { intros l' Hl'. apply Hno. by right. }
      exists (out' ++ out''). by rewrite Hrec, app_assoc.
Qed.

Lemma fresh_leaf_game_tree (s m : Board) row col :
  place s row col = Some m -> game_tree (mkNode m []).
Proof.
  intros [_ ->]%place_Some. by constructor.
Qed.

Lemma play_human_turn_endless tree c :
  (forall line, line ∈ stdin c ->
     forall move, ~ names_move int (node_state tree) line move) ->
  _play_human_turn int tree c = Endless.
Proof. intros Hno. unfold _play_human_turn. by rewrite ask_endless. Qed.

Lemma ask_cases tree lines out :
  match ask int tree lines out with
  | Returns move c =>
      (exists row col, place (node_state tree) row col = Some move)
      /\ (exists out', stdout c = out ++ out')
      /\ exists rejected line,
           lines = rejected ++ line :: stdin c
           /\ (forall l, l ∈ rejected ->
                 forall mv, ~ names_move int (node_state tree) l mv)
           /\ names_move int (node_state tree) line move
  | Endless =>
      forall line, line ∈ lines ->
        forall move, ~ names_move int (node_state tree) line move
  | Raises _ _ | OutOfFuel => False
  end.
Proof.
  revert out. induction lines as [|line lines IH]; intros out.
  { cbn [ask]. rewrite get_human_move_eof. intros l Hl.
    by apply elem_of_nil in Hl. }
  destruct (get_human_move_line tree line lines out) as (r & out' & Hrun & Hr).
  cbn [ask]. rewrite Hrun. destruct r as [move|].
  - pose proof (proj1 (Hr move) eq_refl) as Hyes.
    pose proof Hyes as (a & b & row & col & _ & _ & _ & Hp).
    split; [by exists row, col|]. split; [by exists out'|].
    exists [], line. cbn [stdin app]. split; [done|]. split; [|done].
    intros l Hl. by apply elem_of_nil in Hl.
  - cbn [stdout]. specialize (IH (out ++ out')).
    destruct (ask int tree lines (out ++ out')) as [move c| | |]; [|done| |done].
    + destruct IH as (Hp & [out'' Hout] & rejected & line' & Hlines & Hno
                      & Hyes).
      split; [done|].
      split; [exists (out' ++ out''); by rewrite Hout, app_assoc|].
      exists (line :: rejected), line'.
      split; [cbn [app]; by rewrite <- Hlines|]. split; [|done].
      intros l [->|Hl]%elem_of_cons mv Hmv; [|by apply (Hno l Hl mv)].
      by apply Hr in Hmv.
    + intros l [->|Hl]%elem_of_cons mv Hmv; [|by apply (IH l Hl mv)].
      by apply Hr in Hmv.
Qed.

(** What a turn of the human comes to, whatever the input. *)
Lemma play_human_turn_cases tree c :
  game_tree tree ->
  match _play_human_turn int tree c with
  | Returns next c' =>
      game_tree next
      /\ (exists row col m, place (node_state tree) row col = Some m
                            /\ position (node_state next) = position m)
      /\ (exists out, stdout c' = stdout c ++ out)
      /\ forall out, exists out',
           _play_human_turn int tree (mkConsole (stdin c) out)
           = Returns next (mkConsole (stdin c') (out ++ out'))
  | Endless =>
      forall line, line ∈ stdin c ->
        forall move, ~ names_move int (node_state tree) line move
  | Raises _ _ | OutOfFuel => False
  end.
Proof.
  intros Ht. unfold _play_human_turn.
  pose proof (ask_cases tree (stdin c) (stdout c)) as Hask.
  destruct (ask int tree (stdin c) (stdout c)) as [move c'| | |]; try done.
  destruct Hask as ((row & col & Hp) & Hout & rejected & line & Hlines & Hno
                    & Hyes).
  assert (Hagain : forall out, exists out',
            ask int tree (stdin c) out
            = Returns move (mkConsole (stdin c') (out ++ out'))).
  { intros out. rewrite Hlines. by apply ask_returns. }
  pose proof (find_child_cases tree row col move Ht Hp) as Hfind.
  destruct (_find_child tree move) as [t|] eqn:Hfc.
  - destruct Hfind as [Hc Hpos]. split; [by apply (game_tree_children tree)|].
    split; [by exists row, col, move|]. split; [done|].
    intros out. destruct (Hagain out) as [out' Hrun]. exists out'.
    cbn [stdin stdout]. by rewrite Hrun, Hfc.
  - split; [by eapply fresh_leaf_game_tree|].
    split; [by exists row, col, move|]. split; [done|].
    intros out. destruct (Hagain out) as [out' Hrun]. exists out'.
    cbn [stdin stdout]. by rewrite Hrun, Hfc.
Qed.

(** X18: a turn of the human never raises.  It never ends if no line of the
    input names a legal move; otherwise it returns at the first line that
    does, with the input after that line left to read, and the node it
    returns is a well-formed tree that holds the position of that move: the
    child of the current node for it, or a new leaf. *)
Theorem human_turn_spec tree c :
  game_tree tree ->
  ((forall line, line ∈ stdin c ->
      forall move, ~ names_move int (node_state tree) line move) ->
   _play_human_turn int tree c = Endless)
  /\ (forall rejected line rest move,
        stdin c = rejected ++ line :: rest ->
        (forall l, l ∈ rejected ->
           forall mv, ~ names_move int (node_state tree) l mv) ->
        names_move int (node_state tree) line move ->
        exists next out',
          _play_human_turn int tree c
          = Returns next (mkConsole rest (stdout c ++ out'))
          /\ position (node_state next) = position move
          /\ game_tree next
          /\ (next ∈ node_children tree \/ next = mkNode move [])).
Proof.
  intros Ht. split; [apply play_human_turn_endless|].
  intros rejected line rest move Hin Hno Hyes.
  unfold _play_human_turn. rewrite Hin.
  destruct (ask_returns tree rejected line rest move (stdout c) Hno Hyes)
    as [out' ->].
  destruct Hyes as (a & b & row & col & _ & _ & _ & Hp).
  pose proof (find_child_cases tree row col move Ht Hp) as Hfind.
  destruct (_find_child tree move) as [t|].
  - exists t, out'. split; [done|]. destruct Hfind as [Hc Hpos].
    split; [done|]. split; [by apply (game_tree_children tree)|by left].
  - exists (mkNode move []), out'. split; [done|]. split; [done|].
    split; [by eapply fresh_leaf_game_tree|by right].
Qed.

End Human.

(** ** The game *)

Lemma show_move_next next ai_turn c :
  is_Some (_action (node_state next)) ->
  exists out,
    _show_move (Some next) ai_turn c
    = Returns () (mkConsole (stdin c) (stdout c ++ out)).
Proof.
  intros [[row col] Ha]. unfold _show_move, action. rewrite Ha.
  cbv [print mbind IO_bind mret IO_ret _format_action stdin stdout].
  eexists. rewrite <- !app_assoc. reflexivity.
Qed.

(** A node that holds the position of a legal successor keeps what the game
    loop relies on. *)
Lemma successor_node (s m : Board) next row col (fuel : nat) :
  consistent s -> place s row col = Some m ->
  position (node_state next) = position m ->
  (count_square OPEN (_tiles s) < S fuel)%nat ->
  consistent (node_state next)
  /\ (count_square OPEN (_tiles (node_state next)) < fuel)%nat
  /\ _MAX_turn (node_state next) = negb (_MAX_turn s)
  /\ is_Some (_action (node_state next)).
Proof.
  intros Hcons Hp Hpos Hfuel.
  split; [|split; [|split]].
  - apply (consistent_position m); [done|]. by eapply place_consistent.
  - rewrite (position_tiles _ _ Hpos).
    apply place_count_open in Hp. lia.
  - rewrite (position_MAX_turn _ _ Hpos).
    by apply place_Some in Hp as [_ ->].
  - unfold position in Hpos. injection Hpos as _ _ _ ->.
    by apply place_Some in Hp as [_ ->].
Qed.

Section Game.
Variable int : string -> option Z.

Lemma turns_runs name algorithm ai_first ai_msg human_msg fuel :
  forall tree ai_turn c,
  (name, algorithm) ∈ _ALGORITHMS ->
  game_tree tree -> consistent (node_state tree) ->
  (count_square OPEN (_tiles (node_state tree)) < fuel)%nat ->
  _MAX_turn (node_state tree) = Bool.eqb ai_turn ai_first ->
  match turns int fuel (fun state => fst <$> algorithm state)
          ai_msg human_msg tree ai_turn c with
  | Returns (tree', ai_turn') c' =>
      done (node_state tree') = true
      /\ _MAX_turn (node_state tree') = Bool.eqb ai_turn' ai_first
      /\ (exists out, stdout c' = stdout c ++ out)
      /\ game_reaches int (fun state => fst <$> algorithm state)
           tree ai_turn (stdin c) tree' ai_turn' (stdin c')
  | Endless =>
      exists tree' lines',
        game_reaches int (fun state => fst <$> algorithm state)
          tree ai_turn (stdin c) tree' false lines'
        /\ done (node_state tree') = false
        /\ forall line, line ∈ lines' ->
             forall move, ~ names_move int (node_state tree') line move
  | Raises _ _ | OutOfFuel => False
  end.
Proof.
  induction fuel as [|fuel IH]; intros tree ai_turn c Halg Ht Hcons Hfuel Hturn;
    [lia|].
  cbn [turns]. destruct (done (node_state tree)) eqn:Hdone; cbn [negb].
  { split; [done|]. split; [done|].
    split; [exists []; by rewrite app_nil_r|constructor]. }
  assert (Hnext : forall next row col m c1,
            game_tree next -> place (node_state tree) row col = Some m ->
            position (node_state next) = position m ->
            (exists out, stdout c1 = stdout c ++ out) ->
            (forall tree' ai_turn' lines',
               game_reaches int (fun state => fst <$> algorithm state)
                 next (negb ai_turn) (stdin c1) tree' ai_turn' lines' ->
               game_reaches int (fun state => fst <$> algorithm state)
                 tree ai_turn (stdin c) tree' ai_turn' lines') ->
            match
              (_show_move (Some next) ai_turn;;
               turns int fuel (fun state => fst <$> algorithm state)
                 ai_msg human_msg next (negb ai_turn)) c1
            with
            | Returns (tree', ai_turn') c' =>
                done (node_state tree') = true
                /\ _MAX_turn (node_state tree') = Bool.eqb ai_turn' ai_first
                /\ (exists out, stdout c' = stdout c ++ out)
                /\ game_reaches int (fun state => fst <$> algorithm state)
                     tree ai_turn (stdin c) tree' ai_turn' (stdin c')
            | Endless =>
                exists tree' lines',
                  game_reaches int (fun state => fst <$> algorithm state)
                    tree ai_turn (stdin c) tree' false lines'
                  /\ done (node_state tree') = false
                  /\ forall line, line ∈ lines' ->
                       forall move,
                         ~ names_move int (node_state tree') line move
            | Raises _ _ | OutOfFuel => False
            end).
  { intros next row col m c1 Hgt Hp Hpos [out1 Hout1] Hstep.
    destruct (successor_node _ _ next _ _ fuel Hcons Hp Hpos Hfuel)
      as (Hcons' & Hfuel' & Hturn' & Hact).
    destruct (show_move_next next ai_turn c1 Hact) as [out2 Hshow].
    unfold mbind, IO_bind. rewrite Hshow.
    assert (Hturn2 : _MAX_turn (node_state next)
                     = Bool.eqb (negb ai_turn) ai_first).
    { rewrite Hturn', Hturn. by destruct ai_turn, ai_first. }
    specialize (IH next (negb ai_turn)
                  (mkConsole (stdin c1) (stdout c1 ++ out2)) Halg Hgt Hcons'
                  Hfuel' Hturn2).
    destruct (turns _ _ _ _ _ _ _ _) as [[tree' ai_turn'] c'| | |];
      [|done| |done].
    - destruct IH as (Hd & Hm & [out3 Hout3] & Hreach).
      split; [done|]. split; [done|]. split; [|by apply Hstep].
      exists (out1 ++ out2 ++ out3).
      rewrite Hout3. cbn [stdout]. rewrite Hout1, <- !app_assoc. done.
    - destruct IH as (tree' & lines' & Hreach & Hd & Hno).
      exists tree', lines'. split; [by apply Hstep|done]. }
  destruct ai_turn.
  - unfold mbind at 1, IO_bind at 1. unfold mbind at 1, IO_bind at 1.
    unfold print at 1.
    destruct (play_ai_turn_next name algorithm tree Halg Ht Hcons Hdone)
      as (next & row & col & m & Hrun & Hgt & Hp & Hpos).
    rewrite Hrun.
    apply (Hnext next row col m _ Hgt Hp Hpos); [by eexists|].
    intros tree' ai_turn' lines' Hreach. cbn [stdin negb] in Hreach.
    by eapply game_ai_turn.
  - unfold mbind at 1, IO_bind at 1. unfold mbind at 1, IO_bind at 1.
    unfold print at 1. unfold mbind at 1, IO_bind at 1.
    pose proof (play_human_turn_cases int tree
                  (mkConsole (stdin c)
                     (stdout c ++ [join " " [human_msg] +:+ newline])) Ht)
      as Hhuman.
    destruct (_play_human_turn _ _ _) as [next c1| | |]; [|done| |done].
    + destruct Hhuman as (Hgt & (row & col & m & Hp & Hpos) & [out1 Hout1]
                          & Hagain).
      unfold mret at 1, IO_ret at 1.
      apply (Hnext next row col m _ Hgt Hp Hpos).
      * exists ([join " " [human_msg] +:+ newline] ++ out1).
        rewrite Hout1. cbn [stdout]. by rewrite <- app_assoc.
      * intros tree' ai_turn' lines' Hreach. cbn [stdin negb] in Hreach, Hagain.
        by eapply game_human_turn.
    + exists tree, (stdin c). split; [constructor|]. split; [done|].
      exact Hhuman.
Qed.

(** X19: a game started as [main] starts it, on the tree the chosen search
    returns for a new board, never raises an exception and needs no more
    turns than the board has squares.  [play] returns when the turns taken
    one after the other, of the AI and of the human, lead to a terminal
    state; it has then written, as its last two lines, that the game is
    complete and who won, the AI or the human, with the mark of that player:
    O for the one who moved first.  [play] never ends only when the input
    runs out: the turns lead to a state that is not terminal where it is the
    turn of the human and no line left to read names a legal move. *)
Theorem play_completes name algorithm (ai_first : bool) (w h : Z)
    (start : Board) first_tree cnt (fuel : nat) c :
  (name, algorithm) ∈ _ALGORITHMS ->
  create w h = Some start -> algorithm start = Some (first_tree, cnt) ->
  (Z.to_nat (w * h) < fuel)%nat ->
  match play int fuel ai_first (fun state => fst <$> algorithm state)
          first_tree c with
  | Returns _ c' =>
      (exists out (ai_won : bool),
         stdout c'
         = stdout c ++ out
           ++ ["Game complete." +:+ newline;
               join " " ["Winner:"; if ai_won then "AI" else "Human";
                         "(" +:+ Square_str (if Bool.eqb ai_won ai_first
                                             then MAX else MIN) +:+ ")"]
               +:+ newline])
      /\ exists tree' ai_turn',
           game_reaches int (fun state => fst <$> algorithm state)
             first_tree ai_first (stdin c) tree' ai_turn' (stdin c')
           /\ done (node_state tree') = true
  | Endless =>
      exists tree' lines',
        game_reaches int (fun state => fst <$> algorithm state)
          first_tree ai_first (stdin c) tree' false lines'
        /\ done (node_state tree') = false
        /\ forall line, line ∈ lines' ->
             forall move, ~ names_move int (node_state tree') line move
  | Raises _ _ | OutOfFuel => False
  end.
Proof.
  intros Halg Hstart Hrun Hfuel.
  pose proof (create_consistent _ _ _ Hstart) as Hcons.
  assert (Hfresh : chosen_child start = None /\ _MAX_turn start = true
                   /\ _open_cnt start = w * h).
  { by apply create_Some in Hstart as (_ & _ & ->). }
  destruct Hfresh as (Hfresh & Hmax & Hopen).
  assert (Htree : game_tree first_tree
                  /\ position (node_state first_tree) = position start).
  { destruct (algorithms_search name algorithm start Halg) as [Heq|Heq];
      rewrite Heq in Hrun;
      (split; [by eapply base_minimax_game_tree
              |by eapply base_minimax_position]). }
  destruct Htree as [Htree Hpos].
  assert (Hcons' : consistent (node_state first_tree))
    by (by apply (consistent_position start)).
  assert (Hfuel' : (count_square OPEN (_tiles (node_state first_tree))
                    < fuel)%nat).
  { rewrite (position_tiles _ _ Hpos). destruct Hcons as (_ & _ & _ & Hc).
    lia. }
  assert (Hturn : _MAX_turn (node_state first_tree)
                  = Bool.eqb ai_first ai_first).
  { rewrite (position_MAX_turn _ _ Hpos), Hmax. by destruct ai_first. }
  unfold play.
  set (msgs := if ai_first then _ else _). destruct msgs as [ai_msg human_msg].
  cbv [mbind IO_bind print]. cbn [stdin stdout].
  pose proof (turns_runs name algorithm ai_first ai_msg human_msg fuel
                first_tree ai_first
                (mkConsole (stdin c)
                   (((stdout c ++ [join " " ["Board:"] +:+ newline])
                     ++ [join " " [__str__ (node_state first_tree)]
                         +:+ newline])
                    ++ [join " " [] +:+ newline]))
                Halg Htree Hcons' Hfuel' Hturn) as Hloop.
  cbn [stdin] in Hloop.
  destruct (turns _ _ _ _ _ _ _ _) as [[tree' ai_turn'] c'| | |];
    [|done|exact Hloop|done].
  destruct Hloop as (Hdone & Hmark & [out Hout] & Hreach).
  cbn [stdout] in Hout. split; [|by exists tree', ai_turn'].
  exists ([join " " ["Board:"] +:+ newline;
           join " " [__str__ (node_state first_tree)] +:+ newline;
           join " " [] +:+ newline] ++ out), (negb ai_turn').
  cbn [stdout]. rewrite Hout, <- !app_assoc. cbn [app].
  unfold winner. rewrite Hdone, Hmark. cbn [negb].
  destruct ai_turn', ai_first; reflexivity.
Qed.

End Game.

(** ** The theorems at concrete inputs *)

Lemma single_square_consistent : consistent single_square.
Proof.
  split; [vm_compute; congruence|]. split; [vm_compute; congruence|].
  split; [by repeat constructor|reflexivity].
Qed.

Lemma sample_tree_game_tree : game_tree sample_tree.
Proof.
  constructor.
  - reflexivity.
  - repeat constructor. simpl. eauto.
  - simpl. intros c [= <-]. split; [by left|reflexivity].
  - constructor; [|constructor]. unfold won_leaf. by constructor.
Qed.

Lemma MM_algorithm :
  ("MM", fun state : Board => minimax state _LOOKAHEAD_DEPTH) ∈ _ALGORITHMS.
Proof. by left. Qed.

Lemma find_child_spec_witness :
  (game_tree sample_tree
   /\ place (node_state sample_tree) 0 0 = Some won_board)
  /\ match _find_child sample_tree won_board with
     | Some c =>
         c ∈ node_children sample_tree
         /\ position (node_state c) = position won_board
     | None =>
         (forall c, c ∈ node_children sample_tree ->
            position (node_state c) <> position won_board)
         /\ (length (node_children sample_tree)
             < length (moves (node_state sample_tree)))%nat
     end.
Proof.
  assert (H1 : game_tree sample_tree) by exact sample_tree_game_tree.
  assert (H2 : place (node_state sample_tree) 0 0 = Some won_board)
    by reflexivity.
  split; [done|]. exact (find_child_spec sample_tree 0 0 won_board H1 H2).
Defined.

Lemma ai_turn_moves_witness :
  (("MM", fun state : Board => minimax state _LOOKAHEAD_DEPTH) ∈ _ALGORITHMS
   /\ game_tree (mkNode single_square [])
   /\ consistent (node_state (mkNode single_square []))
   /\ done (node_state (mkNode single_square [])) = false)
  /\ exists next,
       _play_ai_turn (mkNode single_square [])
         (fun state => fst <$> minimax state _LOOKAHEAD_DEPTH)
         (mkConsole [] [])
       = Returns (Some next) (mkConsole [] [])
       /\ game_tree next.
Proof.
  assert (H1 : game_tree (mkNode single_square [])) by (by constructor).
  assert (H2 : consistent (node_state (mkNode single_square [])))
    by exact single_square_consistent.
  assert (H3 : done (node_state (mkNode single_square [])) = false)
    by reflexivity.
  split; [exact (conj MM_algorithm (conj H1 (conj H2 H3)))|].
  destruct (ai_turn_moves "MM" _ (mkNode single_square []) (mkConsole [] [])
              MM_algorithm H1 H2 H3)
    as (next & _ & _ & _ & Hrun & Hnext & _).
  by exists next.
Defined.

Lemma human_turn_spec_witness :
  (game_tree sample_tree
   /\ stdin (mkConsole ["x"; "0/0"; "1/1"] []) = ["x"] ++ "0/0" :: ["1/1"]
   /\ (forall l, l ∈ ["x"] ->
         forall mv, ~ names_move sample_int (node_state sample_tree) l mv)
   /\ names_move sample_int (node_state sample_tree) "0/0" won_board)
  /\ exists next out',
       _play_human_turn sample_int sample_tree
         (mkConsole ["x"; "0/0"; "1/1"] [])
       = Returns next (mkConsole ["1/1"] ([] ++ out'))
       /\ position (node_state next) = position won_board.
Proof.
  assert (H1 : game_tree sample_tree) by exact sample_tree_game_tree.
  assert (H2 : stdin (mkConsole ["x"; "0/0"; "1/1"] [])
               = ["x"] ++ "0/0" :: ["1/1"]) by reflexivity.
  assert (H3 : forall l, l ∈ ["x"] ->
            forall mv, ~ names_move sample_int (node_state sample_tree) l mv).
  { intros l Hl mv (a & b & row & col & Hs & _).
    apply list_elem_of_singleton in Hl as ->. vm_compute in Hs. discriminate. }
  assert (H4 : names_move sample_int (node_state sample_tree) "0/0" won_board).
  { exists "0", "0", 0, 0. repeat split. }
  split; [done|].
  destruct (proj2 (human_turn_spec sample_int sample_tree
                     (mkConsole ["x"; "0/0"; "1/1"] []) H1)
              ["x"] "0/0" ["1/1"] won_board H2 H3 H4)
    as (next & out' & Hrun & Hpos & _).
  by exists next, out'.
Defined.

Lemma play_completes_witness :
  (("MM", fun state : Board => minimax state _LOOKAHEAD_DEPTH) ∈ _ALGORITHMS
   /\ create 1 1 = Some single_square
   /\ minimax single_square _LOOKAHEAD_DEPTH = Some (sample_tree, 2)
   /\ (Z.to_nat (1 * 1) < 2)%nat)
  /\ (exists c',
        play sample_int 2 false
          (fun state => fst <$> minimax state _LOOKAHEAD_DEPTH)
          sample_tree (mkConsole ["x"; "0/0"] [])
        = Returns () c'
        /\ exists tree' ai_turn',
             game_reaches sample_int
               (fun state => fst <$> minimax state _LOOKAHEAD_DEPTH)
               sample_tree false ["x"; "0/0"] tree' ai_turn' (stdin c')
             /\ done (node_state tree') = true)
  /\ (play sample_int 2 false
        (fun state => fst <$> minimax state _LOOKAHEAD_DEPTH)
        sample_tree (mkConsole ["x"] [])
      = Endless
      /\ exists tree' lines',
           game_reaches sample_int
             (fun state => fst <$> minimax state _LOOKAHEAD_DEPTH)
             sample_tree false ["x"] tree' false lines'
           /\ done (node_state tree') = false
           /\ forall line, line ∈ lines' ->
                forall move,
                  ~ names_move sample_int (node_state tree') line move).
Proof.
  assert (H1 : create 1 1 = Some single_square) by reflexivity.
  assert (H2 : minimax single_square _LOOKAHEAD_DEPTH = Some (sample_tree, 2))
    by reflexivity.
  assert (H3 : (Z.to_nat (1 * 1) < 2)%nat) by (vm_compute; lia).
  split; [exact (conj MM_algorithm (conj H1 (conj H2 H3)))|]. split.
  - pose proof (play_completes sample_int "MM" _ false 1 1 single_square
                  sample_tree 2 2%nat (mkConsole ["x"; "0/0"] [])
                  MM_algorithm H1 H2 H3) as Hplay.
    destruct (play _ _ _ _ _ _) as [[] c'| | |] eqn:Hrun.
    + exists c'. split; [reflexivity|]. exact (proj2 Hplay).
    + destruct Hplay.
    + vm_compute in Hrun. discriminate Hrun.
    + destruct Hplay.
  - pose proof (play_completes sample_int "MM" _ false 1 1 single_square
                  sample_tree 2 2%nat (mkConsole ["x"] [])
                  MM_algorithm H1 H2 H3) as Hplay.
    destruct (play _ _ _ _ _ _) as [[] c'| | |] eqn:Hrun.
    + vm_compute in Hrun. discriminate Hrun.
    + destruct Hplay.
    + split; [reflexivity|]. exact Hplay.
    + destruct Hplay.
Defined.
